(** * Graph partitioner and recompute insertion pass: a shallow embedding

    Sources embedded here:
    - orttraining/core/optimizer/transformer_layer_recompute.cc
      (IdentifyTransformerLayerEdges, NodesBetweenEdges,
       InsertRecomputeNodes, ApplyImpl)
    - orttraining/core/framework/module_gradient_graph_builder.cc
      (GetInputAndOutputNames, RemoveNodes, FilterInitializers, Initialize,
       BuildAndSplit (lines 160-218), AddYieldOp, ReorderOutputs, Split)

    C++ values are represented as follows.  A [Node*] is the node's index in
    the graph's node vector, and dereferencing it reads the slot at that
    index, which holds no node once the node is removed; a [NodeArg*] is
    [Some name] (node arguments are owned by the graph and unique per name)
    or [None] for a null pointer;
    [std::vector] is [list]; [std::unordered_set<std::string>] is
    [gset string]; [std::set<const Node*, NodeCompare>] is [gset nat] iterated
    in increasing index order; [std::unordered_map] is [gmap]. *)

From Stdlib Require Import ZArith.
From stdpp Require Import base option list sorting relations gmap strings.

Local Open Scope string_scope.
Local Open Scope Z_scope.
Local Open Scope nat_scope.
Local Open Scope stdpp_scope.
Local Open Scope list_scope.

(** ** Outcomes of a C++ call *)

(** A call either returns, throws (ORT_ENFORCE), or has no defined result
    (a null pointer or an end iterator is dereferenced, a vector is indexed
    out of range, or a traversal is started on a graph without a
    topological order). *)
Inductive Outcome (A : Type) : Type :=
| Normal (a : A)
| Throws (msg : string)
| Undefined.
Arguments Normal {A} a.
Arguments Throws {A} msg.
Arguments Undefined {A}.

Global Instance Outcome_bind : MBind Outcome := λ A B k m,
  match m with
  | Normal a => k a
  | Throws msg => Throws msg
  | Undefined => Undefined
  end.

(** Dereference of a possibly null pointer / possibly missing element. *)
Definition deref {A} (o : option A) : Outcome A :=
  match o with Some a => Normal a | None => Undefined end.

Fixpoint foldO {A B} (f : A → B → Outcome A) (a : A) (l : list B) : Outcome A :=
  match l with
  | [] => Normal a
  | b :: l' => a' ← f a b; foldO f a' l'
  end.

Definition is_Normal {A} (m : Outcome A) : Prop := ∃ a, m = Normal a.

(** [common::Status]: OK, or FAIL with a message (ORT_RETURN_IF_NOT). *)
Inductive Status : Type :=
| OK
| FAIL (msg : string).

(** ** Data model *)

Abbreviation NodeIndex := nat (only parsing).
Abbreviation NodeArgPtr := (option string) (only parsing).
(** Type/shape descriptor of a node argument; [None] when it carries none. *)
Abbreviation TypeProto := (option string) (only parsing).

Record Node : Type := mkNode {
  Name : string;
  OpType : string;
  Description : string;
  InputDefs : list string;
  OutputDefs : list string;
  Attributes : gmap string Z;
  Domain : string;
  Priority : Z
}.

(** Modelled from the spec: the Graph class is not part of the sources at
    hand.  Section 4.1 of the specification gives its contract: addNode,
    removeNode, getOrCreateReference, producerOf, consumersOf,
    topologicalOrder, setInputs, setOutputs and resolve, where resolve
    recomputes the producer/consumer indices.  The node vector keeps a slot
    per index ([None] once removed) and new nodes are appended.  The last
    [unlinked_] slots hold the nodes added since the last resolve: they are
    nodes of the graph like the others (GetNode returns them and
    topologicalOrder lists them), but they are not part of the
    producer/consumer indices, nor of any edge, until the next resolve. *)
Record Graph : Type := mkGraph {
  nodes_ : list (option Node);
  unlinked_ : nat;
  node_args_ : gmap string TypeProto;
  initializers_ : gset string;
  graph_inputs_ : list NodeArgPtr;
  graph_outputs_ : list NodeArgPtr
}.

Definition kMSDomain : string := "com.microsoft".

Section GraphModel.
Implicit Types (g : Graph) (i j : NodeIndex) (name : string).

Definition GetNode g i : option Node := mjoin (nodes_ g !! i).

Definition linked g : list (option Node) :=
  take (length (nodes_ g) - unlinked_ g) (nodes_ g).

Definition linked_node g i : option Node := mjoin (linked g !! i).

Definition NodeIndices g : list NodeIndex := seq 0 (length (linked g)).

(** The linked nodes, and the nodes of the graph, linked or not, both in
    index order. *)
Definition live_nodes g : list NodeIndex :=
  filter (λ i, is_Some (linked_node g i)) (NodeIndices g).

Definition all_nodes g : list NodeIndex :=
  filter (λ i, is_Some (GetNode g i)) (seq 0 (length (nodes_ g))).

Definition produces name (on : option Node) : Prop :=
  match on with Some n => name ∈ OutputDefs n | None => False end.

Global Instance produces_dec name on : Decision (produces name on).
Proof. destruct on; simpl; apply _. Defined.

Definition GetProducerNode g name : option NodeIndex :=
  fst <$> list_find (produces name) (linked g).

Definition consumes name (on : option Node) : Prop :=
  match on with Some n => name ∈ InputDefs n | None => False end.

Global Instance consumes_dec name on : Decision (consumes name on).
Proof. destruct on; simpl; apply _. Defined.

Definition GetConsumerNodes g name : list NodeIndex :=
  filter (λ i, consumes name (linked_node g i)) (NodeIndices g).

(** Number of edges from node [j] to node [i]: one per input slot of [i]
    whose argument is produced by [j]. *)
Definition edge_count g j i : nat :=
  match linked_node g i with
  | Some n => length (filter (λ a, GetProducerNode g a = Some j) (InputDefs n))
  | None => 0
  end.

(** The edge sets of a node are ordered by the index of the node at the
    other end, so iteration visits neighbours in increasing index order,
    once per edge. *)
Definition OutputNodes g j : list NodeIndex :=
  i ← NodeIndices g; replicate (edge_count g j i) i.

Definition InputNodes g i : list NodeIndex :=
  j ← NodeIndices g; replicate (edge_count g j i) j.

Definition GetOutputEdgesCount g j : nat := length (OutputNodes g j).

(** topologicalOrder: repeatedly emit the lowest-index node all of whose
    input nodes were emitted; [None] (CycleDetected) when no pending node
    is ready.  Every node of the graph is listed; one added since the last
    resolve has no input node yet. *)
Definition ready g (done : list NodeIndex) i : Prop :=
  Forall (λ j, j ∈ done) (InputNodes g i).

Global Instance ready_dec g done i : Decision (ready g done i).
Proof. unfold ready. apply _. Defined.

Fixpoint kahn g (fuel : nat) (pending done : list NodeIndex)
  : option (list NodeIndex) :=
  match pending with
  | [] => Some (reverse done)
  | _ :: _ =>
    match fuel with
    | 0 => None
    | S fuel' =>
      match list_find (ready g done) pending with
      | None => None
      | Some (k, i) => kahn g fuel' (delete k pending) (i :: done)
      end
    end
  end.

Definition topologicalOrder g : option (list NodeIndex) :=
  kahn g (length (all_nodes g)) (all_nodes g) [].

(** GraphViewer::GetNodesInTopologicalOrder. *)
Definition GetNodesInTopologicalOrder g : Outcome (list NodeIndex) :=
  deref (topologicalOrder g).

Definition GetNodeArg g name : NodeArgPtr :=
  if decide (name ∈ dom (node_args_ g)) then Some name else None.

Definition TypeAsProto g name : TypeProto :=
  default None (node_args_ g !! name).

Definition GetOrCreateNodeArg g name (ty : TypeProto) : Graph * string :=
  if decide (name ∈ dom (node_args_ g)) then (g, name)
  else (mkGraph (nodes_ g) (unlinked_ g) (<[name := ty]> (node_args_ g))
                (initializers_ g) (graph_inputs_ g) (graph_outputs_ g), name).

(** AddNode reads the name of every argument it is given and appends the
    node; it returns the graph and the index of the new node. *)
Definition AddNode g (name op_type description : string)
    (input_args output_args : list NodeArgPtr)
    (attributes : gmap string Z) (domain : string)
  : Outcome (Graph * NodeIndex) :=
  ins ← deref (mapM id input_args);
  outs ← deref (mapM id output_args);
  let n := mkNode name op_type description ins outs attributes domain 0 in
  Normal (mkGraph (nodes_ g ++ [Some n]) (S (unlinked_ g)) (node_args_ g)
                  (initializers_ g) (graph_inputs_ g) (graph_outputs_ g),
          length (nodes_ g)).

Definition update_node g i (f : Node → Node) : Graph :=
  mkGraph (alter (fmap f) i (nodes_ g)) (unlinked_ g) (node_args_ g)
          (initializers_ g) (graph_inputs_ g) (graph_outputs_ g).

Definition SetPriority g i (p : Z) : Graph :=
  update_node g i (λ n, mkNode (Name n) (OpType n) (Description n)
    (InputDefs n) (OutputDefs n) (Attributes n) (Domain n) p).

Definition AddAttribute g i (key : string) (v : Z) : Graph :=
  update_node g i (λ n, mkNode (Name n) (OpType n) (Description n)
    (InputDefs n) (OutputDefs n) (<[key := v]> (Attributes n)) (Domain n)
    (Priority n)).

(** removeNode (also detaches the node's edges: an empty slot has none). *)
Definition RemoveNode g i : Graph :=
  mkGraph (<[i := None]> (nodes_ g)) (unlinked_ g) (node_args_ g)
          (initializers_ g) (graph_inputs_ g) (graph_outputs_ g).

Definition RemoveInitializedTensor g name : Graph :=
  mkGraph (nodes_ g) (unlinked_ g) (node_args_ g)
          (initializers_ g ∖ {[name]}) (graph_inputs_ g) (graph_outputs_ g).

Definition SetInputs g (l : list NodeArgPtr) : Graph :=
  mkGraph (nodes_ g) (unlinked_ g) (node_args_ g) (initializers_ g)
          l (graph_outputs_ g).

Definition SetOutputs g (l : list NodeArgPtr) : Graph :=
  mkGraph (nodes_ g) (unlinked_ g) (node_args_ g) (initializers_ g)
          (graph_inputs_ g) l.

Definition all_outputs (ns : list (option Node)) : list string :=
  on ← ns; match on with Some n => OutputDefs n | None => [] end.

(** resolve: recompute the indices over every slot, then validate the
    single-producer and acyclic invariants. *)
Definition Resolve g : Graph * Status :=
  let g' := mkGraph (nodes_ g) 0 (node_args_ g)
                    (initializers_ g) (graph_inputs_ g) (graph_outputs_ g) in
  (g', if decide (NoDup (all_outputs (nodes_ g)))
       then match topologicalOrder g' with
            | Some _ => OK
            | None => FAIL "InvalidGraph"
            end
       else FAIL "InvalidGraph").
End GraphModel.

(** ** The recompute insertion pass (transformer_layer_recompute.cc) *)

Definition gelu_ops : gset string := {[ "Gelu"; "BiasGelu"; "FastGelu" ]}.
Definition dropout_ops : gset string :=
  {[ "Dropout"; "BiasDropout"; "TrainableDropout" ]}.

(** [node.OutputNodesBegin()]: [None] is the end iterator. *)
Definition OutputNodesBegin (g : Graph) (i : NodeIndex) : option NodeIndex :=
  head (OutputNodes g i).

(** [while (next_node->OutputNodesBegin() != next_node->OutputNodesEnd() &&
           cond(next_node->OpType())) next_node = next_node->OutputNodesBegin();]
    The fuel bounds the number of iterations; it is the number of linked
    slots, which a walk along edges of a graph that has a topological order
    never exceeds (see [walk_while_defined]). *)
Fixpoint walk_while (g : Graph) (cond : string → bool) (fuel : nat)
    (next_node : NodeIndex) : Outcome NodeIndex :=
  match fuel with
  | 0 => Undefined
  | S fuel' =>
    node ← deref (GetNode g next_node);
    match OutputNodesBegin g next_node with
    | Some nxt =>
      if cond (OpType node) then walk_while g cond fuel' nxt
      else Normal next_node
    | None => Normal next_node
    end
  end.

Definition not_dropout (op : string) : bool := bool_decide (op ∉ dropout_ops).
Definition not_layernorm (op : string) : bool :=
  bool_decide (op ≠ "LayerNormalization").

Definition is_layer_start (g : Graph) (i : NodeIndex) (node : Node) : bool :=
  bool_decide ((OpType node = "LayerNormalization" ∨ OpType node ∈ dropout_ops)
               ∧ GetOutputEdgesCount g i = 4).

(** Lines 29-45: the end edge contributed by a GELU-family node, if any. *)
Definition find_layer_end (g : Graph) (i : NodeIndex) : Outcome (option string) :=
  next_node ← deref (OutputNodesBegin g i);
  next_node ← walk_while g not_dropout (length (linked g)) next_node;
  next_node ← walk_while g not_layernorm (length (linked g)) next_node;
  node ← deref (GetNode g next_node);
  if decide (OpType node = "LayerNormalization")
  then o ← deref (OutputDefs node !! 0); Normal (Some o)
  else Normal None.

(** Body of the loop over [node_topology_list] (lines 19-46). *)
Definition scan_step (g : Graph) (acc : list string * list string)
    (node_index : NodeIndex) : Outcome (list string * list string) :=
  node ← deref (GetNode g node_index);
  layer_start_edges ←
    (if is_layer_start g node_index node
     then o ← deref (OutputDefs node !! 0); Normal (acc.1 ++ [o])
     else Normal acc.1);
  layer_end_edges ←
    (if decide (OpType node ∈ gelu_ops)
     then e ← find_layer_end g node_index;
          Normal (acc.2 ++ option_list e)
     else Normal acc.2);
  Normal (layer_start_edges, layer_end_edges).

Definition scan_layers (g : Graph) : Outcome (list string * list string) :=
  node_topology_list ← GetNodesInTopologicalOrder g;
  foldO (scan_step g) ([], []) node_topology_list.

Definition unbalanced_message : string :=
  "Number of start and end edges doesn't match!".

Definition IdentifyTransformerLayerEdges (g : Graph)
    (start_end_edges : list (string * string))
  : Outcome (Status * list (string * string)) :=
  '(layer_start_edges, layer_end_edges) ← scan_layers g;
  if decide (length layer_start_edges = length layer_end_edges)
  then Normal (OK, zip layer_start_edges layer_end_edges)
  else Normal (FAIL unbalanced_message, start_end_edges).

(** [NodeSet]: iteration follows NodeCompare, i.e. increasing index. *)
Definition NodeSet_iter (s : gset NodeIndex) : list NodeIndex :=
  merge_sort (≤) (elements s).

(** The inner [for] of both traversals: push and mark each unvisited
    neighbour. *)
Definition visit_all (neighbours : list NodeIndex)
    (state : list NodeIndex * gset NodeIndex) : list NodeIndex * gset NodeIndex :=
  foldl (λ qv m, if decide (m ∈ qv.2) then qv else (qv.1 ++ [m], {[m]} ∪ qv.2))
        state neighbours.

Fixpoint bfs (neighbours : NodeIndex → list NodeIndex) (fuel : nat)
    (queue : list NodeIndex) (visited : gset NodeIndex)
  : Outcome (gset NodeIndex) :=
  match queue with
  | [] => Normal visited
  | n :: queue' =>
    match fuel with
    | 0 => Undefined
    | S fuel' =>
      let qv := visit_all (neighbours n) (queue', visited) in
      bfs neighbours fuel' qv.1 qv.2
    end
  end.

Definition bfs_fuel (g : Graph) (queue : list NodeIndex) : nat :=
  length queue + length (linked g).

Definition NodesBetweenEdges (g : Graph) (start end_ : string)
  : Outcome (list NodeIndex) :=
  let start_nodes := GetConsumerNodes g start in
  fw_visited ← bfs (OutputNodes g) (bfs_fuel g start_nodes) start_nodes
                   (list_to_set start_nodes);
  end_node ← deref (GetProducerNode g end_);
  bw_visited ← bfs (InputNodes g) (bfs_fuel g [end_node]) [end_node] ∅;
  Normal (filter (λ n, n ∈ bw_visited) (NodeSet_iter fw_visited)).

(** The test of lines 129-130 and 162-163, and the argument it selects. *)
Definition keeps_original (g : Graph) (initializers : gset string)
    (nodes : list NodeIndex) (input : string) : bool :=
  bool_decide (input ∈ initializers) ||
  match GetProducerNode g input with
  | Some p_node => bool_decide (p_node ∉ nodes)
  | None => true
  end.

Definition recomputed_arg (g : Graph) (name : string) : Graph * string :=
  GetOrCreateNodeArg g (name +:+ "_recompute") (TypeAsProto g name).

Definition recomputed_input (initializers : gset string) (nodes : list NodeIndex)
    (st : Graph * list NodeArgPtr) (input : string) : Graph * list NodeArgPtr :=
  if keeps_original st.1 initializers nodes input
  then (st.1, st.2 ++ [Some input])
  else let ga := recomputed_arg st.1 input in (ga.1, st.2 ++ [Some ga.2]).

Definition recomputed_output (st : Graph * list NodeArgPtr) (output : string)
  : Graph * list NodeArgPtr :=
  let ga := recomputed_arg st.1 output in (ga.1, st.2 ++ [Some ga.2]).

(** Body of the loop of InsertRecomputeNodes (lines 121-195). *)
Definition insert_recompute_node (initializers : gset string)
    (nodes : list NodeIndex) (g : Graph) (n : NodeIndex) : Outcome Graph :=
  node ← deref (GetNode g n);
  if decide (OpType node = "TrainableDropout" ∨ OpType node = "Dropout") then
    input ← deref (InputDefs node !! 0);
    let st := recomputed_input initializers nodes (g, []) input in
    mask ← deref (OutputDefs node !! 1);
    ratio ← deref (InputDefs node !! 1);
    let recomputed_inputs := st.2 ++ [Some mask; Some ratio] in
    output ← deref (OutputDefs node !! 0);
    let ga := recomputed_arg st.1 output in
    '(g', recompute_node) ←
      AddNode ga.1 (Name node +:+ "_recompute") "TrainableDropoutGrad"
              ("Recompute of " +:+ Name node) recomputed_inputs [Some ga.2]
              ∅ kMSDomain;
    Normal (SetPriority g' recompute_node (-10))
  else
    let st := foldl (recomputed_input initializers nodes) (g, []) (InputDefs node) in
    let st' := foldl recomputed_output (st.1, []) (OutputDefs node) in
    '(g', recompute_node) ←
      AddNode st'.1 (Name node +:+ "_recompute") (OpType node)
              ("Recompute of " +:+ Name node) st.2 st'.2
              (Attributes node) (Domain node);
    Normal (SetPriority g' recompute_node (-10)).

Definition InsertRecomputeNodes (g : Graph) (nodes : list NodeIndex)
  : Outcome Graph :=
  let initializers := initializers_ g in
  foldO (insert_recompute_node initializers nodes) g nodes.

(** Body of the loop of ApplyImpl over the detected pairs (lines 204-207). *)
Definition recompute_layer (g : Graph) (se : string * string) : Outcome Graph :=
  nodes ← NodesBetweenEdges g se.1 se.2;
  InsertRecomputeNodes g nodes.

Definition ApplyImpl (g : Graph) (modified : bool)
  : Outcome (Graph * bool * Status) :=
  '(status, start_end_edges) ← IdentifyTransformerLayerEdges g [];
  match status with
  | FAIL msg => Normal (g, modified, FAIL msg)
  | OK =>
    g' ← foldO recompute_layer g start_end_edges;
    Normal (g', true, OK)
  end.

(** ** The gradient graph builder (module_gradient_graph_builder.cc) *)

(** Modelled from the spec: the header declaring SplitGraphsInfo, the
    builder configuration and the builder's members is not part of the
    sources at hand.  The records list the members the functions below read
    and write, with the container types their uses imply (section 3,
    "Split-Graph Metadata", and section 6, "Configuration fields"). *)
Record SplitGraphsInfo : Type := mkInfo {
  user_input_names : list string;
  user_input_grad_names : gmap string string;
  initializer_names_to_train : list string;
  initializer_grad_names_to_train : list string;
  user_output_names : list string;
  backward_user_input_names : list string;
  backward_intializer_names_as_input : list string;
  intermediate_tensor_names : list string;
  user_output_grad_names : list string;
  backward_output_grad_names : list string;
  ordered_initializer_names : list string
}.

Record ModuleGradientGraphBuilderConfiguration : Type := mkConfig {
  config_initializer_names_to_train : gset string;
  input_names_require_grad : gset string;
  use_invertible_layernorm_grad : bool
}.

Record ModuleGradientGraphBuilder : Type := mkBuilder {
  forward_model_ : Graph;
  backward_model_ : Graph;
  gradient_model_ : Graph;
  config_ : ModuleGradientGraphBuilderConfiguration;
  split_graphs_info_ : SplitGraphsInfo
}.

Section Setters.
Implicit Types (s : SplitGraphsInfo) (b : ModuleGradientGraphBuilder).

Definition set_user_input_grad_names s v :=
  mkInfo (user_input_names s) v (initializer_names_to_train s)
    (initializer_grad_names_to_train s) (user_output_names s)
    (backward_user_input_names s) (backward_intializer_names_as_input s)
    (intermediate_tensor_names s) (user_output_grad_names s)
    (backward_output_grad_names s) (ordered_initializer_names s).
Definition set_initializer_grad_names_to_train s v :=
  mkInfo (user_input_names s) (user_input_grad_names s)
    (initializer_names_to_train s) v (user_output_names s)
    (backward_user_input_names s) (backward_intializer_names_as_input s)
    (intermediate_tensor_names s) (user_output_grad_names s)
    (backward_output_grad_names s) (ordered_initializer_names s).
Definition set_backward_user_input_names s v :=
  mkInfo (user_input_names s) (user_input_grad_names s)
    (initializer_names_to_train s) (initializer_grad_names_to_train s)
    (user_output_names s) v (backward_intializer_names_as_input s)
    (intermediate_tensor_names s) (user_output_grad_names s)
    (backward_output_grad_names s) (ordered_initializer_names s).
Definition set_backward_intializer_names_as_input s v :=
  mkInfo (user_input_names s) (user_input_grad_names s)
    (initializer_names_to_train s) (initializer_grad_names_to_train s)
    (user_output_names s) (backward_user_input_names s) v
    (intermediate_tensor_names s) (user_output_grad_names s)
    (backward_output_grad_names s) (ordered_initializer_names s).
Definition set_intermediate_tensor_names s v :=
  mkInfo (user_input_names s) (user_input_grad_names s)
    (initializer_names_to_train s) (initializer_grad_names_to_train s)
    (user_output_names s) (backward_user_input_names s)
    (backward_intializer_names_as_input s) v (user_output_grad_names s)
    (backward_output_grad_names s) (ordered_initializer_names s).
Definition set_user_output_grad_names s v :=
  mkInfo (user_input_names s) (user_input_grad_names s)
    (initializer_names_to_train s) (initializer_grad_names_to_train s)
    (user_output_names s) (backward_user_input_names s)
    (backward_intializer_names_as_input s) (intermediate_tensor_names s) v
    (backward_output_grad_names s) (ordered_initializer_names s).
Definition set_backward_output_grad_names s v :=
  mkInfo (user_input_names s) (user_input_grad_names s)
    (initializer_names_to_train s) (initializer_grad_names_to_train s)
    (user_output_names s) (backward_user_input_names s)
    (backward_intializer_names_as_input s) (intermediate_tensor_names s)
    (user_output_grad_names s) v (ordered_initializer_names s).
Definition set_ordered_initializer_names s v :=
  mkInfo (user_input_names s) (user_input_grad_names s)
    (initializer_names_to_train s) (initializer_grad_names_to_train s)
    (user_output_names s) (backward_user_input_names s)
    (backward_intializer_names_as_input s) (intermediate_tensor_names s)
    (user_output_grad_names s) (backward_output_grad_names s) v.

Definition set_forward_model b g :=
  mkBuilder g (backward_model_ b) (gradient_model_ b) (config_ b)
            (split_graphs_info_ b).
Definition set_backward_model b g :=
  mkBuilder (forward_model_ b) g (gradient_model_ b) (config_ b)
            (split_graphs_info_ b).
Definition set_gradient_model b g :=
  mkBuilder (forward_model_ b) (backward_model_ b) g (config_ b)
            (split_graphs_info_ b).
Definition set_info b s :=
  mkBuilder (forward_model_ b) (backward_model_ b) (gradient_model_ b)
            (config_ b) s.
End Setters.

Definition grad_of (name : string) : string := name +:+ "_grad".

Definition GetInputAndOutputNames (node : Node)
    (names : gset string * gset string) : gset string * gset string :=
  (list_to_set (InputDefs node) ∪ names.1,
   list_to_set (OutputDefs node) ∪ names.2).

(** RemoveNodes (lines 25-30).  Each pointer of the list is dereferenced,
    for the output edges and the index of its node, before the node is
    removed: a pointer to a node that is no longer in the graph, like a
    null pointer, has no defined target. *)
Definition RemoveNodes (g : Graph) (nodes_to_remove : list NodeIndex)
  : Outcome Graph :=
  foldO (λ g node_to_remove,
           node ← deref (GetNode g node_to_remove);
           Normal (RemoveNode g node_to_remove))
        g nodes_to_remove.

Definition FilterInitializers (g : Graph) (input_names : gset string) : Graph :=
  let initializer_names_to_remove : gset string :=
    filter (λ x, x ∉ input_names) (initializers_ g) in
  foldl RemoveInitializedTensor g (elements initializer_names_to_remove).

(** NodeArg::UpdateTypeAndShape(other, ...): the argument takes the type
    and shape of [other]. *)
Definition UpdateTypeAndShape (g : Graph) (name : string) (ty : TypeProto)
  : Graph :=
  mkGraph (nodes_ g) (unlinked_ g) (<[name := ty]> (node_args_ g))
          (initializers_ g) (graph_inputs_ g) (graph_outputs_ g).

(** *** ReorderOutputs (lines 405-447) *)

Definition output_arg_map (outputs : list NodeArgPtr)
  : Outcome (gmap string NodeArgPtr) :=
  foldO (λ m node_arg, name ← deref node_arg; Normal (<[name := node_arg]> m))
        ∅ outputs.

Definition reorder_step (require_grad : gset string)
    (gradient_output_arg_map : gmap string NodeArgPtr)
    (acc : gmap string string * list NodeArgPtr) (input_name : string)
  : Outcome (gmap string string * list NodeArgPtr) :=
  if decide (input_name ∈ require_grad) then
    let input_gradient_name := grad_of input_name in
    match gradient_output_arg_map !! input_gradient_name with
    | None => Throws "Required user input grad is not found on gradient graph."
    | Some arg =>
      Normal (<[input_name := input_gradient_name]> acc.1, acc.2 ++ [arg])
    end
  else Normal acc.

Definition ReorderOutputs (b : ModuleGradientGraphBuilder)
  : Outcome ModuleGradientGraphBuilder :=
  let gradient_graph := gradient_model_ b in
  let info := split_graphs_info_ b in
  gradient_output_arg_map ← output_arg_map (graph_outputs_ gradient_graph);
  let new_output_args := GetNodeArg gradient_graph <$> user_output_names info in
  let user_input_require_grad_set := input_names_require_grad (config_ b) in
  '(grad_names, new_output_args) ←
    foldO (reorder_step user_input_require_grad_set gradient_output_arg_map)
          (∅, new_output_args) (user_input_names info);
  Normal (set_gradient_model
            (set_info b (set_user_input_grad_names info grad_names))
            (SetOutputs gradient_graph new_output_args)).

(** *** AddYieldOp (lines 321-403) *)

(** First loop (lines 335-344): the user-output gradients that some node of
    the graph produces. *)
Definition collect_output_grads (g : Graph) (user_output_grad_set : gset string)
    (order : list NodeIndex) : Outcome (gset string) :=
  foldO (λ acc node_index,
           node ← deref (GetNode g node_index);
           Normal (foldl (λ s a, if decide (a ∈ user_output_grad_set)
                                 then {[a]} ∪ s else s)
                         acc (OutputDefs node)))
        ∅ order.

(** Body of the second loop (lines 389-399), for one output of one node. *)
Definition add_grad_yield (grad_names : list string)
    (grad_name_map : gmap string string)
    (st : Graph * list string) (name : string) : Outcome (Graph * list string) :=
  if decide (name ∈ grad_names) then
    let yield_input_node_arg := [GetNodeArg st.1 name] in
    '(g', yield_node) ←
      AddNode st.1 ("YieldOp_" +:+ name) "Yield" "Yield Op"
              yield_input_node_arg [] ∅ kMSDomain;
    Normal (AddAttribute g' yield_node "push_input" 1%Z,
            st.2 ++ [default "" (grad_name_map !! name)])
  else Normal st.

Definition add_grad_yields (grad_names : list string)
    (grad_name_map : gmap string string)
    (st : Graph * list string) (node_index : NodeIndex)
  : Outcome (Graph * list string) :=
  node ← deref (GetNode st.1 node_index);
  foldO (add_grad_yield grad_names grad_name_map) st (OutputDefs node).

Definition AddYieldOp (b : ModuleGradientGraphBuilder)
  : Outcome ModuleGradientGraphBuilder :=
  let gradient_graph := gradient_model_ b in
  let info := split_graphs_info_ b in
  gradient_node_topology_list ← GetNodesInTopologicalOrder gradient_graph;
  let info := set_user_output_grad_names info
                (grad_of <$> user_output_names info) in
  let user_output_grad_set : gset string :=
    list_to_set (user_output_grad_names info) in
  non_backward_user_output_grad_names ←
    collect_output_grads gradient_graph user_output_grad_set
                         gradient_node_topology_list;
  let pending := filter (λ name, grad_of name ∉ non_backward_user_output_grad_names)
                        (user_output_names info) in
  let yield_input_names :=
    pending ++ filter (λ name, grad_of name ∈ non_backward_user_output_grad_names)
                      (user_output_names info) in
  let info := set_backward_output_grad_names info (grad_of <$> pending) in
  let yield_input_node_args := GetNodeArg gradient_graph <$> yield_input_names in
  let yield_output_node_args :=
    GetNodeArg gradient_graph <$> backward_output_grad_names info in
  '(gradient_graph, _) ←
    AddNode gradient_graph "YieldOp_fw_op" "Yield" "Yield Op"
            yield_input_node_args yield_output_node_args ∅ kMSDomain;
  let grad_name_map : gmap string string :=
    foldl (λ m initializer_name, <[grad_of initializer_name := initializer_name]> m)
          ∅ (initializer_names_to_train info) in
  let info := set_initializer_grad_names_to_train info
                (grad_of <$> initializer_names_to_train info) in
  let grad_names := initializer_grad_names_to_train info in
  '(gradient_graph, ordered) ←
    foldO (add_grad_yields grad_names grad_name_map)
          (gradient_graph, ordered_initializer_names info)
          gradient_node_topology_list;
  let info := set_ordered_initializer_names info (reverse ordered) in
  Normal (set_gradient_model (set_info b info) gradient_graph).

(** *** Split (lines 455-582) *)

(** First loop (lines 465-474) over the forward copy. *)
Record SplitScan : Type := mkScan {
  forward_nodes_to_remove : list NodeIndex;
  forward_names : gset string * gset string;
  backward_names : gset string * gset string
}.

Definition split_scan_step (g : Graph) (acc : SplitScan)
    (node_index : NodeIndex) : Outcome SplitScan :=
  node ← deref (GetNode g node_index);
  if decide (Description node = "Backward pass")
  then Normal (mkScan (forward_nodes_to_remove acc ++ [node_index])
                      (forward_names acc)
                      (GetInputAndOutputNames node (backward_names acc)))
  else Normal (mkScan (forward_nodes_to_remove acc)
                      (GetInputAndOutputNames node (forward_names acc))
                      (backward_names acc)).

(** Loop of lines 524-529 over the backward copy. *)
Definition backward_remove_step (g : Graph) (acc : list NodeIndex)
    (node_index : NodeIndex) : Outcome (list NodeIndex) :=
  node ← deref (GetNode g node_index);
  if decide (Description node ≠ "Backward pass")
  then Normal (acc ++ [node_index])
  else Normal acc.

(** Loop of lines 547-554. *)
Definition backward_initializer_step (backward_input_names : gset string)
    (st : Graph * list string * list NodeArgPtr) (initializer_name : string)
  : Graph * list string * list NodeArgPtr :=
  if decide (initializer_name ∈ backward_input_names)
  then (RemoveInitializedTensor st.1.1 initializer_name,
        st.1.2 ++ [initializer_name],
        st.2 ++ [GetNodeArg st.1.1 initializer_name])
  else st.

(** Loop of lines 557-561. *)
Definition backward_intermediate_step (forward_graph : Graph)
    (st : Graph * list NodeArgPtr) (intermediate_arg_name : string)
  : Outcome (Graph * list NodeArgPtr) :=
  intermediate_node_arg ← deref (GetNodeArg st.1 intermediate_arg_name);
  forward_arg ← deref (GetNodeArg forward_graph intermediate_arg_name);
  Normal (UpdateTypeAndShape st.1 intermediate_node_arg
                             (TypeAsProto forward_graph forward_arg),
          st.2 ++ [Some intermediate_node_arg]).

Definition Split (b : ModuleGradientGraphBuilder)
  : Outcome (ModuleGradientGraphBuilder * Status) :=
  let info := split_graphs_info_ b in
  let forward_graph := forward_model_ b in
  forward_node_topology_list ← GetNodesInTopologicalOrder forward_graph;
  sc ← foldO (split_scan_step forward_graph) (mkScan [] (∅, ∅) (∅, ∅))
             forward_node_topology_list;
  let forward_input_names := (forward_names sc).1 in
  let forward_output_names := (forward_names sc).2 in
  let backward_input_names := (backward_names sc).1 in
  let backward_output_names := (backward_names sc).2 in
  let intermediate_arg_names : gset string :=
    filter (λ name, name ∈ backward_input_names) forward_output_names in
  forward_graph ← RemoveNodes forward_graph (forward_nodes_to_remove sc);
  let forward_graph := FilterInitializers forward_graph forward_input_names in
  let forward_input_args :=
    (GetNodeArg forward_graph <$> user_input_names info) ++
    (GetNodeArg forward_graph <$> initializer_names_to_train info) in
  let forward_graph := SetInputs forward_graph forward_input_args in
  let intermediates :=
    filter (λ name, name ∉ user_output_names info)
           (elements intermediate_arg_names) in
  let info := set_intermediate_tensor_names info intermediates in
  let forward_output_args :=
    (GetNodeArg forward_graph <$> user_output_names info) ++
    (GetNodeArg forward_graph <$> intermediates) in
  let forward_graph := SetOutputs forward_graph forward_output_args in
  let forward_graph := (Resolve forward_graph).1 in
  let backward_graph := backward_model_ b in
  backward_node_topology_list ← GetNodesInTopologicalOrder backward_graph;
  backward_nodes_to_remove ←
    foldO (backward_remove_step backward_graph) [] backward_node_topology_list;
  backward_graph ← RemoveNodes backward_graph backward_nodes_to_remove;
  let backward_graph := FilterInitializers backward_graph backward_input_names in
  let used_inputs := filter (λ name, name ∈ backward_input_names)
                            (user_input_names info) in
  let info := set_backward_user_input_names info used_inputs in
  let backward_input_args := GetNodeArg backward_graph <$> used_inputs in
  let '(backward_graph, as_input, backward_input_args) :=
    foldl (backward_initializer_step backward_input_names)
          (backward_graph, [], backward_input_args)
          (initializer_names_to_train info) in
  let info := set_backward_intializer_names_as_input info as_input in
  '(backward_graph, backward_input_args) ←
    foldO (backward_intermediate_step forward_graph)
          (backward_graph, backward_input_args)
          (intermediate_tensor_names info);
  let backward_input_args :=
    backward_input_args ++
    (GetNodeArg backward_graph <$> backward_output_grad_names info) in
  let backward_graph := SetInputs backward_graph backward_input_args in
  backward_output_args ←
    foldO (λ acc node_arg,
             name ← deref node_arg;
             Normal (if decide (name ∈ backward_output_names)
                     then acc ++ [node_arg] else acc))
          [] (graph_outputs_ backward_graph);
  let backward_graph := SetOutputs backward_graph backward_output_args in
  let backward_graph := (Resolve backward_graph).1 in
  Normal (mkBuilder forward_graph backward_graph (gradient_model_ b)
                    (config_ b) info, OK).

(** ** Notions used to state the properties *)

(** [j] feeds [i]: some input slot of [i] is produced by [j]. *)
Definition Edge (g : Graph) (j i : NodeIndex) : Prop := edge_count g j i ≠ 0.

(** The nodes added since the last resolve, in index order, and the order
    in which topologicalOrder lists the linked nodes alone. *)
Definition unlinked_nodes (g : Graph) : list NodeIndex :=
  filter (λ i, is_Some (GetNode g i))
         (seq (length (linked g)) (length (nodes_ g) - length (linked g))).

Definition linked_order (g : Graph) : option (list NodeIndex) :=
  kahn g (length (live_nodes g)) (live_nodes g) [].

(** Every node of [l] comes after all of its input nodes. *)
Definition inputs_first (g : Graph) (l : list NodeIndex) : Prop :=
  ∀ p i, l !! p = Some i →
         ∀ j, j ∈ InputNodes g i → ∃ q, q < p ∧ l !! q = Some j.

(** Span extraction as the specification words it.  [forward_reachable]:
    the nodes met by a forward traversal that starts at the consumers of
    [start] (those consumers included).  [backward_reachable]: the nodes met
    by a reverse traversal that starts at [end_node]. *)
Definition forward_reachable (g : Graph) (start : string) (x : NodeIndex) : Prop :=
  ∃ c, c ∈ GetConsumerNodes g start ∧ rtc (Edge g) c x.

Definition backward_reachable (g : Graph) (end_node x : NodeIndex) : Prop :=
  rtc (λ a b, Edge g b a) end_node x.

Definition span_spec (g : Graph) (start : string) (end_node x : NodeIndex) : Prop :=
  forward_reachable g start x ∧ backward_reachable g end_node x ∧ x ≠ end_node.

(** The synthetic chain A -> B -> C -> D of the reachability scenario. *)
Definition chain_node (name input output : string) : option Node :=
  Some (mkNode name "Relu" "" [input] [output] ∅ "" 0).

Definition chain_graph : Graph :=
  mkGraph [chain_node "A" "x" "a"; chain_node "B" "a" "b";
           chain_node "C" "b" "c"; chain_node "D" "c" "d"]
          0 ∅ ∅ [] [].

(** Boundary detection as the specification words it.  A node opens a
    layer when it is a LayerNormalization or dropout-family node with
    exactly four outgoing edges; it is a candidate for closing one when it
    is a GELU-family node. *)
Definition opens_layer (g : Graph) (i : NodeIndex) : Prop :=
  match GetNode g i with
  | Some n => (OpType n = "LayerNormalization" ∨ OpType n ∈ dropout_ops)
              ∧ GetOutputEdgesCount g i = 4
  | None => False
  end.

Global Instance opens_layer_dec g i : Decision (opens_layer g i).
Proof. unfold opens_layer. destruct (GetNode g i); apply _. Defined.

Definition is_gelu_node (g : Graph) (i : NodeIndex) : Prop :=
  match GetNode g i with
  | Some n => OpType n ∈ gelu_ops
  | None => False
  end.

Global Instance is_gelu_node_dec g i : Decision (is_gelu_node g i).
Proof. unfold is_gelu_node. destruct (GetNode g i); apply _. Defined.

Definition first_output (g : Graph) (i : NodeIndex) (o : string) : Prop :=
  ∃ n, GetNode g i = Some n ∧ OutputDefs n !! 0 = Some o.

(** [follows g stop i r]: going from [i] along first consumers, [r] is the
    first node whose operator type satisfies [stop]. *)
Inductive follows (g : Graph) (stop : string → Prop)
  : NodeIndex → NodeIndex → Prop :=
| follows_here i n :
    GetNode g i = Some n → stop (OpType n) → follows g stop i i
| follows_next i n k r :
    GetNode g i = Some n → ¬ stop (OpType n) →
    OutputNodesBegin g i = Some k → follows g stop k r →
    follows g stop i r.

Definition is_dropout (op : string) : Prop := op ∈ dropout_ops.
Definition is_layernorm (op : string) : Prop := op = "LayerNormalization".

(** A layer template: LayerNormalization [ln0] feeding an Add, a Gelu, a
    Dropout and a closing LayerNormalization [ln1]; [ln0] has four outgoing
    edges. *)
Definition n_ (name op : string) (ins outs : list string) : option Node :=
  Some (mkNode name op "" ins outs ∅ "" 0).

Definition graph_of (ns : list (option Node)) : Graph :=
  mkGraph ns 0 ∅ ∅ [] [].

Definition layer_graph : Graph :=
  graph_of [ n_ "ln0" "LayerNormalization" ["x"] ["b"];
             n_ "add" "Add" ["b"; "x"] ["c"];
             n_ "gelu" "Gelu" ["c"] ["g"];
             n_ "drop" "Dropout" ["g"; "ratio"] ["d"; "mask"];
             n_ "cat" "Concat" ["b"; "b"; "b"] ["k"];
             n_ "ln1" "LayerNormalization" ["d"] ["e"] ].

(** The boundary mismatch scenario: a LayerNormalization node with four
    outgoing edges and no GELU-family node. *)
Definition unbalanced_graph : Graph :=
  graph_of [ n_ "ln0" "LayerNormalization" ["x"] ["b"];
             n_ "cat" "Concat" ["b"; "b"; "b"; "b"] ["k"] ].

(** [r] is the duplicate that the pass builds for [n]. *)
Definition is_recompute_of (n r : Node) : Prop :=
  Name r = Name n +:+ "_recompute" ∧
  Description r = "Recompute of " +:+ Name n ∧
  Priority r = (-10)%Z.

(** [g'] is [g] with the nodes [new] appended, unlinked, and possibly more
    node arguments; nothing else differs. *)
Definition nodes_appended (g g' : Graph) (new : list Node) : Prop :=
  nodes_ g' = nodes_ g ++ (Some <$> new) ∧
  unlinked_ g' = unlinked_ g + length new ∧
  initializers_ g' = initializers_ g ∧
  graph_inputs_ g' = graph_inputs_ g ∧
  graph_outputs_ g' = graph_outputs_ g ∧
  node_args_ g ⊆ node_args_ g'.

(** The node at [i] can be duplicated: it exists and, when it is a Dropout
    or TrainableDropout node, it has the two inputs and two outputs that the
    pass reads. *)
Definition arity_ok (n : Node) : Prop :=
  OpType n = "TrainableDropout" ∨ OpType n = "Dropout" →
  2 ≤ length (InputDefs n) ∧ 2 ≤ length (OutputDefs n).

Definition recomputable (g : Graph) (i : NodeIndex) : Prop :=
  ∃ n, GetNode g i = Some n ∧ arity_ok n.

(** [g'] answers every query of the pass as [g] does. *)
Definition same_view (g g' : Graph) : Prop :=
  linked g' = linked g ∧ initializers_ g' = initializers_ g ∧
  ∀ i n, GetNode g i = Some n → GetNode g' i = Some n.

(** A graph with two candidate starts: S1 has four outgoing edges, S2 has
    three. *)
Definition two_start_graph : Graph :=
  graph_of [ n_ "S2" "LayerNormalization" ["x"] ["a"];
             n_ "S1" "LayerNormalization" ["a"] ["b"];
             n_ "Add" "Add" ["b"; "a"] ["c"];
             n_ "G" "Gelu" ["c"] ["g"];
             n_ "D" "Dropout" ["g"; "ratio"] ["d"; "mask"];
             n_ "I" "Identity" ["a"] ["i"];
             n_ "Cat" "Concat" ["b"; "b"; "b"] ["k"];
             n_ "E" "LayerNormalization" ["d"] ["e"] ].

(** A GELU-family node off the path from the layer start to the layer end:
    the span between the output of ln0 and the output of ln1 holds the
    Concat and the Add node only. *)
Definition side_gelu_graph : Graph :=
  graph_of [ n_ "ln0" "LayerNormalization" ["x"] ["s"];
             n_ "gelu" "Gelu" ["y"] ["a"];
             n_ "drop" "Dropout" ["a"; "ratio"] ["d"; "mask"];
             n_ "cat" "Concat" ["s"; "s"; "s"; "s"] ["t"];
             n_ "add" "Add" ["d"; "t"] ["u"];
             n_ "ln1" "LayerNormalization" ["u"] ["e"] ].

(** The slots that [g1] has past those of [g]: the nodes that an
    application of the pass to [g] has appended when it returned [g1]. *)
Definition inserted_nodes (g g1 : Graph) : list (option Node) :=
  drop (length (nodes_ g)) (nodes_ g1).

(** The slot holds a GELU-family node. *)
Definition holds_gelu (on : option Node) : Prop :=
  match on with Some n => OpType n ∈ gelu_ops | None => False end.

(** The graph left by one application of the pass. *)
Definition after_pass (g : Graph) : Graph :=
  match ApplyImpl g false with
  | Normal (g', _, _) => g'
  | _ => g
  end.

(** ** Notions used for the gradient graph builder *)

(** The user inputs that require a gradient, in user-input order. *)
Definition inputs_requiring_grad (b : ModuleGradientGraphBuilder) : list string :=
  filter (λ name, name ∈ input_names_require_grad (config_ b))
         (user_input_names (split_graphs_info_ b)).

(** The output order that the comment heading ReorderOutputs announces:
    user outputs, user-input gradients, trainable-initializer gradients. *)
Definition announced_outputs (b : ModuleGradientGraphBuilder) : list NodeArgPtr :=
  Some <$> (user_output_names (split_graphs_info_ b) ++
            (grad_of <$> inputs_requiring_grad b) ++
            (grad_of <$> initializer_names_to_train (split_graphs_info_ b))).

(** A gradient graph for y = MatMul(x, w) with trainable initializer w and
    user input x requiring a gradient; all three gradient references are
    declared outputs when ReorderOutputs starts. *)
Definition typed (names : list string) : gmap string (option string) :=
  list_to_map ((λ name, (name, None)) <$> names).

Definition matmul_gradient_graph : Graph :=
  mkGraph [ n_ "MatMul" "MatMul" ["x"; "w"] ["y"];
            Some (mkNode "MatMul_Grad_w" "MatMul" "Backward pass"
                         ["x"; "y_grad"] ["w_grad"] ∅ "" 0);
            Some (mkNode "MatMul_Grad_x" "MatMul" "Backward pass"
                         ["y_grad"; "w"] ["x_grad"] ∅ "" 0) ]
          0 (typed ["x"; "w"; "y"; "y_grad"; "w_grad"; "x_grad"]) ∅
          [Some "x"; Some "w"; Some "y_grad"]
          [Some "y"; Some "w_grad"; Some "x_grad"].

Definition matmul_info : SplitGraphsInfo :=
  mkInfo ["x"] ∅ ["w"] [] ["y"] [] [] [] [] ["y_grad"] [].

Definition matmul_builder : ModuleGradientGraphBuilder :=
  mkBuilder matmul_gradient_graph matmul_gradient_graph matmul_gradient_graph
            (mkConfig {["w"]} {["x"]} false) matmul_info.

(** The declared outputs of the gradient graph after a call that returned. *)
Definition outputs_after (r : Outcome ModuleGradientGraphBuilder)
  : option (list NodeArgPtr) :=
  match r with
  | Normal b' => Some (graph_outputs_ (gradient_model_ b'))
  | _ => None
  end.

(** Backward-pass membership of a node, as the differentiator tags it. *)
Definition is_backward (n : Node) : Prop := Description n = "Backward pass".

Definition backward_at (g : Graph) (i : NodeIndex) : Prop :=
  match GetNode g i with Some n => is_backward n | None => False end.

Definition forward_at (g : Graph) (i : NodeIndex) : Prop :=
  match GetNode g i with Some n => ¬ is_backward n | None => False end.

Global Instance is_backward_dec n : Decision (is_backward n).
Proof. unfold is_backward. apply _. Defined.

Global Instance backward_at_dec g i : Decision (backward_at g i).
Proof. unfold backward_at. destruct (GetNode g i); apply _. Defined.

Global Instance forward_at_dec g i : Decision (forward_at g i).
Proof. unfold forward_at. destruct (GetNode g i); apply _. Defined.

(** [x] is an input (output) of a forward (backward) node of [g]. *)
Definition forward_output (g : Graph) (x : string) : Prop :=
  ∃ i n, GetNode g i = Some n ∧ ¬ is_backward n ∧ x ∈ OutputDefs n.

Definition backward_input (g : Graph) (x : string) : Prop :=
  ∃ i n, GetNode g i = Some n ∧ is_backward n ∧ x ∈ InputDefs n.

(** [g] with the slots of [l] emptied. *)
Definition without_nodes (g : Graph) (l : list NodeIndex) : Graph :=
  foldl RemoveNode g l.

(** The graph is as its last resolve left it. *)
Definition resolved (g : Graph) : Prop := unlinked_ g = 0.

(** A two-layer model y = MatMul(Relu(MatMul(x, w1)), w2) with its gradient
    nodes; w1 and w2 are trainable. *)
Definition bw_ (name op : string) (ins outs : list string) : option Node :=
  Some (mkNode name op "Backward pass" ins outs ∅ "" 0).

Definition mlp_graph : Graph :=
  mkGraph [ n_ "fc1" "MatMul" ["x"; "w1"] ["h"];
            n_ "act" "Relu" ["h"] ["r"];
            n_ "fc2" "MatMul" ["r"; "w2"] ["y"];
            bw_ "fc2_grad_w" "MatMul" ["r"; "y_grad"] ["w2_grad"];
            bw_ "fc2_grad_r" "MatMul" ["y_grad"; "w2"] ["r_grad"];
            bw_ "act_grad" "ReluGrad" ["r_grad"; "h"] ["h_grad"];
            bw_ "fc1_grad_w" "MatMul" ["x"; "h_grad"] ["w1_grad"] ]
          0
          (typed ["x"; "w1"; "w2"; "h"; "r"; "y"; "y_grad"; "w2_grad";
                  "r_grad"; "h_grad"; "w1_grad"])
          ∅
          [Some "x"; Some "w1"; Some "w2"; Some "y_grad"]
          [Some "y"; Some "w1_grad"; Some "w2_grad"].

Definition mlp_builder : ModuleGradientGraphBuilder :=
  mkBuilder mlp_graph mlp_graph mlp_graph
            (mkConfig {["w1"; "w2"]} ∅ false)
            (mkInfo ["x"] ∅ ["w1"; "w2"] [] ["y"] [] [] [] [] ["y_grad"] []).

(** Every argument of every node is a node argument of the graph. *)
Definition args_known (g : Graph) : Prop :=
  ∀ i n x, GetNode g i = Some n → x ∈ InputDefs n ++ OutputDefs n →
           x ∈ dom (node_args_ g).

(** The builder left by a call of Split that returned. *)
Definition after_split (b : ModuleGradientGraphBuilder)
  : ModuleGradientGraphBuilder :=
  match Split b with
  | Normal (b', _) => b'
  | _ => b
  end.

(** The builder left by a call of ReorderOutputs that returned. *)
Definition after_reorder (b : ModuleGradientGraphBuilder)
  : ModuleGradientGraphBuilder :=
  match ReorderOutputs b with
  | Normal b' => b'
  | _ => b
  end.

(** The builder left by a call of AddYieldOp that returned. *)
Definition after_yield (b : ModuleGradientGraphBuilder)
  : ModuleGradientGraphBuilder :=
  match AddYieldOp b with
  | Normal b' => b'
  | _ => b
  end.

(** The two-layer model at the second call of AddYieldOp when Build (lines
    245-264) is called twice on the same builder: the first call has run
    AddYieldOp and ReorderOutputs; the second one has loaded the gradient
    graph again and built its gradient nodes; the metadata are as the first
    call left them. *)
Definition rebuilt_mlp_builder : ModuleGradientGraphBuilder :=
  set_gradient_model (after_reorder (after_yield mlp_builder)) mlp_graph.

(** The hand-off node added for the gradient [name] (lines 391-395). *)
Definition grad_yield_node (name : string) : Node :=
  mkNode ("YieldOp_" +:+ name) "Yield" "Yield Op" [name] []
         {[ "push_input" := 1%Z ]} kMSDomain 0.

Definition outputs_at (g : Graph) (i : NodeIndex) : list string :=
  match GetNode g i with Some n => OutputDefs n | None => [] end.

(** The node outputs met when the nodes of [order] are visited in turn. *)
Definition produced_outputs (g : Graph) (order : list NodeIndex) : list string :=
  i ← order; outputs_at g i.

(** The trainable-initializer gradients among them, in the order met. *)
Definition encountered_grads (b : ModuleGradientGraphBuilder)
    (order : list NodeIndex) : list string :=
  filter (λ x, x ∈ grad_of <$> initializer_names_to_train (split_graphs_info_ b))
         (produced_outputs (gradient_model_ b) order).

(** ** Notions used for the further properties of the pass *)

(** The name of the recompute twin of an argument or node. *)
Definition twin (a : string) : string := a +:+ "_recompute".

(** [a] is computed inside the span: it is not an initializer and its
    producer is a node of the span. *)
Definition produced_in_span (g : Graph) (span : list NodeIndex) (a : string)
  : Prop :=
  (a ∉ initializers_ g) ∧
  match GetProducerNode g a with Some p => p ∈ span | None => False end.

Global Instance produced_in_span_dec g span a :
  Decision (produced_in_span g span a).
Proof. unfold produced_in_span. destruct (GetProducerNode g a); apply _. Defined.

(** The argument that a duplicate reads in place of [a]. *)
Definition rewired (g : Graph) (span : list NodeIndex) (a : string) : string :=
  if decide (produced_in_span g span a) then twin a else a.

(** The duplicate of node [n] of [span]: a Dropout or TrainableDropout node
    becomes a TrainableDropoutGrad node reading the (rewired) data input,
    the mask output and the ratio input of [n]; any other node keeps its
    operator type, attributes and domain, reads its rewired inputs and
    writes the twins of its outputs. *)
Definition duplicate_of (g : Graph) (span : list NodeIndex) (n : Node)
  : option Node :=
  if decide (OpType n = "TrainableDropout" ∨ OpType n = "Dropout") then
    input ← InputDefs n !! 0;
    mask ← OutputDefs n !! 1;
    ratio ← InputDefs n !! 1;
    output ← OutputDefs n !! 0;
    Some (mkNode (twin (Name n)) "TrainableDropoutGrad"
                 ("Recompute of " +:+ Name n)
                 [rewired g span input; mask; ratio] [twin output]
                 ∅ kMSDomain (-10))
  else
    Some (mkNode (twin (Name n)) (OpType n) ("Recompute of " +:+ Name n)
                 (rewired g span <$> InputDefs n) (twin <$> OutputDefs n)
                 (Attributes n) (Domain n) (-10)).

(** The graph left by a call of InsertRecomputeNodes that returned. *)
Definition after_insert (g : Graph) (nodes : list NodeIndex) : Graph :=
  match InsertRecomputeNodes g nodes with
  | Normal g' => g'
  | _ => g
  end.

(** The call does not throw: it returns or has no defined result. *)
Definition no_throw {A} (m : Outcome A) : Prop := ∀ msg, m ≠ Throws msg.

(** A GELU-family node that nothing consumes. *)
Definition dangling_gelu_graph : Graph :=
  graph_of [ n_ "ln" "LayerNormalization" ["x"] ["a"];
             n_ "gelu" "Gelu" ["a"] ["g"] ].

(** A Dropout node written without its ratio input and mask output. *)
Definition short_dropout_graph : Graph :=
  graph_of [ n_ "ln" "LayerNormalization" ["x"] ["a"];
             n_ "drop" "Dropout" ["a"] ["d"] ].

(** The duplicates of the nodes of [span], in span order. *)
Definition span_duplicates (g : Graph) (span : list NodeIndex)
  : option (list Node) :=
  mapM (λ i, n ← GetNode g i; duplicate_of g span n) span.

(** ** Notions used for the further properties of the builder *)

(** The user outputs whose gradient no visited node produces, and those
    whose gradient some visited node produces, each in user-output order. *)
Definition pending_outputs (b : ModuleGradientGraphBuilder)
    (order : list NodeIndex) : list string :=
  filter (λ u, grad_of u ∉ produced_outputs (gradient_model_ b) order)
         (user_output_names (split_graphs_info_ b)).

Definition computed_outputs (b : ModuleGradientGraphBuilder)
    (order : list NodeIndex) : list string :=
  filter (λ u, grad_of u ∈ produced_outputs (gradient_model_ b) order)
         (user_output_names (split_graphs_info_ b)).

(** The hand-off node YieldOp_fw_op (line 372). *)
Definition forward_yield_node (b : ModuleGradientGraphBuilder)
    (order : list NodeIndex) : Node :=
  mkNode "YieldOp_fw_op" "Yield" "Yield Op"
         (pending_outputs b order ++ computed_outputs b order)
         (grad_of <$> pending_outputs b order) ∅ kMSDomain 0.

(** [x] is an input of a forward node, an output of a backward node. *)
Definition forward_input (g : Graph) (x : string) : Prop :=
  ∃ i n, GetNode g i = Some n ∧ ¬ is_backward n ∧ x ∈ InputDefs n.

Definition backward_output (g : Graph) (x : string) : Prop :=
  ∃ i n, GetNode g i = Some n ∧ is_backward n ∧ x ∈ OutputDefs n.

(** The argument is not null and its name is in [s]. *)
Definition named_in (s : gset string) (o : NodeArgPtr) : Prop :=
  match o with Some name => name ∈ s | None => False end.

Global Instance named_in_dec s o : Decision (named_in s o).
Proof. destruct o; simpl; apply _. Defined.

(** y = MatMul(Mul(x, c), w) with its gradient nodes.  The initializers are
    the constant c, the weight w and an unused tensor k; w is trainable.
    In the forward copy the activation s carries a type. *)
Definition const_nodes : list (option Node) :=
  [ n_ "scale" "Mul" ["x"; "c"] ["s"];
    n_ "fc" "MatMul" ["s"; "w"] ["y"];
    bw_ "fc_grad_w" "MatMul" ["s"; "y_grad"] ["w_grad"];
    bw_ "fc_grad_s" "MatMul" ["y_grad"; "w"] ["s_grad"];
    bw_ "scale_grad" "Mul" ["s_grad"; "c"] ["x_grad"] ].

Definition const_args : gmap string TypeProto :=
  typed ["x"; "c"; "w"; "k"; "s"; "y"; "y_grad"; "w_grad"; "s_grad"; "x_grad"].

Definition const_graph (args : gmap string TypeProto) : Graph :=
  mkGraph const_nodes 0 args {[ "c"; "w"; "k" ]}
          [Some "x"; Some "w"; Some "y_grad"]
          [Some "y"; Some "w_grad"; Some "x_grad"].

Definition const_builder : ModuleGradientGraphBuilder :=
  mkBuilder (const_graph (<["s" := Some "tensor(float)"]> const_args))
            (const_graph const_args) (const_graph const_args)
            (mkConfig {["w"]} {["x"]} false)
            (mkInfo ["x"] ∅ ["w"] [] ["y"] [] [] [] [] ["y_grad"] []).

(** ** Initialize (module_gradient_graph_builder.cc, lines 46-87) *)

Definition set_user_input_names (s : SplitGraphsInfo) (v : list string) :=
  mkInfo v (user_input_grad_names s) (initializer_names_to_train s)
    (initializer_grad_names_to_train s) (user_output_names s)
    (backward_user_input_names s) (backward_intializer_names_as_input s)
    (intermediate_tensor_names s) (user_output_grad_names s)
    (backward_output_grad_names s) (ordered_initializer_names s).
Definition set_user_output_names (s : SplitGraphsInfo) (v : list string) :=
  mkInfo (user_input_names s) (user_input_grad_names s)
    (initializer_names_to_train s) (initializer_grad_names_to_train s) v
    (backward_user_input_names s) (backward_intializer_names_as_input s)
    (intermediate_tensor_names s) (user_output_grad_names s)
    (backward_output_grad_names s) (ordered_initializer_names s).
Definition set_initializer_names_to_train (s : SplitGraphsInfo)
    (v : list string) :=
  mkInfo (user_input_names s) (user_input_grad_names s) v
    (initializer_grad_names_to_train s) (user_output_names s)
    (backward_user_input_names s) (backward_intializer_names_as_input s)
    (intermediate_tensor_names s) (user_output_grad_names s)
    (backward_output_grad_names s) (ordered_initializer_names s).
Definition set_config (b : ModuleGradientGraphBuilder)
    (c : ModuleGradientGraphBuilderConfiguration) :=
  mkBuilder (forward_model_ b) (backward_model_ b) (gradient_model_ b) c
            (split_graphs_info_ b).

(** [for (auto& node_arg : args) names.emplace_back(node_arg->Name());] *)
Definition push_names (names : list string) (args : list NodeArgPtr)
  : Outcome (list string) :=
  foldO (λ acc node_arg, name ← deref node_arg; Normal (acc ++ [name]))
        names args.

(** Loop of lines 78-81: each trainable initializer becomes an input and
    stops being an initialized tensor. *)
Definition promote_initializer (st : Graph * list NodeArgPtr)
    (initializer_name : string) : Graph * list NodeArgPtr :=
  (RemoveInitializedTensor st.1 initializer_name,
   st.2 ++ [GetNodeArg st.1 initializer_name]).

(** Initialize, from the point where the model has been loaded: [graph] is
    the main graph of the loaded model (Model::Load belongs to the model
    library; when it fails Initialize returns its status at once).
    The result holds the graph kept as the original model and the builder.
    The configuration's names are a set: they are taken in the set's
    iteration order. *)
Definition Initialize (graph : Graph)
    (config : ModuleGradientGraphBuilderConfiguration)
    (b : ModuleGradientGraphBuilder)
  : Outcome (Graph * ModuleGradientGraphBuilder * Status) :=
  let info := split_graphs_info_ b in
  input_names ← push_names (user_input_names info) (graph_inputs_ graph);
  let info := set_user_input_names info input_names in
  output_names ← push_names (user_output_names info) (graph_outputs_ graph);
  let info := set_user_output_names info output_names in
  let info := set_initializer_names_to_train info
                (elements (config_initializer_names_to_train config)) in
  let input_args := GetNodeArg graph <$> user_input_names info in
  let '(graph, input_args) :=
    foldl promote_initializer (graph, input_args)
          (initializer_names_to_train info) in
  let graph := SetInputs graph input_args in
  Normal (graph, set_config (set_info b info) config, OK).

(** A builder as constructed: no model, no metadata. *)
Definition empty_graph : Graph := mkGraph [] 0 ∅ ∅ [] [].

Definition fresh_builder : ModuleGradientGraphBuilder :=
  mkBuilder empty_graph empty_graph empty_graph (mkConfig ∅ ∅ false)
            (mkInfo [] ∅ [] [] [] [] [] [] [] [] []).

(** The model y = MatMul(Mul(x, c), w) as loaded: x is its input, c, w and
    k are initializers. *)
Definition loaded_graph : Graph :=
  mkGraph [ n_ "scale" "Mul" ["x"; "c"] ["s"];
            n_ "fc" "MatMul" ["s"; "w"] ["y"] ]
          0 (typed ["x"; "c"; "w"; "k"; "s"; "y"]) {[ "c"; "w"; "k" ]}
          [Some "x"] [Some "y"].

(** [walks g stop i r]: the loop
    [while (next has a consumer && !stop(next->OpType())) next = first consumer]
    started at [i] ends at [r], the first node along the chain of first
    consumers that satisfies [stop] or has no consumer. *)
Inductive walks (g : Graph) (stop : string → Prop)
  : NodeIndex → NodeIndex → Prop :=
| walks_here i n :
    GetNode g i = Some n →
    stop (OpType n) ∨ OutputNodesBegin g i = None →
    walks g stop i i
| walks_next i n k r :
    GetNode g i = Some n → ¬ stop (OpType n) →
    OutputNodesBegin g i = Some k → walks g stop k r →
    walks g stop i r.

(** What boundary detection does for the GELU-family node [i]: from the
    first consumer [first] of [i] the first loop ends at [d], from [d] the
    second loop ends at [e]; [c] is the first output of [e] when [e] is a
    LayerNormalization node, and nothing otherwise. *)
Definition layer_end (g : Graph) (i : NodeIndex) (c : option string) : Prop :=
  ∃ first d e n,
    OutputNodesBegin g i = Some first ∧
    walks g is_dropout first d ∧
    walks g is_layernorm d e ∧
    GetNode g e = Some n ∧
    ((OpType n = "LayerNormalization" ∧
      ∃ o, OutputDefs n !! 0 = Some o ∧ c = Some o) ∨
     (OpType n ≠ "LayerNormalization" ∧ c = None)).

(** The slot holds a dropout-family node. *)
Definition holds_dropout (on : option Node) : Prop :=
  match on with Some n => OpType n ∈ dropout_ops | None => False end.

(** A GELU node followed by a Dropout and a Relu that nothing consumes. *)
Definition gelu_relu_graph : Graph :=
  graph_of [ n_ "gelu" "Gelu" ["x"] ["a"];
             n_ "drop" "Dropout" ["a"; "ratio"] ["d"; "mask"];
             n_ "relu" "Relu" ["d"] ["r"] ].

(** A GELU node followed by an Add and a closing LayerNormalization, with
    no dropout in between. *)
Definition no_dropout_graph : Graph :=
  graph_of [ n_ "gelu" "Gelu" ["x"] ["a"];
             n_ "add" "Add" ["a"] ["b"];
             n_ "ln" "LayerNormalization" ["b"] ["e"] ].

(** ** BuildAndSplit: fixing the inputs and outputs related to gradients
       (module_gradient_graph_builder.cc, lines 160-218) *)

(** Loop of lines 165-168: the names read and written by the nodes. *)
Definition collect_names (g : Graph) (order : list NodeIndex)
  : Outcome (gset string * gset string) :=
  foldO (λ acc node_index,
           node ← deref (GetNode g node_index);
           Normal (GetInputAndOutputNames node acc))
        (∅, ∅) order.

(** Body of the loop of lines 178-190.  The state holds the graph,
    user_output_grad_names, backward_output_grad_names and input_args. *)
Definition output_grad_step (input_names output_names : gset string)
    (st : Graph * list string * list string * list NodeArgPtr)
    (output_name : string)
  : Outcome (Graph * list string * list string * list NodeArgPtr) :=
  let '(graph, grads, backward_grads, input_args) := st in
  let output_gradient_name := grad_of output_name in
  if decide (output_gradient_name ∈ input_names) then
    let grads := grads ++ [output_gradient_name] in
    if decide (output_gradient_name ∉ output_names) then
      output_gradient_node_arg ← deref (GetNodeArg graph output_gradient_name);
      output_arg ← deref (GetNodeArg graph output_name);
      Normal (UpdateTypeAndShape graph output_gradient_node_arg
                                 (TypeAsProto graph output_arg),
              grads, backward_grads ++ [output_gradient_name],
              input_args ++ [Some output_gradient_node_arg])
    else Normal (graph, grads, backward_grads, input_args)
  else Normal st.

(** Body of the loop of lines 201-207. *)
Definition initializer_grad_step (output_names : gset string) (graph : Graph)
    (st : list string * list NodeArgPtr) (initializer_name : string)
  : list string * list NodeArgPtr :=
  let initializer_gradient_name := grad_of initializer_name in
  if decide (initializer_gradient_name ∈ output_names)
  then (st.1 ++ [initializer_gradient_name],
        st.2 ++ [GetNodeArg graph initializer_gradient_name])
  else st.

(** Body of the loop of lines 210-215. *)
Definition input_grad_step (output_names : gset string) (graph : Graph)
    (output_args : list NodeArgPtr) (input_name : string) : list NodeArgPtr :=
  let input_gradient_name := grad_of input_name in
  if decide (input_gradient_name ∈ output_names)
  then output_args ++ [GetNodeArg graph input_gradient_name]
  else output_args.

(** The part of BuildAndSplit between the call of the gradient builder and
    the second run of the transformers: [graph] is the graph the gradient
    builder has left, [info] the metadata.  (The steps before and after it
    call the graph transformers, the gradient builder and the model
    loader.)  The status of the final resolve
    is not looked at. *)
Definition fix_gradient_inputs_outputs
    (config : ModuleGradientGraphBuilderConfiguration)
    (graph : Graph) (info : SplitGraphsInfo)
  : Outcome (Graph * SplitGraphsInfo) :=
  node_topology_list ← GetNodesInTopologicalOrder graph;
  names ← collect_names graph node_topology_list;
  let input_names := names.1 in
  let output_names := names.2 in
  let input_args := graph_inputs_ graph in
  st ← foldO (output_grad_step input_names output_names)
             (graph, [], [], input_args) (user_output_names info);
  let '(graph, grads, backward_grads, input_args) := st in
  let info := set_user_output_grad_names info grads in
  let info := set_backward_output_grad_names info backward_grads in
  let graph := SetInputs graph input_args in
  let output_args := GetNodeArg graph <$> user_output_names info in
  let '(initializer_grads, output_args) :=
    foldl (initializer_grad_step output_names graph) ([], output_args)
          (initializer_names_to_train info) in
  let info := set_initializer_grad_names_to_train info initializer_grads in
  let output_args :=
    foldl (input_grad_step output_names graph) output_args
          (elements (input_names_require_grad config)) in
  let graph := SetOutputs graph output_args in
  let graph := (Resolve graph).1 in
  Normal (graph, info).

(** [x] is read (written) by a node of [g]. *)
Definition consumed_by_node (g : Graph) (x : string) : Prop :=
  ∃ i n, GetNode g i = Some n ∧ x ∈ InputDefs n.

Definition produced_by_node (g : Graph) (x : string) : Prop :=
  ∃ i n, GetNode g i = Some n ∧ x ∈ OutputDefs n.

(** * Verification *)

(** ** Outcomes *)

Lemma bind_Normal {A B} (m : Outcome A) (k : A → Outcome B) (b : B) :
  mbind k m = Normal b ↔ ∃ a, m = Normal a ∧ k a = Normal b.
Proof.
  destruct m as [a| |]; simpl; split.
  - intros H. by exists a.
  - by intros (a' & [= <-] & H).
  - done.
  - by intros (? & ? & _).
  - done.
  - by intros (? & ? & _).
Qed.

Lemma deref_Normal {A} (o : option A) (a : A) : deref o = Normal a ↔ o = Some a.
Proof. destruct o; simpl; split; congruence. Qed.

Section OutcomeLemmas.
Context {A B : Type}.

Lemma foldO_app (f : A → B → Outcome A) (a : A) (l1 l2 : list B) :
  foldO f a (l1 ++ l2) = (a' ← foldO f a l1; foldO f a' l2).
Proof.
  revert a. induction l1 as [|b l1 IH]; intros a; simpl; [done|].
  destruct (f a b); simpl; auto.
Qed.

(** An invariant carried through a [foldO] that returns. *)
Lemma foldO_invariant (P : A → Prop) (f : A → B → Outcome A) (l : list B) :
  (∀ a b a', b ∈ l → P a → f a b = Normal a' → P a') →
  ∀ a r, P a → foldO f a l = Normal r → P r.
Proof.
  induction l as [|b l IH]; intros Hstep a r Ha Hr; simpl in Hr.
  - by inversion Hr; subst.
  - apply bind_Normal in Hr as (a' & Hf & Hr).
    eapply IH; [|eapply Hstep; [|exact Ha|exact Hf]|exact Hr].
    + intros ??? Hin. apply Hstep. by right.
    + by left.
Qed.
End OutcomeLemmas.

Lemma filter_ext_elem {A} (P Q : A → Prop) `{!∀ x, Decision (P x)}
    `{!∀ x, Decision (Q x)} (l : list A) :
  (∀ x, x ∈ l → P x ↔ Q x) → filter P l = filter Q l.
Proof.
  induction l as [|x l IH]; intros Hl; [done|]. rewrite !filter_cons.
  rewrite IH by (intros y Hy; apply Hl; by right).
  destruct (decide (P x)) as [Hp|Hp], (decide (Q x)) as [Hq|Hq]; try done.
  - destruct Hq. apply Hl; [by left|done].
  - destruct Hp. apply Hl; [by left|done].
Qed.

Ltac inv_bind H :=
  let a := fresh "a" in
  let Ha := fresh "H" a in
  apply bind_Normal in H as (a & Ha & H).

Tactic Notation "inv_bind" "in" hyp(H) "as" ident(a) ident(Ha) :=
  apply bind_Normal in H as (a & Ha & H).

(** ** Calls that do not throw *)

Lemma no_throw_Normal {A} (a : A) : no_throw (Normal a).
Proof. intros msg. discriminate. Qed.

Lemma no_throw_Undefined {A} : no_throw (@Undefined A).
Proof. intros msg. discriminate. Qed.

Lemma no_throw_deref {A} (o : option A) : no_throw (deref o).
Proof. destruct o; intros msg; discriminate. Qed.

Lemma no_throw_bind {A B} (m : Outcome A) (k : A → Outcome B) :
  no_throw m → (∀ a, m = Normal a → no_throw (k a)) → no_throw (m ≫= k).
Proof.
  intros Hm Hk msg. destruct m as [a|msg'|]; simpl.
  - by apply Hk.
  - by destruct (Hm msg').
  - discriminate.
Qed.

Lemma no_throw_foldO {A B} (f : A → B → Outcome A) (l : list B) (a : A) :
  (∀ a b, no_throw (f a b)) → no_throw (foldO f a l).
Proof.
  intros Hf. revert a. induction l as [|b l IH]; intros a.
  - apply no_throw_Normal.
  - simpl. apply no_throw_bind; [apply Hf|]. intros a' _. apply IH.
Qed.

(** A call that neither returns nor throws has no defined result. *)
Lemma no_throw_Undefined_iff {A} (m : Outcome A) :
  no_throw m → ¬ is_Normal m → m = Undefined.
Proof.
  intros Hm Hn. destruct m as [a|msg|]; [|by destruct (Hm msg)|done].
  destruct Hn. by exists a.
Qed.

(** ** The graph model *)

Section GraphLemmas.
Implicit Types (g : Graph) (i j : NodeIndex) (n : Node).

Lemma linked_node_Some g i n :
  linked_node g i = Some n →
  GetNode g i = Some n ∧ i < length (linked g) ∧ linked g !! i = Some (Some n).
Proof.
  unfold linked_node, GetNode, linked. intros H.
  destruct (take _ _ !! i) as [[n'|]|] eqn:E; simplify_eq/=.
  pose proof (lookup_lt_Some _ _ _ E) as Hlt.
  apply lookup_take_Some in E as [E' ?]. rewrite E'. done.
Qed.

Lemma elem_of_NodeIndices g i : i ∈ NodeIndices g ↔ i < length (linked g).
Proof. unfold NodeIndices. rewrite elem_of_seq. lia. Qed.

Lemma linked_node_GetNode g i n : linked_node g i = Some n → GetNode g i = Some n.
Proof. by intros (? & _)%linked_node_Some. Qed.

Lemma GetNode_linked_node g i :
  i < length (linked g) → linked_node g i = GetNode g i.
Proof.
  unfold linked_node, GetNode, linked. intros Hi.
  rewrite length_take in Hi. by rewrite lookup_take_lt by lia.
Qed.

Lemma elem_of_live_nodes g i : i ∈ live_nodes g ↔ is_Some (linked_node g i).
Proof.
  unfold live_nodes. rewrite list_elem_of_filter, elem_of_NodeIndices.
  split; [by intros [? _]|]. intros [n Hn]. split; [by eexists|].
  by apply linked_node_Some in Hn as (_ & ? & _).
Qed.

Lemma NoDup_live_nodes g : NoDup (live_nodes g).
Proof. apply NoDup_filter, NoDup_seq. Qed.

Lemma elem_of_all_nodes g i : i ∈ all_nodes g ↔ is_Some (GetNode g i).
Proof.
  unfold all_nodes. rewrite list_elem_of_filter, elem_of_seq.
  split; [by intros [? _]|]. intros [n Hn]. split; [by eexists|].
  unfold GetNode in Hn. destruct (nodes_ g !! i) eqn:E; [|done].
  apply lookup_lt_Some in E. lia.
Qed.

Lemma NoDup_all_nodes g : NoDup (all_nodes g).
Proof. apply NoDup_filter, NoDup_seq. Qed.

Lemma length_linked g : length (linked g) ≤ length (nodes_ g).
Proof. unfold linked. rewrite length_take. lia. Qed.

(** The nodes of the graph are the linked ones followed by those added
    since the last resolve. *)
Lemma all_nodes_split g : all_nodes g = live_nodes g ++ unlinked_nodes g.
Proof.
  unfold all_nodes, live_nodes, unlinked_nodes, NodeIndices.
  pose proof (length_linked g) as Hle.
  replace (length (nodes_ g))
    with (length (linked g) + (length (nodes_ g) - length (linked g))) at 1
    by lia.
  rewrite seq_app, filter_app. f_equal.
  apply filter_ext_elem. intros i Hi.
  apply elem_of_seq in Hi. by rewrite GetNode_linked_node by lia.
Qed.

Lemma elem_of_unlinked_nodes g i :
  i ∈ unlinked_nodes g ↔ is_Some (GetNode g i) ∧ length (linked g) ≤ i.
Proof.
  unfold unlinked_nodes. rewrite list_elem_of_filter, elem_of_seq.
  pose proof (length_linked g). split; [intros [? ?]; split; [done|lia]|].
  intros [[n Hn] Hi]. split; [by eexists|].
  unfold GetNode in Hn. destruct (nodes_ g !! i) eqn:E; [|done].
  apply lookup_lt_Some in E. lia.
Qed.

Lemma GetProducerNode_Some g name j :
  GetProducerNode g name = Some j →
  ∃ n, linked_node g j = Some n ∧ name ∈ OutputDefs n.
Proof.
  unfold GetProducerNode. intros H.
  apply fmap_Some in H as ([j' on] & Hfind & ->).
  apply list_find_Some in Hfind as (Hl & Hp & _).
  destruct on as [n|]; [|done]. exists n. split; [|done].
  unfold linked_node. simpl in *. by rewrite Hl.
Qed.

Lemma elem_of_OutputNodes g j i : i ∈ OutputNodes g j ↔ Edge g j i.
Proof.
  unfold OutputNodes, Edge. rewrite list_elem_of_bind. split.
  - intros (i' & Hrep & _). apply elem_of_replicate in Hrep as [-> ?]. done.
  - intros He. exists i. split; [by apply elem_of_replicate|].
    apply elem_of_NodeIndices. unfold edge_count in He.
    destruct (linked_node g i) as [n|] eqn:E; [|done].
    by apply linked_node_Some in E as (_ & ? & _).
Qed.

Lemma Edge_live g j i :
  Edge g j i → is_Some (linked_node g j) ∧ is_Some (linked_node g i).
Proof.
  unfold Edge, edge_count. destruct (linked_node g i) as [n|] eqn:E; [|done].
  intros Hlen. split; [|by eexists].
  destruct (filter _ (InputDefs n)) as [|a l] eqn:Hf; [done|].
  assert (a ∈ filter (λ a, GetProducerNode g a = Some j) (InputDefs n)) as Ha
    by (rewrite Hf; left).
  apply list_elem_of_filter in Ha as [Ha _].
  apply GetProducerNode_Some in Ha as (nj & -> & _). by eexists.
Qed.

Lemma elem_of_InputNodes g i j : j ∈ InputNodes g i ↔ Edge g j i.
Proof.
  unfold InputNodes. rewrite list_elem_of_bind. split.
  - intros (j' & Hrep & _). apply elem_of_replicate in Hrep as [-> ?]. done.
  - intros He. exists j. split; [by apply elem_of_replicate|].
    apply elem_of_NodeIndices.
    apply Edge_live in He as [[nj Hj] _].
    by apply linked_node_Some in Hj as (_ & ? & _).
Qed.

(** *** Topological order *)

Lemma kahn_spec g fuel pending done l :
  inputs_first g (reverse done) →
  kahn g fuel pending done = Some l →
  inputs_first g l ∧ l ≡ₚ reverse done ++ pending.
Proof.
  revert pending done. induction fuel as [|fuel IH]; intros pending done Hinv.
  - destruct pending; simpl; [|done]. intros [= <-].
    rewrite app_nil_r. split; [done|reflexivity].
  - destruct pending as [|x pending'].
    { simpl. intros [= <-]. rewrite app_nil_r. split; [done|reflexivity]. }
    set (pending := x :: pending').
    change (kahn g (S fuel) pending done) with
      (match list_find (ready g done) pending with
       | None => None
       | Some (k, i) => kahn g fuel (delete k pending) (i :: done)
       end).
    destruct (list_find (ready g done) pending) as [[k i]|] eqn:Hfind; [|done].
    apply list_find_Some in Hfind as (Hk & Hready & _).
    intros Hl. apply IH in Hl as [Hfirst Hperm].
    + split; [done|]. rewrite Hperm, reverse_cons, <- (assoc_L (++)).
      apply Permutation_app_head. simpl.
      symmetry. by apply delete_Permutation.
    + rewrite reverse_cons. intros p i' Hp j Hj.
      apply lookup_app_Some in Hp as [Hp|[Hge Hp]].
      * destruct (Hinv p i' Hp j Hj) as (q & ? & Hq).
        exists q. split; [done|]. by apply lookup_app_l_Some.
      * apply list_lookup_singleton_Some in Hp as [Hp0 <-].
        unfold ready in Hready. rewrite Forall_forall in Hready.
        apply Hready in Hj. apply elem_of_reverse in Hj.
        apply list_elem_of_lookup in Hj as [q Hq].
        exists q. split; [|by apply lookup_app_l_Some].
        apply lookup_lt_Some in Hq. lia.
Qed.

Lemma linked_order_spec g l :
  linked_order g = Some l →
  inputs_first g l ∧ l ≡ₚ live_nodes g ∧ NoDup l.
Proof.
  unfold linked_order. intros H. apply kahn_spec in H as [H1 H2].
  - split_and!; [done|done|]. rewrite H2. apply NoDup_live_nodes.
  - intros p i Hp. done.
Qed.

Lemma linked_order_elem_of g l i :
  linked_order g = Some l → i ∈ l ↔ is_Some (linked_node g i).
Proof.
  intros (_ & Hperm & _)%linked_order_spec.
  by rewrite Hperm, elem_of_live_nodes.
Qed.

(** Along an edge the position in the topological order increases. *)
Lemma Edge_position g l j i p :
  linked_order g = Some l → Edge g j i → l !! p = Some i →
  ∃ q, q < p ∧ l !! q = Some j.
Proof.
  intros (Hfirst & _ & _)%linked_order_spec He Hp.
  eapply Hfirst; [done|]. by apply elem_of_InputNodes.
Qed.

Lemma tc_Edge_position g l j i p :
  linked_order g = Some l → tc (Edge g) j i → l !! p = Some i →
  ∃ q, q < p ∧ l !! q = Some j.
Proof.
  intros Htopo Htc. revert p.
  induction Htc as [j i He|j k i He Htc IH]; intros p Hp.
  - by eapply Edge_position.
  - destruct (IH p Hp) as (q & ? & Hq).
    destruct (Edge_position g l j k q Htopo He Hq) as (q' & ? & ?).
    exists q'. split; [lia|done].
Qed.

Lemma tc_Edge_live g j i : tc (Edge g) j i → is_Some (linked_node g i).
Proof.
  induction 1 as [j i He|]; [|done]. by apply Edge_live in He as [_ ?].
Qed.

Lemma linked_order_acyclic g i :
  is_Some (linked_order g) → ¬ tc (Edge g) i i.
Proof.
  intros [l Htopo] Htc.
  assert (i ∈ l) as Hin.
  { eapply linked_order_elem_of; [done|]. by eapply tc_Edge_live. }
  apply list_elem_of_lookup in Hin as [p Hp].
  destruct (tc_Edge_position g l i i p Htopo Htc Hp) as (q & Hlt & Hq).
  destruct (linked_order_spec g l Htopo) as (_ & _ & Hnd).
  pose proof (NoDup_lookup _ _ _ _ Hnd Hp Hq). lia.
Qed.

(** *** The nodes added since the last resolve come last *)

Lemma unlinked_no_inputs g i : length (linked g) ≤ i → InputNodes g i = [].
Proof.
  intros Hi. unfold InputNodes, edge_count.
  assert (linked_node g i = None) as ->.
  { unfold linked_node. by rewrite lookup_ge_None_2. }
  induction (NodeIndices g) as [|j l IH]; [done|]. by csimpl.
Qed.

Lemma unlinked_not_input g u i : length (linked g) ≤ u → u ∉ InputNodes g i.
Proof.
  intros Hu Hin. apply elem_of_InputNodes, Edge_live in Hin as [[n Hn] _].
  apply linked_node_Some in Hn as (_ & ? & _). lia.
Qed.

Lemma ready_unlinked_done g done u i :
  length (linked g) ≤ u → ready g (u :: done) i ↔ ready g done i.
Proof.
  intros Hu. unfold ready. rewrite !Forall_forall. split; intros H j Hj.
  - specialize (H j Hj). apply elem_of_cons in H as [->|H]; [|done].
    by apply unlinked_not_input in Hj.
  - right. by apply H.
Qed.

Lemma kahn_cons g fuel x pending done :
  kahn g (S fuel) (x :: pending) done
  = match list_find (ready g done) (x :: pending) with
    | None => None
    | Some (k, i) => kahn g fuel (delete k (x :: pending)) (i :: done)
    end.
Proof. done. Qed.

Lemma delete_app_l {A} (l1 l2 : list A) (k : nat) :
  k < length l1 → delete k (l1 ++ l2) = delete k l1 ++ l2.
Proof.
  revert k. induction l1 as [|x l1 IH]; intros k Hk; simpl in *; [lia|].
  destruct k as [|k]; [done|]. simpl. f_equal. apply IH. lia.
Qed.

Lemma kahn_all_ready g fuel ex done :
  (∀ x, x ∈ ex → InputNodes g x = []) → length ex ≤ fuel →
  kahn g fuel ex done = Some (reverse done ++ ex).
Proof.
  revert fuel done. induction ex as [|x ex IH]; intros fuel done Hex Hfuel.
  - rewrite app_nil_r. by destruct fuel.
  - destruct fuel as [|fuel]; [simpl in Hfuel; lia|]. rewrite kahn_cons.
    assert (list_find (ready g done) (x :: ex) = Some (0, x)) as ->.
    { apply list_find_Some. split_and!; [done| |intros; lia].
      unfold ready. rewrite Hex by left. constructor. }
    simpl. rewrite IH.
    + by rewrite reverse_cons, <- (assoc_L (++)).
    + intros y Hy. apply Hex. by right.
    + simpl in Hfuel. lia.
Qed.

Lemma kahn_app_ready g fuel pending ex done l :
  (∀ x, x ∈ ex → InputNodes g x = []) → length pending ≤ fuel →
  kahn g fuel pending done = Some l →
  kahn g (fuel + length ex) (pending ++ ex) done = Some (l ++ ex).
Proof.
  intros Hex. revert pending done.
  induction fuel as [|fuel IH]; intros pending done Hfuel H.
  - destruct pending; [|simpl in Hfuel; lia]. simpl in *.
    inversion H; subst l. by apply kahn_all_ready.
  - destruct pending as [|x pending].
    { simpl in H. inversion H; subst l. apply kahn_all_ready; [done|lia]. }
    rewrite kahn_cons in H.
    destruct (list_find _ _) as [[k i]|] eqn:Hfind; [|done].
    change (S fuel + length ex) with (S (fuel + length ex)).
    change ((x :: pending) ++ ex) with (x :: (pending ++ ex)).
    rewrite kahn_cons.
    change (x :: (pending ++ ex)) with ((x :: pending) ++ ex).
    rewrite (list_find_app_l _ _ _ _ _ Hfind).
    apply list_find_Some in Hfind as (Hk & _).
    pose proof (lookup_lt_Some _ _ _ Hk) as Hlt.
    rewrite delete_app_l by done. apply IH; [|done].
    rewrite length_delete by eauto. simpl in *. lia.
Qed.

Lemma kahn_stuck g fuel pending ex done :
  pending ≠ [] → Forall (λ x, ¬ ready g done x) pending →
  (∀ u, u ∈ ex → length (linked g) ≤ u) →
  kahn g fuel (pending ++ ex) done = None.
Proof.
  intros Hne. destruct pending as [|y pending]; [done|]. clear Hne.
  revert fuel done. induction ex as [|u ex IH]; intros fuel done Hstuck Hex.
  - rewrite app_nil_r. destruct fuel as [|fuel]; [done|]. rewrite kahn_cons.
    assert (list_find (ready g done) (y :: pending) = None) as ->
      by (by apply list_find_None).
    done.
  - destruct fuel as [|fuel]; [done|].
    change ((y :: pending) ++ u :: ex) with (y :: (pending ++ u :: ex)).
    rewrite kahn_cons.
    change (y :: (pending ++ u :: ex)) with ((y :: pending) ++ u :: ex).
    assert (length (linked g) ≤ u) as Hu by (apply Hex; left).
    rewrite list_find_app_r by (by apply list_find_None).
    assert (list_find (ready g done) (u :: ex) = Some (0, u)) as ->.
    { apply list_find_Some. split_and!; [done| |intros; lia].
      unfold ready. rewrite unlinked_no_inputs by done. constructor. }
    cbn [fmap option_fmap option_map prod_map fst snd id].
    change (0 + length (y :: pending)) with (length (y :: pending)).
    rewrite delete_middle. apply IH.
    + eapply Forall_impl; [exact Hstuck|]. intros x Hx.
      by rewrite ready_unlinked_done.
    + intros v Hv. apply Hex. by right.
Qed.

Lemma kahn_app_None g fuel pending ex done :
  (∀ u, u ∈ ex → length (linked g) ≤ u) → length pending ≤ fuel →
  kahn g fuel pending done = None →
  kahn g (fuel + length ex) (pending ++ ex) done = None.
Proof.
  intros Hex. revert pending done.
  induction fuel as [|fuel IH]; intros pending done Hfuel H.
  - destruct pending; [done|simpl in Hfuel; lia].
  - destruct pending as [|x pending]; [done|].
    rewrite kahn_cons in H.
    destruct (list_find _ _) as [[k i]|] eqn:Hfind.
    + change (S fuel + length ex) with (S (fuel + length ex)).
      change ((x :: pending) ++ ex) with (x :: (pending ++ ex)).
      rewrite kahn_cons.
      change (x :: (pending ++ ex)) with ((x :: pending) ++ ex).
      rewrite (list_find_app_l _ _ _ _ _ Hfind).
      apply list_find_Some in Hfind as (Hk & _).
      pose proof (lookup_lt_Some _ _ _ Hk) as Hlt.
      rewrite delete_app_l by done. apply IH; [|done].
      rewrite length_delete by eauto. simpl in *. lia.
    + apply kahn_stuck; [done| |done].
      by apply (list_find_None (ready g done)).
Qed.

(** topologicalOrder lists the linked nodes in their order, then the nodes
    added since the last resolve; it fails exactly when the linked nodes
    have no order. *)
Lemma topologicalOrder_linked g :
  topologicalOrder g = (λ lo, lo ++ unlinked_nodes g) <$> linked_order g.
Proof.
  unfold topologicalOrder, linked_order.
  rewrite all_nodes_split, length_app.
  assert (∀ u, u ∈ unlinked_nodes g → length (linked g) ≤ u) as Hex.
  { by intros u [_ ?]%elem_of_unlinked_nodes. }
  destruct (kahn g _ (live_nodes g) []) as [lo|] eqn:E; simpl.
  - apply kahn_app_ready; [|done..].
    intros x Hx. by apply unlinked_no_inputs, Hex.
  - by apply kahn_app_None.
Qed.

Lemma topologicalOrder_Some g l :
  topologicalOrder g = Some l ↔
  ∃ lo, linked_order g = Some lo ∧ l = lo ++ unlinked_nodes g.
Proof.
  rewrite topologicalOrder_linked, fmap_Some. naive_solver.
Qed.

Lemma topologicalOrder_is_Some g :
  is_Some (topologicalOrder g) ↔ is_Some (linked_order g).
Proof. rewrite topologicalOrder_linked. by rewrite fmap_is_Some. Qed.

Lemma resolved_unlinked_nodes g : resolved g → unlinked_nodes g = [].
Proof.
  unfold resolved, unlinked_nodes, linked. intros ->.
  by rewrite Nat.sub_0_r, firstn_all, Nat.sub_diag.
Qed.

Lemma resolved_topologicalOrder g :
  resolved g → topologicalOrder g = linked_order g.
Proof.
  intros Hr. rewrite topologicalOrder_linked, resolved_unlinked_nodes by done.
  destruct (linked_order g); simpl; [|done]. by rewrite app_nil_r.
Qed.

Lemma topologicalOrder_spec g l :
  topologicalOrder g = Some l →
  inputs_first g l ∧ l ≡ₚ all_nodes g ∧ NoDup l.
Proof.
  unfold topologicalOrder. intros H. apply kahn_spec in H as [H1 H2].
  - split_and!; [done|done|]. rewrite H2. apply NoDup_all_nodes.
  - intros p i Hp. done.
Qed.

Lemma topologicalOrder_elem_of g l i :
  topologicalOrder g = Some l → i ∈ l ↔ is_Some (GetNode g i).
Proof.
  intros (_ & Hperm & _)%topologicalOrder_spec.
  by rewrite Hperm, elem_of_all_nodes.
Qed.

(** A graph with a topological order has no cycle. *)
Lemma topologicalOrder_acyclic g i :
  is_Some (topologicalOrder g) → ¬ tc (Edge g) i i.
Proof. rewrite topologicalOrder_is_Some. apply linked_order_acyclic. Qed.
End GraphLemmas.

(** ** Breadth-first traversal *)

Lemma size_difference_fresh (U v : gset nat) (m : nat) :
  m ∈ U → m ∉ v → size (U ∖ v) = S (size (U ∖ ({[m]} ∪ v))).
Proof.
  intros HU Hv.
  assert (U ∖ v = {[m]} ∪ U ∖ ({[m]} ∪ v)) as ->.
  { apply set_eq. intros x. destruct (decide (x = m)); set_solver. }
  rewrite size_union by set_solver. rewrite size_singleton. lia.
Qed.

Section Bfs.
Context (neighbours : NodeIndex → list NodeIndex).
Implicit Types (q : list NodeIndex) (v V : gset NodeIndex).

Local Abbreviation R := (λ a b : nat, b ∈ neighbours a).

Lemma visit_all_cons m ns q v :
  visit_all (m :: ns) (q, v) =
  visit_all ns (if decide (m ∈ v) then (q, v) else (q ++ [m], {[m]} ∪ v)).
Proof. done. Qed.

Lemma visit_all_spec ns q v :
  ∃ new, (visit_all ns (q, v)).1 = q ++ new ∧
         (∀ x, x ∈ new → x ∈ ns ∧ x ∉ v) ∧
         (∀ x, x ∈ (visit_all ns (q, v)).2 ↔ x ∈ v ∨ x ∈ new) ∧
         (∀ x, x ∈ ns → x ∈ (visit_all ns (q, v)).2).
Proof.
  revert q v. induction ns as [|m ns IH]; intros q v.
  - exists []. simpl. rewrite app_nil_r. split_and!; [done|set_solver..].
  - rewrite visit_all_cons. destruct (decide (m ∈ v)) as [Hm|Hm].
    + destruct (IH q v) as (new & Hq & Hnew & Hv & Hns).
      exists new. split_and!; [done| |done|].
      * intros x Hx. destruct (Hnew x Hx). set_solver.
      * intros x [->|Hx]%elem_of_cons; [|by apply Hns]. apply Hv. by left.
    + destruct (IH (q ++ [m]) ({[m]} ∪ v)) as (new & Hq & Hnew & Hv & Hns).
      exists (m :: new). split_and!.
      * by rewrite Hq, <- (assoc_L (++)).
      * intros x [->|Hx]%elem_of_cons; [set_solver|].
        destruct (Hnew x Hx). set_solver.
      * intros x. rewrite Hv. set_solver.
      * intros x [->|Hx]%elem_of_cons; [|by apply Hns]. apply Hv. set_solver.
Qed.

Lemma visit_all_measure (U : gset NodeIndex) ns q v :
  (∀ x, x ∈ ns → x ∈ U) →
  length (visit_all ns (q, v)).1 + size (U ∖ (visit_all ns (q, v)).2)
  = length q + size (U ∖ v).
Proof.
  revert q v. induction ns as [|m ns IH]; intros q v HU; [done|].
  rewrite visit_all_cons. destruct (decide (m ∈ v)) as [Hm|Hm].
  - apply IH. intros x Hx. apply HU. by right.
  - rewrite IH by (intros x Hx; apply HU; by right).
    rewrite length_app. simpl.
    rewrite (size_difference_fresh U v m); [lia| |done]. apply HU. by left.
Qed.

(** What a traversal that returns has computed. *)
Lemma bfs_spec fuel q v V :
  bfs neighbours fuel q v = Normal V →
  v ⊆ V ∧
  (∀ n m, n ∈ q → R n m → m ∈ V) ∧
  (∀ x m, x ∈ V → x ∉ v → R x m → m ∈ V) ∧
  (∀ x, x ∈ V → x ∈ v ∨ ∃ n, n ∈ q ∧ tc R n x).
Proof.
  revert q v. induction fuel as [|fuel IH]; intros q v; destruct q as [|n q];
    simpl; try done.
  - intros [= <-]. split_and!; [done|set_solver..].
  - intros [= <-]. split_and!; [done|set_solver..].
  - destruct (visit_all_spec (neighbours n) q v) as (new & Hq & Hnew & Hv & Hns).
    intros HV. apply IH in HV as (Hsub & Hexp & Hclosed & Hsound).
    rewrite Hq in Hexp, Hsound.
    assert (∀ x, x ∈ v → x ∈ V) as HvV.
    { intros x Hx. apply Hsub, Hv. by left. }
    split_and!.
    + intros x. apply HvV.
    + intros n' m [->|Hn']%elem_of_cons Hm.
      * apply Hsub, Hns, Hm.
      * eapply Hexp; [|done]. apply elem_of_app. by left.
    + intros x m Hx Hxv Hm.
      destruct (decide (x ∈ (visit_all (neighbours n) (q, v)).2)) as [Hin|Hout].
      * apply Hv in Hin as [?|Hin]; [done|].
        eapply Hexp; [|done]. apply elem_of_app. by right.
      * by eapply Hclosed.
    + intros x Hx. apply Hsound in Hx as [Hx|(n' & Hn' & Htc)].
      * apply Hv in Hx as [?|Hx]; [by left|]. right. exists n.
        split; [by left|]. apply tc_once. by apply Hnew.
      * right. apply elem_of_app in Hn' as [Hn'|Hn'].
        -- exists n'. split; [by right|done].
        -- exists n. split; [by left|].
           eapply tc_l; [|done]. by apply Hnew.
Qed.

(** Enough fuel: one unit per queued node and per node not yet visited. *)
Lemma bfs_defined (U : gset NodeIndex) fuel q v :
  (∀ n m, R n m → m ∈ U) →
  length q + size (U ∖ v) ≤ fuel →
  is_Normal (bfs neighbours fuel q v).
Proof.
  intros HU. revert q v. induction fuel as [|fuel IH]; intros q v Hfuel;
    destruct q as [|n q]; simpl in *; try (by eexists); [lia|].
  apply IH.
  rewrite (visit_all_measure U); [lia|]. intros x Hx. by eapply HU.
Qed.
End Bfs.

(** ** Span extraction *)

Lemma StronglySorted_filter {A} (R : relation A) (P : A → Prop)
    `{!∀ x, Decision (P x)} (l : list A) :
  StronglySorted R l → StronglySorted R (filter P l).
Proof.
  induction 1 as [|x l Hl IH Hx]; [constructor|].
  rewrite filter_cons. destruct (decide (P x)); [|done].
  constructor; [done|]. rewrite Forall_forall in Hx |- *.
  intros y [_ Hy]%list_elem_of_filter. by apply Hx.
Qed.

Lemma elem_of_NodeSet_iter (s : gset NodeIndex) (x : NodeIndex) :
  x ∈ NodeSet_iter s ↔ x ∈ s.
Proof.
  unfold NodeSet_iter. by rewrite merge_sort_Permutation, elem_of_elements.
Qed.

Lemma NodeSet_iter_sorted (s : gset NodeIndex) :
  StronglySorted (≤) (NodeSet_iter s) ∧ NoDup (NodeSet_iter s).
Proof.
  unfold NodeSet_iter. split.
  - apply (StronglySorted_merge_sort _).
  - rewrite merge_sort_Permutation. apply NoDup_elements.
Qed.

Lemma Edge_in_range (g : Graph) (j i : NodeIndex) :
  Edge g j i →
  j ∈ (list_to_set (NodeIndices g) : gset nat) ∧
  i ∈ (list_to_set (NodeIndices g) : gset nat).
Proof.
  intros [[nj Hj] [ni Hi]]%Edge_live.
  apply linked_node_Some in Hj as (_ & ? & _).
  apply linked_node_Some in Hi as (_ & ? & _).
  rewrite !elem_of_list_to_set, !elem_of_NodeIndices. done.
Qed.

Lemma size_NodeIndices (g : Graph) :
  size (list_to_set (NodeIndices g) : gset nat) = length (linked g).
Proof.
  rewrite size_list_to_set by apply NoDup_seq. apply length_seq.
Qed.

Lemma forward_bfs (g : Graph) (start : string) (fuel : nat) (V : gset NodeIndex) :
  bfs (OutputNodes g) fuel (GetConsumerNodes g start)
      (list_to_set (GetConsumerNodes g start)) = Normal V →
  ∀ x, x ∈ V ↔ forward_reachable g start x.
Proof.
  intros (Hsub & Hexp & Hclosed & Hsound)%bfs_spec x. unfold forward_reachable.
  split.
  - intros [Hx|(c & Hc & Htc)]%Hsound.
    + exists x. split; [by apply elem_of_list_to_set in Hx|done].
    + exists c. split; [done|]. apply tc_rtc.
      eapply tc_congruence with (f := id); [|exact Htc].
      intros a b. apply elem_of_OutputNodes.
  - intros (c & Hc & Hrtc).
    eapply (rtc_ind_r (λ z, z ∈ V) c); [| |exact Hrtc].
    + apply Hsub. by apply elem_of_list_to_set.
    + intros y z _ He IH. destruct (decide (y ∈ (list_to_set (GetConsumerNodes g start) : gset nat)))
        as [Hy|Hy].
      * eapply (Hexp y); [by apply elem_of_list_to_set in Hy|].
        by apply elem_of_OutputNodes.
      * eapply (Hclosed y); [done|done|]. by apply elem_of_OutputNodes.
Qed.

Lemma backward_bfs (g : Graph) (end_node : NodeIndex) (fuel : nat)
    (V : gset NodeIndex) :
  bfs (InputNodes g) fuel [end_node] ∅ = Normal V →
  ∀ x, x ∈ V ↔ tc (λ a b, Edge g b a) end_node x.
Proof.
  intros (Hsub & Hexp & Hclosed & Hsound)%bfs_spec x. split.
  - intros [Hx|(c & Hc & Htc)]%Hsound; [set_solver|].
    apply list_elem_of_singleton in Hc as ->.
    eapply tc_congruence with (f := id); [|exact Htc].
    intros a b. apply elem_of_InputNodes.
  - intros Htc. eapply (tc_ind_r (λ z, z ∈ V) end_node); [| |exact Htc].
    + intros z He. eapply (Hexp end_node); [by left|]. by apply elem_of_InputNodes.
    + intros y z _ He IH.
      eapply (Hclosed y); [done|set_solver|]. by apply elem_of_InputNodes.
Qed.

Lemma tc_flip_Edge (g : Graph) (x y : NodeIndex) :
  tc (λ a b, Edge g b a) x y → tc (Edge g) y x.
Proof.
  induction 1 as [x y He|x y z He _ IH]; [by apply tc_once|].
  eapply tc_r; [exact IH|exact He].
Qed.

Lemma NodesBetweenEdges_defined (g : Graph) (start end_ : string)
    (end_node : NodeIndex) :
  GetProducerNode g end_ = Some end_node →
  ∃ fw bw,
    bfs (OutputNodes g) (bfs_fuel g (GetConsumerNodes g start))
        (GetConsumerNodes g start)
        (list_to_set (GetConsumerNodes g start)) = Normal fw ∧
    bfs (InputNodes g) (bfs_fuel g [end_node]) [end_node] ∅ = Normal bw ∧
    NodesBetweenEdges g start end_
    = Normal (filter (λ n, n ∈ bw) (NodeSet_iter fw)).
Proof.
  intros Hend. unfold NodesBetweenEdges.
  destruct (bfs_defined (OutputNodes g) (list_to_set (NodeIndices g))
              (bfs_fuel g (GetConsumerNodes g start)) (GetConsumerNodes g start)
              (list_to_set (GetConsumerNodes g start))) as [fw Hfw].
  { intros n m Hm%elem_of_OutputNodes. by apply Edge_in_range in Hm as [_ ?]. }
  { unfold bfs_fuel. rewrite <- size_NodeIndices.
    apply Nat.add_le_mono_l, subseteq_size. set_solver. }
  destruct (bfs_defined (InputNodes g) (list_to_set (NodeIndices g))
              (bfs_fuel g [end_node]) [end_node] ∅) as [bw Hbw].
  { intros n m Hm%elem_of_InputNodes. by apply Edge_in_range in Hm as [? _]. }
  { unfold bfs_fuel. rewrite <- size_NodeIndices.
    apply Nat.add_le_mono_l, subseteq_size. set_solver. }
  exists fw, bw. rewrite Hfw, Hend. cbn [mbind Outcome_bind deref].
  change (deref (Some end_node)) with (Normal end_node).
  cbn [mbind Outcome_bind]. rewrite Hbw. done.
Qed.

(** C5.  On a graph that has a topological order (an acyclic graph), span
    extraction returns, for every start reference and every end reference
    with a producer, exactly the nodes that are both reachable forward from
    the consumers of the start reference (those consumers included) and
    reachable backward from the producer of the end reference, that producer
    excluded; the result is listed by increasing node index without
    repetition.  On the chain A -> B -> C -> D with start = output of A and
    end = output of D it returns the nodes B and C. *)
Theorem NodesBetweenEdges_is_span :
  (∀ (g : Graph) (start end_ : string) (end_node : NodeIndex),
     is_Some (topologicalOrder g) →
     GetProducerNode g end_ = Some end_node →
     ∃ l, NodesBetweenEdges g start end_ = Normal l ∧
          (∀ x, x ∈ l ↔ span_spec g start end_node x) ∧
          StronglySorted (≤) l ∧ NoDup l) ∧
  NodesBetweenEdges chain_graph "a" "d" = Normal [1; 2] ∧
  (λ i, Name <$> GetNode chain_graph i) <$> [1; 2] = [Some "B"; Some "C"].
Proof.
  split; [|split; vm_compute; reflexivity].
  intros g start end_ end_node Hacyclic Hend.
  destruct (NodesBetweenEdges_defined g start end_ end_node Hend)
    as (fw & bw & Hfw & Hbw & ->).
  eexists. split; [done|]. split_and!.
  - intros x. rewrite list_elem_of_filter, elem_of_NodeSet_iter.
    rewrite (forward_bfs g start _ fw Hfw), (backward_bfs g end_node _ bw Hbw).
    unfold span_spec, backward_reachable. split.
    + intros [Htc Hfwd]. split_and!; [done|by apply tc_rtc|].
      intros ->. apply tc_flip_Edge in Htc.
      by apply (topologicalOrder_acyclic g end_node).
    + intros (Hfwd & Hrtc & Hne). split; [|done].
      apply rtc_tc in Hrtc as [?|?]; [congruence|done].
  - apply StronglySorted_filter, NodeSet_iter_sorted.
  - apply NoDup_filter, NodeSet_iter_sorted.
Qed.

(** Witness for C5: the chain graph, start "a", end "d". *)
Lemma NodesBetweenEdges_is_span_witness :
  ∃ l, NodesBetweenEdges chain_graph "a" "d" = Normal l ∧
       (∀ x, x ∈ l ↔ span_spec chain_graph "a" 3 x) ∧
       StronglySorted (≤) l ∧ NoDup l.
Proof.
  apply (proj1 NodesBetweenEdges_is_span chain_graph "a" "d" 3).
  - vm_compute. eexists. reflexivity.
  - vm_compute. reflexivity.
Defined.

(** ** Boundary detection *)

Lemma is_layer_start_opens (g : Graph) (i : NodeIndex) (n : Node) :
  GetNode g i = Some n → is_layer_start g i n = true ↔ opens_layer g i.
Proof.
  intros Hn. unfold is_layer_start, opens_layer. rewrite Hn.
  by rewrite bool_decide_eq_true.
Qed.

Lemma is_gelu_node_iff (g : Graph) (i : NodeIndex) (n : Node) :
  GetNode g i = Some n → is_gelu_node g i ↔ OpType n ∈ gelu_ops.
Proof. intros Hn. unfold is_gelu_node. by rewrite Hn. Qed.

Lemma scan_fold (g : Graph) (order : list NodeIndex)
    (s0 e0 s e : list string) :
  foldO (scan_step g) (s0, e0) order = Normal (s, e) →
  ∃ s' cs, s = s0 ++ s' ∧ e = e0 ++ omap id cs ∧
    Forall2 (first_output g) (filter (opens_layer g) order) s' ∧
    Forall2 (λ i c, find_layer_end g i = Normal c)
            (filter (is_gelu_node g) order) cs.
Proof.
  revert s0 e0. induction order as [|i order IH]; intros s0 e0 H; simpl in H.
  - inversion H; subst. exists [], []. rewrite !app_nil_r.
    split_and!; [done|done|constructor|constructor].
  - inv_bind H. destruct a as [s1 e1]. unfold scan_step in Ha.
    inv_bind Ha. rename a into n. apply deref_Normal in Ha0.
    inv_bind Ha. rename a into s1'. inv_bind Ha. rename a into e1'.
    inversion Ha; subst s1' e1'. clear Ha. cbn [fst snd] in *.
    apply IH in H as (s' & cs & -> & -> & Hs & He).
    rewrite !filter_cons.
    assert (∃ s2, s1 = s0 ++ s2 ∧
              Forall2 (first_output g)
                (if decide (opens_layer g i) then i :: filter (opens_layer g) order
                 else filter (opens_layer g) order) (s2 ++ s')) as (s2 & -> & Hs2).
    { destruct (is_layer_start g i n) eqn:Hst.
      - apply is_layer_start_opens in Hst; [|done].
        inv_bind Ha1. apply deref_Normal in Ha. inversion Ha1; subst.
        exists [a]. split; [done|]. rewrite decide_True by done.
        constructor; [by exists n|done].
      - inversion Ha1; subst. exists []. rewrite app_nil_r. split; [done|].
        rewrite decide_False; [done|].
        intros Ho. apply (is_layer_start_opens g i n Ha0) in Ho. congruence. }
    assert (∃ c2, e1 = e0 ++ omap id c2 ∧
              Forall2 (λ i c, find_layer_end g i = Normal c)
                (if decide (is_gelu_node g i)
                 then i :: filter (is_gelu_node g) order
                 else filter (is_gelu_node g) order) (c2 ++ cs)) as (c2 & -> & Hc2).
    { pose proof (is_gelu_node_iff g i n Ha0) as Hiff.
      destruct (decide (OpType n ∈ gelu_ops)) as [Hg|Hg].
      - inv_bind Ha2. inversion Ha2; subst. exists [a].
        rewrite decide_True by (by apply Hiff). split.
        + by destruct a.
        + by constructor.
      - inversion Ha2; subst. exists []. rewrite app_nil_r.
        rewrite decide_False by (by rewrite Hiff). done. }
    exists (s2 ++ s'), (c2 ++ cs). rewrite omap_app, !(assoc_L (++)).
    done.
Qed.

Lemma foldO_defined {A B} (f : A → B → Outcome A) (l : list B) (a : A) :
  (∀ a b, b ∈ l → is_Normal (f a b)) → is_Normal (foldO f a l).
Proof.
  revert a. induction l as [|b l IH]; intros a Hf; simpl; [by eexists|].
  destruct (Hf a b) as [a' ->]; [by left|]. simpl. apply IH.
  intros ???. apply Hf. by right.
Qed.

Lemma length_linked_order (g : Graph) (l : list NodeIndex) :
  linked_order g = Some l → length l ≤ length (linked g).
Proof.
  intros (_ & Hperm & _)%linked_order_spec. rewrite Hperm.
  unfold live_nodes, NodeIndices.
  etrans; [apply length_filter|]. by rewrite length_seq.
Qed.

Lemma OutputNodesBegin_Edge (g : Graph) (i k : NodeIndex) :
  OutputNodesBegin g i = Some k → Edge g i k.
Proof.
  unfold OutputNodesBegin. intros H. apply elem_of_OutputNodes.
  by apply head_Some_elem_of.
Qed.

(** The first consumer of a node sits later in the topological order. *)
Lemma OutputNodesBegin_position (g : Graph) (l : list NodeIndex)
    (i k p : NodeIndex) :
  linked_order g = Some l → l !! p = Some i →
  OutputNodesBegin g i = Some k →
  ∃ p', p < p' ∧ l !! p' = Some k.
Proof.
  intros Htopo Hp He%OutputNodesBegin_Edge.
  destruct (Edge_live g i k He) as [_ Hk].
  apply (linked_order_elem_of g l k Htopo) in Hk.
  apply list_elem_of_lookup in Hk as [p' Hp'].
  destruct (Edge_position g l i k p' Htopo He Hp') as (q & Hlt & Hq).
  destruct (linked_order_spec g l Htopo) as (_ & _ & Hnd).
  rewrite (NoDup_lookup _ _ _ _ Hnd Hp Hq). eauto.
Qed.

Lemma position_live (g : Graph) (l : list NodeIndex) (i p : NodeIndex) :
  linked_order g = Some l → l !! p = Some i →
  ∃ n, linked_node g i = Some n ∧ GetNode g i = Some n.
Proof.
  intros Htopo Hp.
  assert (i ∈ l) as Hi by (apply list_elem_of_lookup; eauto).
  apply (linked_order_elem_of g l i Htopo) in Hi as [n Hn].
  exists n. split; [done|]. by apply linked_node_Some in Hn as (? & _).
Qed.

(** The walk returns on a graph that has a topological order. *)
Lemma walk_while_defined (g : Graph) (l : list NodeIndex)
    (cond : string → bool) (fuel : nat) (i p : NodeIndex) :
  linked_order g = Some l → l !! p = Some i → length l ≤ fuel + p →
  ∃ r q, walk_while g cond fuel i = Normal r ∧ l !! q = Some r.
Proof.
  intros Htopo. revert i p. induction fuel as [|fuel IH]; intros i p Hp Hlen.
  - apply lookup_lt_Some in Hp. lia.
  - destruct (position_live g l i p Htopo Hp) as (n & _ & Hn).
    simpl. rewrite Hn. simpl.
    destruct (OutputNodesBegin g i) as [k|] eqn:Hk; [|by eauto].
    destruct (cond (OpType n)); [|by eauto].
    destruct (OutputNodesBegin_position g l i k p Htopo Hp Hk) as (p' & ? & Hp').
    apply (IH k p'); [done|lia].
Qed.

Lemma walk_while_follows (g : Graph) (l : list NodeIndex)
    (stop : string → Prop) (cond : string → bool) (fuel : nat)
    (i r p : NodeIndex) :
  (∀ op, cond op = false ↔ stop op) →
  linked_order g = Some l → l !! p = Some i → length l ≤ fuel + p →
  follows g stop i r →
  walk_while g cond fuel i = Normal r.
Proof.
  intros Hcond Htopo Hp Hlen Hf. revert fuel p Hp Hlen.
  induction Hf as [i n Hn Hstop|i n k r Hn Hstop Hk Hf IH]; intros fuel p Hp Hlen.
  - destruct fuel as [|fuel]; [apply lookup_lt_Some in Hp; lia|].
    simpl. rewrite Hn. simpl. apply Hcond in Hstop. rewrite Hstop.
    by destruct (OutputNodesBegin g i).
  - destruct fuel as [|fuel]; [apply lookup_lt_Some in Hp; lia|].
    simpl. rewrite Hn. simpl. rewrite Hk.
    destruct (cond (OpType n)) eqn:Hc; [|by apply Hcond in Hc].
    destruct (OutputNodesBegin_position g l i k p Htopo Hp Hk) as (p' & ? & Hp').
    apply (IH fuel p'); [done|lia].
Qed.

Lemma follows_stop (g : Graph) (stop : string → Prop) (i r : NodeIndex) :
  follows g stop i r → ∃ n, GetNode g r = Some n ∧ stop (OpType n).
Proof. induction 1; eauto. Qed.

Lemma follows_position (g : Graph) (l : list NodeIndex)
    (stop : string → Prop) (i r p : NodeIndex) :
  linked_order g = Some l → l !! p = Some i → follows g stop i r →
  ∃ q, l !! q = Some r.
Proof.
  intros Htopo Hp Hf. revert p Hp.
  induction Hf as [|i n k r Hn Hstop Hk Hf IH]; intros p Hp; [eauto|].
  destruct (OutputNodesBegin_position g l i k p Htopo Hp Hk) as (p' & ? & Hp').
  eauto.
Qed.

Lemma not_dropout_false (op : string) : not_dropout op = false ↔ is_dropout op.
Proof.
  unfold not_dropout, is_dropout. rewrite bool_decide_eq_false.
  split; [apply dec_stable|auto].
Qed.

Lemma not_layernorm_false (op : string) :
  not_layernorm op = false ↔ is_layernorm op.
Proof.
  unfold not_layernorm, is_layernorm. rewrite bool_decide_eq_false.
  split; [apply dec_stable|auto].
Qed.

(** The end edge contributed by a GELU-family node whose chain of first
    consumers reaches a dropout-family node and then a LayerNormalization
    node. *)
Lemma find_layer_end_chain (g : Graph) (i first d e : NodeIndex) (o : string) :
  is_Some (topologicalOrder g) →
  OutputNodesBegin g i = Some first →
  follows g is_dropout first d →
  follows g is_layernorm d e →
  first_output g e o →
  find_layer_end g i = Normal (Some o).
Proof.
  intros [l Htopo]%topologicalOrder_is_Some Hfirst Hd He (n & Hn & Ho).
  pose proof (length_linked_order g l Htopo) as Hlen.
  destruct (Edge_live g i first (OutputNodesBegin_Edge g i first Hfirst))
    as [_ Hlive].
  apply (linked_order_elem_of g l first Htopo) in Hlive.
  apply list_elem_of_lookup in Hlive as [p Hp].
  destruct (follows_position g l _ first d p Htopo Hp Hd) as [q Hq].
  unfold find_layer_end. rewrite Hfirst. simpl.
  rewrite (walk_while_follows g l is_dropout not_dropout _ first d p
             not_dropout_false Htopo Hp) by (done || lia).
  simpl.
  rewrite (walk_while_follows g l is_layernorm not_layernorm _ d e q
             not_layernorm_false Htopo Hq) by (done || lia).
  simpl. rewrite Hn. simpl.
  destruct (follows_stop g _ d e He) as (n' & Hn' & Hstop).
  rewrite Hn in Hn'. inversion Hn'; subst n'.
  rewrite decide_True by done. rewrite Ho. done.
Qed.

Lemma find_layer_end_defined (g : Graph) (l : list NodeIndex) (i : NodeIndex) :
  linked_order g = Some l →
  (∀ j n, linked_node g j = Some n → OutputDefs n ≠ []) →
  OutputNodes g i ≠ [] →
  is_Normal (find_layer_end g i).
Proof.
  intros Htopo Houts Hne. pose proof (length_linked_order g l Htopo) as Hlen.
  unfold find_layer_end, OutputNodesBegin at 1.
  destruct (OutputNodes g i) as [|first rest] eqn:Hout; [done|]. simpl.
  assert (OutputNodesBegin g i = Some first) as Hfirst
    by (unfold OutputNodesBegin; by rewrite Hout).
  destruct (Edge_live g i first (OutputNodesBegin_Edge g i first Hfirst))
    as [_ Hlive].
  apply (linked_order_elem_of g l first Htopo) in Hlive.
  apply list_elem_of_lookup in Hlive as [p Hp].
  destruct (walk_while_defined g l not_dropout (length (linked g)) first p
              Htopo Hp) as (d & q & -> & Hq); [lia|]. simpl.
  destruct (walk_while_defined g l not_layernorm (length (linked g)) d q
              Htopo Hq) as (e & q' & -> & Hq'); [lia|]. simpl.
  destruct (position_live g l e q' Htopo Hq') as (n & Hln & ->). simpl.
  destruct (decide _); [|by eexists].
  destruct (OutputDefs n) as [|o os] eqn:Ho; [by apply Houts in Hln|].
  simpl. by eexists.
Qed.

(** Boundary detection returns on a graph that has a topological order, in
    which every linked node has an output and every GELU-family node a
    consumer. *)
Lemma scan_layers_defined (g : Graph) :
  is_Some (topologicalOrder g) →
  (∀ j n, linked_node g j = Some n → OutputDefs n ≠ []) →
  (∀ j n, GetNode g j = Some n → OpType n ∈ gelu_ops →
          OutputNodes g j ≠ []) →
  is_Normal (scan_layers g).
Proof.
  intros [l Htopo] Houts Hgelu. unfold scan_layers, GetNodesInTopologicalOrder.
  rewrite Htopo. simpl. apply foldO_defined. intros [s e] i Hi.
  apply (topologicalOrder_elem_of g l i Htopo) in Hi as [n Hn].
  apply topologicalOrder_Some in Htopo as (lo & Hlo & _).
  unfold scan_step. rewrite Hn. simpl.
  assert (is_Normal (if is_layer_start g i n
                     then o ← deref (OutputDefs n !! 0); Normal (s ++ [o])
                     else Normal s)) as [s' ->].
  { destruct (is_layer_start g i n) eqn:Hst; [|by eexists].
    apply bool_decide_eq_true in Hst as [_ Hfour].
    unfold GetOutputEdgesCount in Hfour.
    destruct (OutputNodes g i) as [|k ks] eqn:Hout; [done|].
    assert (Edge g i k) as He by (apply elem_of_OutputNodes; rewrite Hout; left).
    apply Edge_live in He as [[n' Hn'] _].
    pose proof (linked_node_GetNode g i n' Hn') as Hn''.
    rewrite Hn in Hn''. inversion Hn''; subst n'.
    destruct (OutputDefs n) as [|o os] eqn:E; [by apply Houts in Hn'|].
    by eexists. }
  simpl. destruct (decide (OpType n ∈ gelu_ops)) as [Hg|Hg]; [|by eexists].
  destruct (find_layer_end_defined g lo i Hlo Houts) as [c ->];
    [by eapply Hgelu|]. simpl. by eexists.
Qed.

Lemma first_output_functional (g : Graph) (i : NodeIndex) (o o' : string) :
  first_output g i o → first_output g i o' → o = o'.
Proof. intros (n & Hn & Ho) (n' & Hn' & Ho'). congruence. Qed.

Lemma walk_while_walks (g : Graph) (stop : string → Prop) (cond : string → bool)
    (fuel : nat) (i r : NodeIndex) :
  (∀ op, cond op = false ↔ stop op) →
  walk_while g cond fuel i = Normal r → walks g stop i r.
Proof.
  intros Hcond. revert i. induction fuel as [|fuel IH]; intros i H; simpl in H;
    [done|].
  inv_bind in H as n Hn. apply deref_Normal in Hn.
  destruct (OutputNodesBegin g i) as [k|] eqn:Hk.
  - destruct (cond (OpType n)) eqn:Hc.
    + eapply walks_next; [done| |done|by apply IH].
      intros Hs. apply Hcond in Hs. congruence.
    + inversion H; subst r. eapply walks_here; [done|]. left. by apply Hcond.
  - inversion H; subst r. eapply walks_here; [done|by right].
Qed.

(** What a GELU-family node has contributed when the search for the end of
    its layer returned. *)
Lemma find_layer_end_layer_end (g : Graph) (i : NodeIndex) (c : option string) :
  find_layer_end g i = Normal c → layer_end g i c.
Proof.
  unfold find_layer_end. intros H.
  inv_bind in H as first Hfirst. apply deref_Normal in Hfirst.
  inv_bind in H as d Hd. inv_bind in H as e He.
  inv_bind in H as n Hn. apply deref_Normal in Hn.
  apply (walk_while_walks g is_dropout) in Hd; [|apply not_dropout_false].
  apply (walk_while_walks g is_layernorm) in He; [|apply not_layernorm_false].
  exists first, d, e, n. split_and!; try done.
  destruct (decide (OpType n = "LayerNormalization")) as [Hln|Hln].
  - inv_bind in H as o Ho. apply deref_Normal in Ho. inversion H; subst c.
    left. eauto.
  - inversion H; subst c. by right.
Qed.

Lemma no_throw_walk_while (g : Graph) (cond : string → bool) (fuel : nat)
    (i : NodeIndex) :
  no_throw (walk_while g cond fuel i).
Proof.
  revert i. induction fuel as [|fuel IH]; intros i; simpl.
  - apply no_throw_Undefined.
  - apply no_throw_bind; [apply no_throw_deref|]. intros n _.
    destruct (OutputNodesBegin g i); [|apply no_throw_Normal].
    destruct (cond (OpType n)); [apply IH|apply no_throw_Normal].
Qed.

Lemma no_throw_find_layer_end (g : Graph) (i : NodeIndex) :
  no_throw (find_layer_end g i).
Proof.
  unfold find_layer_end.
  apply no_throw_bind; [apply no_throw_deref|]. intros first _.
  apply no_throw_bind; [apply no_throw_walk_while|]. intros d _.
  apply no_throw_bind; [apply no_throw_walk_while|]. intros e _.
  apply no_throw_bind; [apply no_throw_deref|]. intros n _.
  destruct (decide _); [|apply no_throw_Normal].
  apply no_throw_bind; [apply no_throw_deref|]. intros o _.
  apply no_throw_Normal.
Qed.

Lemma no_throw_scan_layers (g : Graph) : no_throw (scan_layers g).
Proof.
  unfold scan_layers.
  apply no_throw_bind; [apply no_throw_deref|]. intros order _.
  apply no_throw_foldO. intros acc i. unfold scan_step.
  apply no_throw_bind; [apply no_throw_deref|]. intros n _.
  apply no_throw_bind.
  { destruct (is_layer_start g i n); [|apply no_throw_Normal].
    apply no_throw_bind; [apply no_throw_deref|]. intros o _.
    apply no_throw_Normal. }
  intros s _. apply no_throw_bind; [|intros e' _; apply no_throw_Normal].
  destruct (decide _); [|apply no_throw_Normal].
  apply no_throw_bind; [apply no_throw_find_layer_end|]. intros c _.
  apply no_throw_Normal.
Qed.

Lemma walks_functional (g : Graph) (stop : string → Prop) (i r r' : NodeIndex) :
  walks g stop i r → walks g stop i r' → r = r'.
Proof.
  intros H. revert r'.
  induction H as [i n Hn Hs|i n k r Hn Hs Hk Hw IH]; intros r' H';
    inversion H' as [i' n' Hn' Hs'|i' n' k' r'' Hn' Hs' Hk' Hw']; subst.
  - done.
  - rewrite Hn in Hn'. inversion Hn'; subst n'.
    destruct Hs as [Hs|Hnone]; [done|congruence].
  - rewrite Hn in Hn'. inversion Hn'; subst n'.
    destruct Hs' as [Hs'|Hnone]; [done|congruence].
  - rewrite Hk in Hk'. inversion Hk'; subst k'. by apply IH.
Qed.

Lemma layer_end_functional (g : Graph) (i : NodeIndex) (c c' : option string) :
  layer_end g i c → layer_end g i c' → c = c'.
Proof.
  intros (f & d & e & n & Hf & Hd & He & Hn & Hc)
         (f' & d' & e' & n' & Hf' & Hd' & He' & Hn' & Hc').
  rewrite Hf in Hf'. inversion Hf'; subst f'.
  rewrite <- (walks_functional g _ f d d' Hd Hd') in He'.
  rewrite <- (walks_functional g _ d e e' He He') in Hn'.
  rewrite Hn in Hn'. inversion Hn'; subst n'.
  destruct Hc as [(Hln & o & Ho & ->)|(Hln & ->)],
           Hc' as [(Hln' & o' & Ho' & ->)|(Hln' & ->)]; try done.
  congruence.
Qed.

(** C6 (as amended).  Boundary detection returns on a graph in which every
    linked node has an output and every GELU-family node a consumer; it
    scans every node of the graph once, in topological order.  The
    layer-start references are the first outputs of exactly the nodes that
    are LayerNormalization or dropout-family nodes with exactly 4 outgoing
    edges, in scan order.  The layer-end references are contributed by the
    GELU-family nodes, in scan order, each contributing at most one: the
    chain of first consumers is followed from the node's first consumer to
    the first dropout-family node or node without consumer, and from there
    to the first LayerNormalization node or node without consumer; the node
    reached contributes its first output if it is a LayerNormalization
    node, and nothing otherwise; this determines the contribution.  In
    particular a GELU-family node whose chain leads to a first
    dropout-family node and from there to a first LayerNormalization node
    contributes the first output of that LayerNormalization node. *)
Theorem IdentifyTransformerLayerEdges_boundaries
    (g : Graph) (order : list NodeIndex) :
  topologicalOrder g = Some order →
  ((∀ j n, linked_node g j = Some n → OutputDefs n ≠ []) →
   (∀ j n, GetNode g j = Some n → OpType n ∈ gelu_ops →
           OutputNodes g j ≠ []) →
   is_Normal (scan_layers g)) ∧
  (∀ starts ends,
     scan_layers g = Normal (starts, ends) →
     order ≡ₚ all_nodes g ∧
     Forall2 (first_output g) (filter (opens_layer g) order) starts ∧
     (∀ s, s ∈ starts ↔
           ∃ i, i ∈ order ∧ opens_layer g i ∧ first_output g i s) ∧
     (∃ cs, Forall2 (layer_end g) (filter (is_gelu_node g) order) cs ∧
            ends = omap id cs)) ∧
  (∀ i c c', layer_end g i c → layer_end g i c' → c = c') ∧
  (∀ i first d e o,
     OutputNodesBegin g i = Some first →
     follows g is_dropout first d →
     follows g is_layernorm d e →
     first_output g e o →
     find_layer_end g i = Normal (Some o)).
Proof.
  intros Htopo. split; [|split; [|split]].
  { intros Houts Hgelu. by apply scan_layers_defined. }
  3: intros i first d e o; by apply find_layer_end_chain.
  2: apply layer_end_functional.
  intros starts ends Hscan.
  unfold scan_layers, GetNodesInTopologicalOrder in Hscan.
  rewrite Htopo in Hscan. simpl in Hscan.
  apply scan_fold in Hscan as (s' & cs & -> & -> & Hs & He). simpl.
  split_and!.
  - by apply topologicalOrder_spec in Htopo as (_ & ? & _).
  - done.
  - intros s. split.
    + intros Hin. apply list_elem_of_lookup in Hin as [k Hk].
      destruct (Forall2_lookup_r _ _ _ _ _ Hs Hk) as (i & Hi & Hfo).
      apply list_elem_of_lookup_2 in Hi.
      apply list_elem_of_filter in Hi as [? ?]. eauto.
    + intros (i & Hi & Hopen & Hfo).
      assert (i ∈ filter (opens_layer g) order) as Hin
        by (by apply list_elem_of_filter).
      apply list_elem_of_lookup in Hin as [k Hk].
      destruct (Forall2_lookup_l _ _ _ _ _ Hs Hk) as (s2 & Hs2 & Hfo2).
      rewrite (first_output_functional g i s s2 Hfo Hfo2).
      by eapply list_elem_of_lookup_2.
  - exists cs. split; [|done].
    eapply Forall2_impl; [exact He|]. apply find_layer_end_layer_end.
Qed.

(** Witness for C6 (as amended): the layer template graph. *)
Lemma IdentifyTransformerLayerEdges_boundaries_witness :
  topologicalOrder layer_graph = Some [0; 1; 2; 3; 4; 5] ∧
  scan_layers layer_graph = Normal (["b"], ["e"]) ∧
  Forall2 (first_output layer_graph)
          (filter (opens_layer layer_graph) [0; 1; 2; 3; 4; 5]) ["b"].
Proof.
  assert (topologicalOrder layer_graph = Some [0; 1; 2; 3; 4; 5]) as Htopo
    by (vm_compute; reflexivity).
  assert (scan_layers layer_graph = Normal (["b"], ["e"])) as Hscan
    by (vm_compute; reflexivity).
  split; [exact Htopo|]. split; [exact Hscan|].
  exact (proj1 (proj2 (proj1 (proj2 (IdentifyTransformerLayerEdges_boundaries
                                       layer_graph _ Htopo))
                              _ _ Hscan))).
Defined.

(** Counterexample to C6 as stated.  In the chain Gelu, Dropout, Relu the
    GELU node's chain of first consumers reaches a dropout-family node, but
    it ends at the Relu node: boundary detection returns and the GELU node
    has contributed no layer-end reference.  In the chain Gelu, Add,
    LayerNormalization no node is a dropout-family node, and the GELU node
    contributes the output of the LayerNormalization node all the same. *)
Lemma IdentifyTransformerLayerEdges_counterexample :
  (is_gelu_node gelu_relu_graph 0 ∧
   OutputNodesBegin gelu_relu_graph 0 = Some 1 ∧
   follows gelu_relu_graph is_dropout 1 1 ∧
   scan_layers gelu_relu_graph = Normal ([], [])) ∧
  (Forall (λ on, ¬ holds_dropout on) (nodes_ no_dropout_graph) ∧
   scan_layers no_dropout_graph = Normal ([], ["e"])).
Proof.
  split; split_and!.
  - unfold is_gelu_node. simpl. unfold gelu_ops. set_solver.
  - vm_compute. reflexivity.
  - eapply follows_here; [vm_compute; reflexivity|].
    unfold is_dropout, dropout_ops. set_solver.
  - vm_compute. reflexivity.
  - unfold no_dropout_graph, graph_of, holds_dropout. simpl.
    repeat constructor; simpl; unfold dropout_ops; set_solver.
  - vm_compute. reflexivity.
Qed.

(** C7.  When boundary detection has found [starts] and [ends], the pass
    returns a failure status if and only if their numbers differ; and when
    it fails the graph (and the modified flag) are those it was given: no
    node has been inserted. *)
Theorem ApplyImpl_fails_iff_unbalanced
    (g : Graph) (modified : bool) (starts ends : list string) :
  scan_layers g = Normal (starts, ends) →
  (length starts ≠ length ends →
   ApplyImpl g modified = Normal (g, modified, FAIL unbalanced_message)) ∧
  (∀ g' m' msg, ApplyImpl g modified = Normal (g', m', FAIL msg) →
                length starts ≠ length ends ∧ g' = g ∧ m' = modified).
Proof.
  intros Hscan. unfold ApplyImpl, IdentifyTransformerLayerEdges.
  rewrite Hscan. simpl. split.
  - intros Hne. by rewrite decide_False.
  - intros g' m' msg. destruct (decide _) as [Heq|Hne]; simpl.
    + intros H. inv_bind H. done.
    + intros [= <- <- <-]. done.
Qed.

(** Witness for C7: the boundary mismatch scenario. *)
Lemma ApplyImpl_fails_iff_unbalanced_witness :
  scan_layers unbalanced_graph = Normal (["b"], []) ∧
  ApplyImpl unbalanced_graph false
  = Normal (unbalanced_graph, false, FAIL unbalanced_message).
Proof.
  assert (scan_layers unbalanced_graph = Normal (["b"], [])) as Hscan
    by (vm_compute; reflexivity).
  split; [exact Hscan|].
  apply (proj1 (ApplyImpl_fails_iff_unbalanced unbalanced_graph false _ _ Hscan)).
  simpl. lia.
Defined.

(** C10.  Whenever the pass returns OK it has set the modified flag,
    whatever the flag was; this includes the run in which boundary detection
    finds no start and no end, where the graph is returned as it was. *)
Theorem ApplyImpl_sets_modified (g : Graph) (modified : bool) :
  (∀ g' m', ApplyImpl g modified = Normal (g', m', OK) → m' = true) ∧
  (scan_layers g = Normal ([], []) →
   ApplyImpl g modified = Normal (g, true, OK)).
Proof.
  unfold ApplyImpl, IdentifyTransformerLayerEdges. split.
  - intros g' m' H. inv_bind H. destruct a as [[|msg] edges].
    + inv_bind H. by inversion H.
    + by inversion H.
  - intros ->. done.
Qed.

(** Witness for C10: the chain graph has no layer boundary. *)
Lemma ApplyImpl_sets_modified_witness :
  ApplyImpl chain_graph false = Normal (chain_graph, true, OK).
Proof.
  apply (proj2 (ApplyImpl_sets_modified chain_graph false)).
  vm_compute. reflexivity.
Defined.

(** ** Node duplication *)

Lemma nodes_appended_refl (g : Graph) : nodes_appended g g [].
Proof.
  unfold nodes_appended. simpl. rewrite app_nil_r, Nat.add_0_r. done.
Qed.

Lemma nodes_appended_trans (g g1 g2 : Graph) (n1 n2 : list Node) :
  nodes_appended g g1 n1 → nodes_appended g1 g2 n2 →
  nodes_appended g g2 (n1 ++ n2).
Proof.
  intros (H1 & H2 & H3 & H4 & H5 & H6) (K1 & K2 & K3 & K4 & K5 & K6).
  unfold nodes_appended.
  rewrite K1, H1, K2, H2, K3, H3, K4, H4, K5, H5, fmap_app, length_app.
  split_and!; [by rewrite (assoc_L (++))|lia|done|done|done|by etrans].
Qed.

Lemma nodes_appended_GetNode (g g' : Graph) (new : list Node)
    (i : NodeIndex) (n : Node) :
  nodes_appended g g' new → GetNode g i = Some n → GetNode g' i = Some n.
Proof.
  intros (H1 & _) Hn. unfold GetNode in *. rewrite H1.
  destruct (nodes_ g !! i) as [on|] eqn:E; [|done].
  by rewrite (lookup_app_l_Some _ _ _ _ E).
Qed.

Lemma nodes_appended_linked (g g' : Graph) (new : list Node) :
  nodes_appended g g' new → linked g' = linked g.
Proof.
  intros (H1 & H2 & _). unfold linked. rewrite H1, H2, length_app, length_fmap.
  replace (length (nodes_ g) + length new - (unlinked_ g + length new))
    with (length (nodes_ g) - unlinked_ g) by lia.
  apply take_app_le. lia.
Qed.

Lemma GetOrCreateNodeArg_appended (g : Graph) (name : string) (ty : option string) :
  nodes_appended g (GetOrCreateNodeArg g name ty).1 [].
Proof.
  unfold GetOrCreateNodeArg. destruct (decide _) as [Hin|Hout]; simpl.
  - apply nodes_appended_refl.
  - unfold nodes_appended. simpl. rewrite app_nil_r, Nat.add_0_r.
    split_and!; try done. apply insert_subseteq.
    by apply not_elem_of_dom.
Qed.

Lemma recomputed_input_spec (initializers : gset string)
    (nodes : list NodeIndex) (st : Graph * list (option string)) (input : string) :
  ∃ a, (recomputed_input initializers nodes st input).2 = st.2 ++ [Some a] ∧
       nodes_appended st.1 (recomputed_input initializers nodes st input).1 [].
Proof.
  unfold recomputed_input. destruct (keeps_original _ _ _ _); simpl.
  - eexists. split; [done|]. apply nodes_appended_refl.
  - eexists. split; [done|]. apply GetOrCreateNodeArg_appended.
Qed.

Lemma recomputed_output_spec (st : Graph * list (option string)) (output : string) :
  ∃ a, (recomputed_output st output).2 = st.2 ++ [Some a] ∧
       nodes_appended st.1 (recomputed_output st output).1 [].
Proof.
  unfold recomputed_output. simpl. eexists. split; [done|].
  apply GetOrCreateNodeArg_appended.
Qed.

(** A loop that pushes one non-null argument per element. *)
Lemma push_args_fold (step : Graph * list (option string) → string
                             → Graph * list (option string))
    (l : list string) (st : Graph * list (option string)) :
  (∀ st x, ∃ a, (step st x).2 = st.2 ++ [Some a] ∧
                nodes_appended st.1 (step st x).1 []) →
  ∃ names, (foldl step st l).2 = st.2 ++ (Some <$> names) ∧
           nodes_appended st.1 (foldl step st l).1 [].
Proof.
  intros Hstep. revert st. induction l as [|x l IH]; intros st; simpl.
  - exists []. simpl. rewrite app_nil_r. split; [done|apply nodes_appended_refl].
  - destruct (Hstep st x) as (a & Ha & Happ).
    destruct (IH (step st x)) as (names & Hn & Happ').
    exists (a :: names). rewrite Hn, Ha, <- (assoc_L (++)). split; [done|].
    apply (nodes_appended_trans _ _ _ [] [] Happ Happ').
Qed.

Lemma mapM_id_Some {A} (l : list A) : mapM id (Some <$> l) = Some l.
Proof. apply mapM_Some. induction l; constructor; auto. Qed.

Lemma AddNode_SetPriority (g : Graph) (name op description domain : string)
    (ins outs : list string) (attrs : gmap string Z) (p : Z) :
  ('(g', r) ← AddNode g name op description (Some <$> ins) (Some <$> outs)
                       attrs domain;
   Normal (SetPriority g' r p))
  = Normal (mkGraph
              (nodes_ g ++ [Some (mkNode name op description ins outs attrs
                                         domain p)])
              (S (unlinked_ g)) (node_args_ g) (initializers_ g)
              (graph_inputs_ g) (graph_outputs_ g)).
Proof.
  unfold AddNode. rewrite !mapM_id_Some. simpl.
  unfold SetPriority, update_node. simpl. f_equal. f_equal.
  rewrite alter_app_r_alt by done. rewrite Nat.sub_diag. done.
Qed.

Lemma appended_one (g g1 : Graph) (r : Node) :
  nodes_appended g g1 [] →
  nodes_appended g (mkGraph (nodes_ g1 ++ [Some r]) (S (unlinked_ g1))
                            (node_args_ g1) (initializers_ g1)
                            (graph_inputs_ g1) (graph_outputs_ g1)) [r].
Proof.
  intros (H1 & H2 & H3 & H4 & H5 & H6). unfold nodes_appended. simpl in *.
  rewrite app_nil_r in H1. rewrite H1, H2. split_and!; try done; lia.
Qed.

Lemma insert_recompute_node_spec (initializers : gset string)
    (nodes : list NodeIndex) (g g' : Graph) (i : NodeIndex) :
  insert_recompute_node initializers nodes g i = Normal g' →
  ∃ n r, GetNode g i = Some n ∧ nodes_appended g g' [r] ∧ is_recompute_of n r.
Proof.
  unfold insert_recompute_node. intros H. inv_bind H. rename a into n.
  apply deref_Normal in Ha. exists n.
  destruct (decide (OpType n = "TrainableDropout" ∨ OpType n = "Dropout")).
  - inv_bind H. rename a into input. inv_bind H. rename a into mask.
    inv_bind H. rename a into ratio. inv_bind H. rename a into output.
    destruct (recomputed_input_spec initializers nodes (g, []) input)
      as (a & Hin & Happ). simpl in Hin, Happ.
    rewrite Hin in H.
    change ([Some a] ++ [Some mask; Some ratio])
      with (Some <$> [a; mask; ratio]) in H.
    change [Some (recomputed_arg
                    (recomputed_input initializers nodes (g, []) input).1
                    output).2]
      with (Some <$> [(recomputed_arg
                    (recomputed_input initializers nodes (g, []) input).1
                    output).2]) in H.
    rewrite AddNode_SetPriority in H. inversion H; subst g'. clear H.
    eexists. split; [done|]. split.
    + apply appended_one.
      apply (nodes_appended_trans _ _ _ [] [] Happ).
      apply GetOrCreateNodeArg_appended.
    + by unfold is_recompute_of.
  - destruct (push_args_fold (recomputed_input initializers nodes)
                (InputDefs n) (g, []) (recomputed_input_spec _ _))
      as (ins & Hins & Happ).
    set (st := foldl (recomputed_input initializers nodes) (g, []) (InputDefs n))
      in *.
    destruct (push_args_fold recomputed_output (OutputDefs n) (st.1, [])
                recomputed_output_spec) as (outs & Houts & Happ').
    simpl in Hins, Houts, Happ, Happ'. rewrite Hins, Houts in H.
    rewrite AddNode_SetPriority in H. inversion H; subst g'. clear H.
    eexists. split; [done|]. split.
    + apply appended_one. apply (nodes_appended_trans _ _ _ [] [] Happ Happ').
    + by unfold is_recompute_of.
Qed.

Lemma insert_recompute_node_defined (initializers : gset string)
    (nodes : list NodeIndex) (g : Graph) (i : NodeIndex) :
  recomputable g i → is_Normal (insert_recompute_node initializers nodes g i).
Proof.
  intros (n & Hn & Harity). unfold arity_ok in Harity.
  unfold insert_recompute_node. rewrite Hn. simpl.
  destruct (decide (OpType n = "TrainableDropout" ∨ OpType n = "Dropout"))
    as [Hd|_].
  - destruct (Harity Hd) as [Hi Ho].
    destruct (InputDefs n) as [|i0 [|i1 ?]]; simpl in Hi; try lia.
    destruct (OutputDefs n) as [|o0 [|o1 ?]]; simpl in Ho; try lia.
    simpl.
    destruct (recomputed_input_spec initializers nodes (g, []) i0)
      as (a & Hin & _). simpl in Hin. rewrite Hin.
    change ([Some a] ++ [Some o1; Some i1]) with (Some <$> [a; o1; i1]).
    match goal with |- context [AddNode ?g ?a ?b ?c _ [Some ?o] ?d ?e] =>
      change [Some o] with (Some <$> [o]) end.
    rewrite AddNode_SetPriority. by eexists.
  - destruct (push_args_fold (recomputed_input initializers nodes)
                (InputDefs n) (g, []) (recomputed_input_spec _ _))
      as (ins & Hins & _).
    set (st := foldl (recomputed_input initializers nodes) (g, []) (InputDefs n))
      in *.
    destruct (push_args_fold recomputed_output (OutputDefs n) (st.1, [])
                recomputed_output_spec) as (outs & Houts & _).
    simpl in Hins, Houts. rewrite Hins, Houts.
    rewrite AddNode_SetPriority. by eexists.
Qed.

Lemma insert_recompute_node_recomputable (initializers : gset string)
    (nodes : list NodeIndex) (g g' : Graph) (i : NodeIndex) :
  insert_recompute_node initializers nodes g i = Normal g' → recomputable g i.
Proof.
  unfold insert_recompute_node. intros H. inv_bind H. rename a into n.
  apply deref_Normal in Ha. exists n. split; [done|]. intros Hd.
  rewrite decide_True in H by done.
  inv_bind H. inv_bind H. inv_bind H. clear H.
  apply deref_Normal in Ha1, Ha2.
  apply lookup_lt_Some in Ha1, Ha2. lia.
Qed.

Lemma InsertRecomputeNodes_fold (initializers : gset string)
    (span nodes : list NodeIndex) (g g' : Graph) :
  foldO (insert_recompute_node initializers span) g nodes = Normal g' →
  ∃ new, nodes_appended g g' new ∧
         Forall2 (λ i r, ∃ n, GetNode g' i = Some n ∧ is_recompute_of n r)
                 nodes new.
Proof.
  revert g. induction nodes as [|i nodes IH]; intros g H; simpl in H.
  - inversion H; subst. exists []. split; [apply nodes_appended_refl|constructor].
  - inv_bind H. rename a into g1.
    apply insert_recompute_node_spec in Ha as (n & r & Hn & Happ & Hrec).
    apply IH in H as (new & Happ' & Hall).
    exists (r :: new). split.
    + apply (nodes_appended_trans _ _ _ [r] new Happ Happ').
    + constructor; [|done]. exists n. split; [|done].
      eapply nodes_appended_GetNode; [exact Happ'|].
      eapply nodes_appended_GetNode; [exact Happ|done].
Qed.

Lemma recomputable_appended (g g' : Graph) (new : list Node) (i : NodeIndex) :
  nodes_appended g g' new → recomputable g i → recomputable g' i.
Proof.
  intros Happ (n & Hn & Harity). exists n. split; [|done].
  by eapply nodes_appended_GetNode.
Qed.

Lemma InsertRecomputeNodes_fold_defined (initializers : gset string)
    (span nodes : list NodeIndex) (g : Graph) :
  (∀ i, i ∈ nodes → recomputable g i) →
  is_Normal (foldO (insert_recompute_node initializers span) g nodes).
Proof.
  revert g. induction nodes as [|i nodes IH]; intros g Hall; simpl.
  - by eexists.
  - destruct (insert_recompute_node_defined initializers span g i) as [g1 Hg1].
    { apply Hall. by left. }
    rewrite Hg1. simpl. apply IH. intros j Hj.
    apply insert_recompute_node_spec in Hg1 as (n & r & _ & Happ & _).
    eapply recomputable_appended; [exact Happ|]. apply Hall. by right.
Qed.

(** C9.  InsertRecomputeNodes only adds: when every node of the span can be
    duplicated it returns, and what it returns is the graph it was given
    with one new node per span node appended (the duplicate of that node)
    and possibly new node arguments.  Every node present before is present
    afterwards at the same index with the same name, operator type,
    description, inputs, outputs, attributes, domain and priority; no node
    argument, initializer, graph input, graph output or edge is changed. *)
Theorem InsertRecomputeNodes_additive (g : Graph) (nodes : list NodeIndex) :
  ((∀ i, i ∈ nodes → recomputable g i) →
   is_Normal (InsertRecomputeNodes g nodes)) ∧
  (∀ g', InsertRecomputeNodes g nodes = Normal g' →
     ∃ new,
       nodes_ g' = nodes_ g ++ (Some <$> new) ∧
       length new = length nodes ∧
       Forall2 (λ i r, ∃ n, GetNode g' i = Some n ∧ is_recompute_of n r)
               nodes new ∧
       (∀ i n, GetNode g i = Some n → GetNode g' i = Some n) ∧
       node_args_ g ⊆ node_args_ g' ∧
       initializers_ g' = initializers_ g ∧
       graph_inputs_ g' = graph_inputs_ g ∧
       graph_outputs_ g' = graph_outputs_ g ∧
       linked g' = linked g).
Proof.
  unfold InsertRecomputeNodes. split.
  - apply InsertRecomputeNodes_fold_defined.
  - intros g' H. apply InsertRecomputeNodes_fold in H as (new & Happ & Hall).
    exists new. pose proof Happ as (H1 & H2 & H3 & H4 & H5 & H6).
    split_and!; try done.
    + symmetry. by eapply Forall2_length.
    + intros i n. by eapply nodes_appended_GetNode.
    + by eapply nodes_appended_linked.
Qed.

(** Witness for C9: the span [1; 2; 3] (Add, Gelu, Dropout) of the layer
    template graph. *)
Lemma InsertRecomputeNodes_additive_witness :
  is_Normal (InsertRecomputeNodes layer_graph [1; 2; 3]).
Proof.
  apply (proj1 (InsertRecomputeNodes_additive layer_graph [1; 2; 3])).
  intros i Hi. unfold recomputable.
  apply elem_of_cons in Hi as [->|Hi]; [eexists; split; [vm_compute; reflexivity|]|].
  { intros [H|H]; vm_compute in H; discriminate. }
  apply elem_of_cons in Hi as [->|Hi]; [eexists; split; [vm_compute; reflexivity|]|].
  { intros [H|H]; vm_compute in H; discriminate. }
  apply list_elem_of_singleton in Hi as ->.
  eexists; split; [vm_compute; reflexivity|]. intros _. simpl. lia.
Defined.

(** ** Applying the pass twice *)

Lemma linked_eq_kahn (g g' : Graph) (fuel : nat) (pending done : list NodeIndex) :
  linked g' = linked g → kahn g' fuel pending done = kahn g fuel pending done.
Proof.
  intros H. revert pending done.
  induction fuel as [|fuel IH]; intros pending done.
  { by destruct pending. }
  destruct pending as [|x p]; [done|].
  cbn [kahn].
  assert (list_find (ready g' done) (x :: p) = list_find (ready g done) (x :: p))
    as ->.
  { unfold ready_dec, ready, InputNodes, edge_count, NodeIndices, linked_node,
      GetProducerNode. by rewrite H. }
  destruct (list_find _ _) as [[k i]|]; [apply IH|done].
Qed.

(** Every edge query is answered from the linked slots alone. *)
Lemma linked_eq_queries (g g' : Graph) :
  linked g' = linked g →
  (∀ name, GetProducerNode g' name = GetProducerNode g name) ∧
  (∀ name, GetConsumerNodes g' name = GetConsumerNodes g name) ∧
  (∀ j, OutputNodes g' j = OutputNodes g j) ∧
  (∀ i, InputNodes g' i = InputNodes g i) ∧
  linked_order g' = linked_order g.
Proof.
  intros H. split_and!.
  - intros. unfold GetProducerNode. by rewrite H.
  - intros. unfold GetConsumerNodes, NodeIndices, linked_node. by rewrite H.
  - intros. unfold OutputNodes, edge_count, NodeIndices, linked_node,
      GetProducerNode. by rewrite H.
  - intros. unfold InputNodes, edge_count, NodeIndices, linked_node,
      GetProducerNode. by rewrite H.
  - unfold linked_order. rewrite (linked_eq_kahn g g') by done.
    unfold live_nodes, NodeIndices, linked_node. by rewrite H.
Qed.

Lemma bfs_ext (f f' : NodeIndex → list NodeIndex) (fuel : nat)
    (q : list NodeIndex) (v : gset NodeIndex) :
  (∀ n, f' n = f n) → bfs f' fuel q v = bfs f fuel q v.
Proof.
  intros H. revert q v. induction fuel as [|fuel IH]; intros q v;
    destruct q as [|n q]; simpl; try done.
  rewrite H. apply IH.
Qed.


Lemma nodes_appended_same_view (g g' : Graph) (new : list Node) :
  nodes_appended g g' new → same_view g g'.
Proof.
  intros Happ. split_and!.
  - by eapply nodes_appended_linked.
  - by destruct Happ as (_ & _ & ? & _).
  - intros i n. by eapply nodes_appended_GetNode.
Qed.

Lemma same_view_trans (g g1 g2 : Graph) :
  same_view g g1 → same_view g1 g2 → same_view g g2.
Proof.
  intros (H1 & H2 & H3) (K1 & K2 & K3). split_and!; [congruence..|auto].
Qed.

Lemma same_view_OutputNodesBegin (g g' : Graph) (i : NodeIndex) :
  same_view g g' → OutputNodesBegin g' i = OutputNodesBegin g i.
Proof.
  intros (Hl & _). unfold OutputNodesBegin.
  by rewrite (proj1 (proj2 (proj2 (linked_eq_queries g g' Hl)))).
Qed.

Lemma same_view_walk_while (g g' : Graph) (cond : string → bool) (fuel : nat)
    (i r : NodeIndex) :
  same_view g g' →
  walk_while g cond fuel i = Normal r → walk_while g' cond fuel i = Normal r.
Proof.
  intros Hv. revert i. induction fuel as [|fuel IH]; intros i; simpl; [done|].
  intros H. inv_bind in H as n Hnode. apply deref_Normal in Hnode.
  pose proof Hv as (Hl & Hi & Hn). rewrite (Hn _ _ Hnode). simpl.
  rewrite (same_view_OutputNodesBegin g g') by done.
  destruct (OutputNodesBegin g i); [|done].
  destruct (cond (OpType n)); [by apply IH|done].
Qed.

Lemma same_view_find_layer_end (g g' : Graph) (i : NodeIndex)
    (c : option string) :
  same_view g g' →
  find_layer_end g i = Normal c → find_layer_end g' i = Normal c.
Proof.
  intros Hv H. unfold find_layer_end in *.
  rewrite (same_view_OutputNodesBegin g g') by done.
  pose proof Hv as (Hl & Hi & Hn). rewrite Hl.
  inv_bind in H as first Hfirst. rewrite Hfirst. simpl.
  inv_bind in H as d Hd. rewrite (same_view_walk_while g g' _ _ _ _ Hv Hd). simpl.
  inv_bind in H as e He. rewrite (same_view_walk_while g g' _ _ _ _ Hv He). simpl.
  inv_bind in H as n Hnode. apply deref_Normal in Hnode.
  rewrite (Hn _ _ Hnode). simpl. done.
Qed.

Lemma same_view_scan_step (g g' : Graph) (acc acc' : list string * list string)
    (i : NodeIndex) :
  same_view g g' →
  scan_step g acc i = Normal acc' → scan_step g' acc i = Normal acc'.
Proof.
  intros Hv H. unfold scan_step in *.
  inv_bind in H as n Hnode. apply deref_Normal in Hnode.
  pose proof Hv as (Hl & Hi & Hn). rewrite (Hn _ _ Hnode). simpl.
  assert (is_layer_start g' i n = is_layer_start g i n) as ->.
  { unfold is_layer_start, GetOutputEdgesCount.
    by rewrite (proj1 (proj2 (proj2 (linked_eq_queries g g' Hl)))). }
  inv_bind in H as s Hs. rewrite Hs. simpl. inv_bind in H as e He.
  destruct (decide (OpType n ∈ gelu_ops)); [|by rewrite He].
  inv_bind in He as c Hc. rewrite (same_view_find_layer_end g g' _ _ Hv Hc).
  inversion He; subst e. done.
Qed.

Lemma foldO_mono {A B} (f f' : A → B → Outcome A) (l : list B) (a r : A) :
  (∀ a b a', f a b = Normal a' → f' a b = Normal a') →
  foldO f a l = Normal r → foldO f' a l = Normal r.
Proof.
  intros Hf. revert a. induction l as [|b l IH]; intros a; simpl; [done|].
  intros H. inv_bind in H as a1 Ha1. rewrite (Hf _ _ _ Ha1). simpl. by apply IH.
Qed.

(** A node added since the last resolve has no consumer: the scan leaves
    the lists as they are, unless the node is a GELU-family node, whose
    first consumer is then read past the end of an empty list. *)
Lemma unlinked_OutputNodes (g : Graph) (i : NodeIndex) :
  length (linked g) ≤ i → OutputNodes g i = [].
Proof.
  intros Hi. destruct (OutputNodes g i) as [|k ks] eqn:E; [done|].
  assert (Edge g i k) as He by (apply elem_of_OutputNodes; rewrite E; left).
  apply Edge_live in He as [[n Hn] _].
  apply linked_node_Some in Hn as (_ & ? & _). lia.
Qed.

Lemma scan_step_unlinked (g : Graph) (acc : list string * list string)
    (i : NodeIndex) (n : Node) :
  GetNode g i = Some n → length (linked g) ≤ i →
  scan_step g acc i
  = if decide (OpType n ∈ gelu_ops) then Undefined else Normal acc.
Proof.
  intros Hn Hi. unfold scan_step. rewrite Hn. simpl.
  assert (is_layer_start g i n = false) as ->.
  { unfold is_layer_start, GetOutputEdgesCount.
    rewrite unlinked_OutputNodes by done. apply bool_decide_eq_false.
    intros [_ ?]. done. }
  simpl. destruct (decide (OpType n ∈ gelu_ops)); [|by destruct acc].
  unfold find_layer_end, OutputNodesBegin.
  by rewrite unlinked_OutputNodes by done.
Qed.

Lemma foldO_Undefined {A B} (f : A → B → Outcome A) (l : list B) (a : A)
    (b0 : B) :
  (∀ a b, no_throw (f a b)) → b0 ∈ l → (∀ a, f a b0 = Undefined) →
  foldO f a l = Undefined.
Proof.
  intros Hf Hin Hb0. revert a. induction Hin as [b0 l|b0 b l Hin IH]; intros a.
  - simpl. by rewrite Hb0.
  - simpl. destruct (f a b) as [a'|msg|] eqn:E; simpl; [by apply IH| |done].
    by destruct (Hf a b msg).
Qed.

Lemma nodes_appended_unlinked_nodes (g g' : Graph) (new : list Node) :
  nodes_appended g g' new →
  unlinked_nodes g' = unlinked_nodes g ++ seq (length (nodes_ g)) (length new).
Proof.
  intros Happ. pose proof (nodes_appended_linked g g' new Happ) as Hl.
  destruct Happ as (Hn & _). unfold unlinked_nodes.
  pose proof (length_linked g) as Hle.
  rewrite Hl, Hn, length_app, length_fmap.
  replace (length (nodes_ g) + length new - length (linked g))
    with ((length (nodes_ g) - length (linked g)) + length new) by lia.
  rewrite seq_app, filter_app.
  replace (length (linked g) + (length (nodes_ g) - length (linked g)))
    with (length (nodes_ g)) by lia.
  f_equal.
  - apply filter_ext_elem. intros i Hi. apply elem_of_seq in Hi.
    unfold GetNode. rewrite Hn, lookup_app_l by lia. done.
  - assert (∀ k (ns : list (option Node)) (l : list Node),
              length ns = k →
              filter (λ i, is_Some (mjoin ((ns ++ (Some <$> l)) !! i)))
                     (seq k (length l)) = seq k (length l)) as Hall.
    { intros k ns l. revert k ns.
      induction l as [|x l IH]; intros k ns Hk; [done|]. simpl.
      rewrite filter_cons_True.
      - f_equal. specialize (IH (S k) (ns ++ [Some x])).
        rewrite <- (assoc_L (++)) in IH. apply IH.
        rewrite length_app. simpl. lia.
      - rewrite lookup_app_r by lia. rewrite Hk, Nat.sub_diag. by eexists. }
    unfold GetNode. rewrite Hn. by apply Hall.
Qed.

(** The order of a graph to which nodes have been appended: the order it
    had, then the new nodes. *)
Lemma nodes_appended_topologicalOrder (g g' : Graph) (new : list Node) :
  nodes_appended g g' new →
  topologicalOrder g'
  = (λ l, l ++ seq (length (nodes_ g)) (length new)) <$> topologicalOrder g.
Proof.
  intros Happ. rewrite !topologicalOrder_linked.
  rewrite (nodes_appended_unlinked_nodes g g' new Happ).
  rewrite (proj2 (proj2 (proj2 (proj2
             (linked_eq_queries g g' (nodes_appended_linked g g' new Happ)))))).
  destruct (linked_order g); simpl; [|done]. by rewrite (assoc_L (++)).
Qed.

Lemma nodes_appended_new (g g' : Graph) (new : list Node) (i : NodeIndex) :
  nodes_appended g g' new → length (nodes_ g) ≤ i →
  GetNode g' i = new !! (i - length (nodes_ g)) ∧
  inserted_nodes g g' = Some <$> new.
Proof.
  intros (Hn & _) Hi. unfold GetNode, inserted_nodes. rewrite Hn. split.
  - rewrite lookup_app_r by done. rewrite list_lookup_fmap.
    by destruct (new !! _).
  - by rewrite drop_app_length.
Qed.

Lemma same_view_NodesBetweenEdges (g g' : Graph) (start end_ : string) :
  same_view g g' →
  NodesBetweenEdges g' start end_ = NodesBetweenEdges g start end_.
Proof.
  intros (Hl & _). destruct (linked_eq_queries g g' Hl) as (Hp & Hc & Ho & Hi & _).
  unfold NodesBetweenEdges, bfs_fuel. rewrite Hc, Hp, Hl.
  rewrite (bfs_ext (OutputNodes g) (OutputNodes g')) by done.
  destruct (bfs (OutputNodes g) _ _ _); cbn [mbind Outcome_bind]; try done.
  destruct (GetProducerNode g end_); cbn [deref mbind Outcome_bind]; [|done].
  by rewrite (bfs_ext (InputNodes g) (InputNodes g')) by done.
Qed.

Lemma forward_reachable_live (g : Graph) (start : string) (x : NodeIndex) :
  forward_reachable g start x → is_Some (linked_node g x).
Proof.
  intros (c & Hc & Hrtc). apply rtc_inv_r in Hrtc as [<-|(y & _ & He)].
  - unfold GetConsumerNodes in Hc. apply list_elem_of_filter in Hc as [Hc _].
    destruct (linked_node g c); [by eexists|done].
  - by apply Edge_live in He as [_ ?].
Qed.

Lemma NodesBetweenEdges_live (g : Graph) (start end_ : string)
    (l : list NodeIndex) (i : NodeIndex) :
  NodesBetweenEdges g start end_ = Normal l → i ∈ l →
  ∃ n, GetNode g i = Some n.
Proof.
  unfold NodesBetweenEdges. intros H Hi.
  inv_bind in H as fw Hfw. inv_bind in H as en Hen. inv_bind in H as bw Hbw.
  inversion H; subst l. clear H.
  apply list_elem_of_filter in Hi as [_ Hi]. apply elem_of_NodeSet_iter in Hi.
  apply (forward_bfs g start _ _ Hfw) in Hi.
  apply forward_reachable_live in Hi as [n Hn].
  exists n. by apply linked_node_Some in Hn as (? & _).
Qed.

(** Each node of a span that was duplicated had the arity the pass reads. *)
Lemma InsertRecomputeNodes_arity (initializers : gset string)
    (span nodes : list NodeIndex) (g g' : Graph) (i : NodeIndex) (n : Node) :
  foldO (insert_recompute_node initializers span) g nodes = Normal g' →
  i ∈ nodes → GetNode g i = Some n → arity_ok n.
Proof.
  revert g. induction nodes as [|j nodes IH]; intros g H Hi Hn; simpl in H.
  - by apply elem_of_nil in Hi.
  - inv_bind in H as g1 Hg1. apply elem_of_cons in Hi as [->|Hi].
    + apply insert_recompute_node_recomputable in Hg1 as (n' & Hn' & Har).
      rewrite Hn in Hn'. by inversion Hn'; subst n'.
    + apply insert_recompute_node_spec in Hg1 as (? & r & _ & Happ & _).
      eapply (IH g1); [done|done|]. by eapply nodes_appended_GetNode.
Qed.

(** One layer, replayed on a graph with the same view. *)
Lemma recompute_layer_replay (g h h' h1 : Graph) (se : string * string) :
  same_view g h → same_view g h' →
  recompute_layer h se = Normal h1 →
  ∃ h1' k, recompute_layer h' se = Normal h1' ∧
           same_view g h1 ∧ same_view g h1' ∧
           length (nodes_ h1) = length (nodes_ h) + k ∧
           length (nodes_ h1') = length (nodes_ h') + k.
Proof.
  intros Hv Hv' H. unfold recompute_layer in *. inv_bind in H as nodes Ha.
  rewrite (same_view_NodesBetweenEdges g h) in Ha by done.
  rewrite (same_view_NodesBetweenEdges g h') by done. rewrite Ha. simpl.
  destruct (InsertRecomputeNodes_fold_defined (initializers_ h') nodes nodes h')
    as [h1' Hh1'].
  { intros i Hi.
    destruct (NodesBetweenEdges_live g _ _ _ i Ha Hi) as [n Hn].
    exists n. split; [by apply Hv'|].
    unfold InsertRecomputeNodes in H.
    eapply InsertRecomputeNodes_arity; [exact H|done|by apply Hv]. }
  exists h1', (length nodes). split; [done|].
  unfold InsertRecomputeNodes in H.
  apply InsertRecomputeNodes_fold in H as (new & Happ & Hall).
  apply InsertRecomputeNodes_fold in Hh1' as (new' & Happ' & Hall').
  apply Forall2_length in Hall, Hall'.
  split_and!.
  - eapply same_view_trans; [exact Hv|]. by eapply nodes_appended_same_view.
  - eapply same_view_trans; [exact Hv'|]. by eapply nodes_appended_same_view.
  - destruct Happ as (-> & _). rewrite length_app, length_fmap. lia.
  - destruct Happ' as (-> & _). rewrite length_app, length_fmap. lia.
Qed.

Lemma recompute_layers_replay (g : Graph) (pairs : list (string * string))
    (h h' h1 : Graph) :
  same_view g h → same_view g h' →
  foldO recompute_layer h pairs = Normal h1 →
  ∃ h1' k, foldO recompute_layer h' pairs = Normal h1' ∧
           same_view g h1 ∧
           length (nodes_ h1) = length (nodes_ h) + k ∧
           length (nodes_ h1') = length (nodes_ h') + k.
Proof.
  revert h h'. induction pairs as [|se pairs IH]; intros h h' Hv Hv' H;
    simpl in H.
  - inversion H; subst h1. exists h', 0. simpl. rewrite !Nat.add_0_r. done.
  - inv_bind in H as h2 Ha.
    destruct (recompute_layer_replay g h h' h2 se Hv Hv' Ha)
      as (h2' & k & Hr & Hv2 & Hv2' & Hk & Hk').
    destruct (IH h2 h2' Hv2 Hv2' H) as (h1' & k' & Hr' & Hv1 & Hk1 & Hk1').
    exists h1', (k + k'). simpl. rewrite Hr. simpl.
    split_and!; [done|done|lia|lia].
Qed.

Lemma same_view_refl (g : Graph) : same_view g g.
Proof. by split_and!. Qed.

Lemma recompute_layers_appended (pairs : list (string * string))
    (h h1 : Graph) :
  foldO recompute_layer h pairs = Normal h1 → ∃ new, nodes_appended h h1 new.
Proof.
  revert h. induction pairs as [|se pairs IH]; intros h H; simpl in H.
  - inversion H; subst h1. exists []. apply nodes_appended_refl.
  - inv_bind in H as h2 Ha. unfold recompute_layer in Ha.
    inv_bind in Ha as nodes Hnodes. unfold InsertRecomputeNodes in Ha.
    apply InsertRecomputeNodes_fold in Ha as (new & Happ & _).
    destruct (IH h2 H) as (new' & Happ').
    exists (new ++ new'). by eapply nodes_appended_trans.
Qed.

(** The scan of a graph to which nodes have been appended. *)
Lemma scan_layers_appended (g g' : Graph) (new : list Node)
    (r : list string * list string) :
  nodes_appended g g' new → scan_layers g = Normal r →
  (Exists (λ n, OpType n ∈ gelu_ops) new → scan_layers g' = Undefined) ∧
  (Forall (λ n, OpType n ∉ gelu_ops) new → scan_layers g' = Normal r).
Proof.
  intros Happ H. pose proof (nodes_appended_same_view g g' new Happ) as Hv.
  pose proof (nodes_appended_linked g g' new Happ) as Hl.
  pose proof (length_linked g) as Hle.
  unfold scan_layers, GetNodesInTopologicalOrder in *.
  rewrite (nodes_appended_topologicalOrder g g' new Happ).
  inv_bind in H as order Horder. apply deref_Normal in Horder.
  rewrite Horder. cbn [fmap option_fmap option_map deref mbind Outcome_bind].
  assert (foldO (scan_step g') ([], []) order = Normal r) as Hold.
  { eapply foldO_mono; [|exact H]. intros ???. by apply same_view_scan_step. }
  assert (∀ i, i ∈ seq (length (nodes_ g)) (length new) →
               ∃ n, new !! (i - length (nodes_ g)) = Some n ∧
                    GetNode g' i = Some n ∧ length (linked g') ≤ i) as Hnew.
  { intros i Hi. apply elem_of_seq in Hi.
    destruct (lookup_lt_is_Some_2 new (i - length (nodes_ g))) as [n Hn];
      [lia|].
    exists n. split; [done|]. split; [|rewrite Hl; lia].
    by rewrite (proj1 (nodes_appended_new g g' new i Happ (proj1 Hi))). }
  split.
  - intros (n & Hn & Hop)%Exists_exists.
    apply list_elem_of_lookup in Hn as [k Hk].
    apply (foldO_Undefined _ _ _ (length (nodes_ g) + k)).
    + intros acc i. unfold scan_step.
      apply no_throw_bind; [apply no_throw_deref|]. intros n' _.
      apply no_throw_bind.
      { destruct (is_layer_start g' i n'); [|apply no_throw_Normal].
        apply no_throw_bind; [apply no_throw_deref|]. intros o _.
        apply no_throw_Normal. }
      intros s _. apply no_throw_bind; [|intros e' _; apply no_throw_Normal].
      destruct (decide _); [|apply no_throw_Normal].
      apply no_throw_bind; [apply no_throw_find_layer_end|]. intros c _.
      apply no_throw_Normal.
    + apply elem_of_app. right. apply elem_of_seq.
      apply lookup_lt_Some in Hk. lia.
    + intros acc. destruct (Hnew (length (nodes_ g) + k)) as (n' & Hn' & Hg & Hu).
      { apply elem_of_seq. apply lookup_lt_Some in Hk. lia. }
      replace (length (nodes_ g) + k - length (nodes_ g)) with k in Hn' by lia.
      rewrite Hk in Hn'. inversion Hn'; subst n'.
      rewrite (scan_step_unlinked g' acc _ n Hg Hu). by rewrite decide_True.
  - intros Hall. rewrite foldO_app, Hold. cbn [mbind Outcome_bind].
    assert (∀ l, (∀ i, i ∈ l → i ∈ seq (length (nodes_ g)) (length new)) →
                 foldO (scan_step g') r l = Normal r) as Hrest.
    { induction l as [|i l IH]; intros Hin; [done|]. simpl.
      destruct (Hnew i) as (n & Hn & Hg & Hu); [apply Hin; left|].
      rewrite (scan_step_unlinked g' r i n Hg Hu).
      rewrite decide_False.
      - simpl. apply IH. intros j Hj. apply Hin. by right.
      - rewrite Forall_forall in Hall. apply Hall.
        by eapply list_elem_of_lookup_2. }
    by apply Hrest.
Qed.

(** C4 (as amended).  The pass does not look for nodes it has already
    duplicated.  When a first application returns OK, a second application
    to the graph it returned scans the duplicates as well; they have no
    consumer.  When one of them is a GELU-family node, boundary detection
    reads its first consumer past the end of an empty list and the second
    application has no defined result.  When none is, boundary detection
    finds the same start and end references, and the second application
    extracts the same spans and inserts exactly as many nodes as the first
    one did. *)
Theorem ApplyImpl_twice_scans_duplicates
    (g g1 : Graph) (modified m1 : bool) :
  ApplyImpl g modified = Normal (g1, m1, OK) →
  (Exists holds_gelu (inserted_nodes g g1) →
   ∀ m, ApplyImpl g1 m = Undefined) ∧
  (Forall (λ on, ¬ holds_gelu on) (inserted_nodes g g1) →
   scan_layers g1 = scan_layers g ∧
   ∃ g2 k, ApplyImpl g1 m1 = Normal (g2, true, OK) ∧
           length (nodes_ g1) = length (nodes_ g) + k ∧
           length (nodes_ g2) = length (nodes_ g1) + k).
Proof.
  intros H. unfold ApplyImpl in H. inv_bind in H as sp Hid.
  destruct sp as [[|msg] pairs]; [|by inversion H].
  inv_bind in H as g1' Hfold. inversion H; subst g1' m1. clear H.
  destruct (recompute_layers_appended pairs g g1 Hfold) as [new Happ].
  unfold IdentifyTransformerLayerEdges in Hid. inv_bind in Hid as se Hscan.
  destruct (scan_layers_appended g g1 new se Happ Hscan) as [Hundef Hsame].
  pose proof (drop_app_length (nodes_ g) (Some <$> new)) as Hins.
  destruct Happ as (Hnodes & Happ). rewrite <- Hnodes in Hins.
  fold (inserted_nodes g g1) in Hins. rewrite Hins. split.
  - intros Hex m. unfold ApplyImpl, IdentifyTransformerLayerEdges.
    rewrite Hundef; [done|].
    apply Exists_exists in Hex as (on & Hon & Hg).
    apply list_elem_of_fmap in Hon as (n & -> & Hn).
    apply Exists_exists. by exists n.
  - intros Hall.
    assert (scan_layers g1 = Normal se) as Hscan1.
    { apply Hsame. apply Forall_forall. intros n Hn.
      rewrite Forall_forall in Hall.
      apply (Hall (Some n)). by apply list_elem_of_fmap_2. }
    split; [congruence|].
    destruct (recompute_layers_replay g pairs g g g1 (same_view_refl g)
                (same_view_refl g) Hfold) as (_ & _ & _ & Hv & _).
    destruct (recompute_layers_replay g pairs g g1 g1 (same_view_refl g)
                Hv Hfold) as (g2 & k & Hr & _ & Hk & Hk').
    exists g2, k. split; [|done].
    unfold ApplyImpl, IdentifyTransformerLayerEdges. rewrite Hscan1. simpl.
    destruct se as [starts ends]. simpl in *.
    destruct (decide (length starts = length ends)); [|by inversion Hid].
    inversion Hid; subst pairs. simpl. rewrite Hr. done.
Qed.

(** Witness for C4 (as amended): on the layer template graph the span holds
    the Gelu node, and the second application has no defined result. *)
Lemma ApplyImpl_twice_scans_duplicates_witness :
  ApplyImpl layer_graph false = Normal (after_pass layer_graph, true, OK) ∧
  Exists holds_gelu (inserted_nodes layer_graph (after_pass layer_graph)) ∧
  ApplyImpl (after_pass layer_graph) true = Undefined.
Proof.
  assert (ApplyImpl layer_graph false
          = Normal (after_pass layer_graph, true, OK)) as H
    by (vm_compute; reflexivity).
  assert (Exists holds_gelu
            (inserted_nodes layer_graph (after_pass layer_graph))) as Hex.
  { apply Exists_exists.
    exists (Some (mkNode "gelu_recompute" "Gelu" "Recompute of gelu"
                         ["c_recompute"] ["g_recompute"] ∅ "" (-10))).
    split; [vm_compute; repeat constructor|].
    unfold holds_gelu, gelu_ops. simpl. set_solver. }
  split; [exact H|]. split; [exact Hex|].
  exact (proj1 (ApplyImpl_twice_scans_duplicates layer_graph
                  (after_pass layer_graph) false true H) Hex true).
Defined.

(** Counterexample to C4 as stated.  On the layer template graph the first
    application inserts 3 nodes (6 become 9) and the second one has no
    defined result.  On [side_gelu_graph] the first application inserts 2
    nodes (6 become 8), neither of them a GELU-family node, and the second
    one inserts 2 more (10).  On [two_start_graph] the first application
    inserts 3 nodes (8 become 11); after a resolve, node S2 has gained a
    fourth outgoing edge, is detected as a start, and the second
    application inserts 4 more (15).  In no case does the second
    application return the node count of the first. *)
Lemma ApplyImpl_twice_counterexample :
  (ApplyImpl layer_graph false = Normal (after_pass layer_graph, true, OK) ∧
   length (nodes_ (after_pass layer_graph)) = 9 ∧
   ApplyImpl (after_pass layer_graph) true = Undefined) ∧
  (ApplyImpl side_gelu_graph false
   = Normal (after_pass side_gelu_graph, true, OK) ∧
   length (nodes_ (after_pass side_gelu_graph)) = 8 ∧
   ApplyImpl (after_pass side_gelu_graph) true
   = Normal (after_pass (after_pass side_gelu_graph), true, OK) ∧
   length (nodes_ (after_pass (after_pass side_gelu_graph))) = 10 ∧
   length (nodes_ (after_pass (after_pass side_gelu_graph)))
   ≠ length (nodes_ (after_pass side_gelu_graph))) ∧
  (ApplyImpl two_start_graph false
   = Normal (after_pass two_start_graph, true, OK) ∧
   length (nodes_ (after_pass two_start_graph)) = 11 ∧
   (Resolve (after_pass two_start_graph)).2 = OK ∧
   ApplyImpl (Resolve (after_pass two_start_graph)).1 true
   = Normal (after_pass (Resolve (after_pass two_start_graph)).1, true, OK) ∧
   length (nodes_ (after_pass (Resolve (after_pass two_start_graph)).1)) = 15).
Proof. split_and!; vm_compute; (reflexivity || discriminate). Qed.

(** ** ReorderOutputs *)

Lemma output_arg_map_fold (outputs : list (option string))
    (m0 m : gmap string (option string)) :
  foldO (λ m node_arg, name ← deref node_arg; Normal (<[name := node_arg]> m))
        m0 outputs = Normal m →
  ∀ name, m !! name = (if decide (Some name ∈ outputs) then Some (Some name)
                       else m0 !! name).
Proof.
  revert m0. induction outputs as [|o outputs IH]; intros m0 H name; simpl in H.
  - inversion H; subst. rewrite decide_False; [done|]. apply not_elem_of_nil.
  - inv_bind in H as m1 Hm1. inv_bind in Hm1 as oname Ho.
    apply deref_Normal in Ho as ->. inversion Hm1; subst m1. clear Hm1.
    rewrite (IH _ H name).
    destruct (decide (Some name ∈ outputs)) as [Hin|Hout].
    + rewrite decide_True; [done|by right].
    + destruct (decide (oname = name)) as [->|Hne].
      * rewrite lookup_insert_eq. rewrite decide_True; [done|by left].
      * rewrite lookup_insert_ne by done. rewrite decide_False; [done|].
        intros [?|?]%elem_of_cons; [congruence|done].
Qed.

Lemma output_arg_map_defined (outputs : list (option string))
    (m0 : gmap string (option string)) :
  (∀ o, o ∈ outputs → is_Some o) →
  is_Normal (foldO (λ m node_arg, name ← deref node_arg;
                                  Normal (<[name := node_arg]> m)) m0 outputs).
Proof.
  intros H. apply foldO_defined. intros m o Ho.
  destruct (H o Ho) as [name ->]. by eexists.
Qed.

Lemma reorder_fold (require_grad : gset string) (outputs : list (option string))
    (m : gmap string (option string)) (inputs : list string)
    (names names' : gmap string string) (acc acc' : list (option string)) :
  (∀ name, m !! name = (if decide (Some name ∈ outputs) then Some (Some name)
                        else None)) →
  foldO (reorder_step require_grad m) (names, acc) inputs = Normal (names', acc') →
  acc' = acc ++ (Some <$> (grad_of <$> filter (λ i, i ∈ require_grad) inputs)) ∧
  (∀ i, i ∈ inputs → i ∈ require_grad → Some (grad_of i) ∈ outputs).
Proof.
  intros Hm. revert names acc.
  induction inputs as [|i inputs IH]; intros names acc H; simpl in H.
  - inversion H; subst. rewrite app_nil_r. split; [done|].
    intros i Hi. by apply elem_of_nil in Hi.
  - inv_bind in H as st Hst. unfold reorder_step in Hst. rewrite filter_cons.
    destruct (decide (i ∈ require_grad)) as [Hreq|Hreq].
    + rewrite Hm in Hst. destruct (decide (Some (grad_of i) ∈ outputs)); [|done].
      inversion Hst; subst st. clear Hst. apply IH in H as [-> Hall].
      simpl. rewrite <- (assoc_L (++)). split; [done|].
      intros j [->|Hj]%elem_of_cons; auto.
    + inversion Hst; subst st. clear Hst. apply IH in H as [-> Hall].
      split; [done|]. intros j [->|Hj]%elem_of_cons; [done|auto].
Qed.

Lemma reorder_fold_defined (require_grad : gset string)
    (outputs : list (option string)) (m : gmap string (option string))
    (inputs : list string) (st : gmap string string * list (option string)) :
  (∀ name, m !! name = (if decide (Some name ∈ outputs) then Some (Some name)
                        else None)) →
  (∀ i, i ∈ inputs → i ∈ require_grad → Some (grad_of i) ∈ outputs) →
  is_Normal (foldO (reorder_step require_grad m) st inputs).
Proof.
  intros Hm Hall. apply foldO_defined. intros a i Hi. unfold reorder_step.
  destruct (decide (i ∈ require_grad)); [|by eexists].
  rewrite Hm, decide_True by auto. by eexists.
Qed.

Lemma reorder_step_cases (require_grad : gset string)
    (outputs : list (option string)) (m : gmap string (option string))
    (st : gmap string string * list (option string)) (i : string) :
  (∀ name, m !! name = (if decide (Some name ∈ outputs) then Some (Some name)
                        else None)) →
  reorder_step require_grad m st i
  = if decide (i ∈ require_grad)
    then if decide (Some (grad_of i) ∈ outputs)
         then Normal (<[i := grad_of i]> st.1, st.2 ++ [Some (grad_of i)])
         else Throws "Required user input grad is not found on gradient graph."
    else Normal st.
Proof.
  intros Hm. unfold reorder_step. destruct (decide (i ∈ require_grad)); [|done].
  rewrite Hm. by destruct (decide (Some (grad_of i) ∈ outputs)).
Qed.

Lemma reorder_fold_throws (require_grad : gset string)
    (outputs : list (option string)) (m : gmap string (option string))
    (inputs : list string) (st : gmap string string * list (option string))
    (i : string) :
  (∀ name, m !! name = (if decide (Some name ∈ outputs) then Some (Some name)
                        else None)) →
  i ∈ inputs → i ∈ require_grad → Some (grad_of i) ∉ outputs →
  foldO (reorder_step require_grad m) st inputs
  = Throws "Required user input grad is not found on gradient graph.".
Proof.
  intros Hm Hi Hreq Hmiss. revert st.
  induction inputs as [|j inputs IH]; intros st; [by apply elem_of_nil in Hi|].
  cbn [foldO]. rewrite (reorder_step_cases _ outputs) by done.
  destruct (decide (j ∈ require_grad)) as [Hj|Hj].
  - destruct (decide (Some (grad_of j) ∈ outputs)) as [Hin|Hout]; [|done].
    cbn [mbind Outcome_bind]. apply IH.
    apply elem_of_cons in Hi as [->|Hi]; [done|done].
  - cbn [mbind Outcome_bind]. apply IH.
    apply elem_of_cons in Hi as [->|Hi]; [done|done].
Qed.

(** X18.  The outputs that ReorderOutputs declares.  It returns when every
    declared output of the gradient graph is a node argument and the
    gradient of every user input that requires one is among them; it throws
    when such a gradient is missing.  When it returns, the declared outputs
    are exactly the user outputs in their order (a null pointer for a name
    the graph does not know), followed by the gradients of the user inputs
    that require one, in user-input order, and nothing else: the block that
    would append the gradients of the trainable initializers (lines
    436-444) is commented out. *)
Theorem ReorderOutputs_order (b : ModuleGradientGraphBuilder) :
  ((∀ o, o ∈ graph_outputs_ (gradient_model_ b) → is_Some o) →
   ((∀ i, i ∈ inputs_requiring_grad b →
          Some (grad_of i) ∈ graph_outputs_ (gradient_model_ b)) →
    is_Normal (ReorderOutputs b)) ∧
   (∀ i, i ∈ inputs_requiring_grad b →
         Some (grad_of i) ∉ graph_outputs_ (gradient_model_ b) →
         ReorderOutputs b
         = Throws "Required user input grad is not found on gradient graph.")) ∧
  (∀ b', ReorderOutputs b = Normal b' →
     graph_outputs_ (gradient_model_ b')
     = (GetNodeArg (gradient_model_ b) <$>
          user_output_names (split_graphs_info_ b)) ++
       (Some <$> (grad_of <$> inputs_requiring_grad b))) ∧
  ((∀ u, u ∈ user_output_names (split_graphs_info_ b) →
         u ∈ dom (node_args_ (gradient_model_ b))) →
   ∀ b', ReorderOutputs b = Normal b' →
         graph_outputs_ (gradient_model_ b')
         = Some <$> (user_output_names (split_graphs_info_ b) ++
                     (grad_of <$> inputs_requiring_grad b))).
Proof.
  assert (∀ b', ReorderOutputs b = Normal b' →
     graph_outputs_ (gradient_model_ b')
     = (GetNodeArg (gradient_model_ b) <$>
          user_output_names (split_graphs_info_ b)) ++
       (Some <$> (grad_of <$> inputs_requiring_grad b))) as Hmain.
  { intros b' H. unfold ReorderOutputs in H.
    inv_bind in H as m Hm. unfold output_arg_map in Hm.
    pose proof (output_arg_map_fold _ _ _ Hm) as Hlook.
    inv_bind in H as st Hst. destruct st as [names acc].
    inversion H; subst b'. clear H. simpl.
    apply (reorder_fold _ (graph_outputs_ (gradient_model_ b))) in Hst
      as [-> _]; [done|].
    intros name. rewrite Hlook. by rewrite lookup_empty. }
  split_and!.
  - intros Hnonnull.
    destruct (output_arg_map_defined (graph_outputs_ (gradient_model_ b)) ∅
                Hnonnull) as [m Hm].
    pose proof (output_arg_map_fold _ _ _ Hm) as Hlook.
    assert (∀ name, m !! name
              = (if decide (Some name ∈ graph_outputs_ (gradient_model_ b))
                 then Some (Some name) else None)) as Hlook'.
    { intros name. rewrite Hlook. by rewrite lookup_empty. }
    unfold ReorderOutputs, output_arg_map. rewrite Hm. simpl. split.
    + intros Hall.
      destruct (reorder_fold_defined (input_names_require_grad (config_ b))
                  (graph_outputs_ (gradient_model_ b)) m
                  (user_input_names (split_graphs_info_ b))
                  (∅, GetNodeArg (gradient_model_ b) <$>
                        user_output_names (split_graphs_info_ b)) Hlook')
        as [[names acc] ->]; [|by eexists].
      intros i Hi Hreq. apply Hall. unfold inputs_requiring_grad.
      by apply list_elem_of_filter.
    + intros i [Hreq Hi]%list_elem_of_filter Hmiss.
      by rewrite (reorder_fold_throws _ _ _ _ _ i Hlook' Hi Hreq Hmiss).
  - exact Hmain.
  - intros Hwf b' H. rewrite (Hmain b' H), fmap_app. f_equal.
    apply list_eq. intros k. rewrite !list_lookup_fmap.
    destruct (user_output_names (split_graphs_info_ b) !! k) as [u|] eqn:E;
      [|done].
    simpl. unfold GetNodeArg. rewrite decide_True; [done|].
    apply Hwf. by eapply list_elem_of_lookup_2.
Qed.

(** Witness for X18: the MatMul gradient graph. *)
Lemma ReorderOutputs_order_witness :
  outputs_after (ReorderOutputs matmul_builder) = Some [Some "y"; Some "x_grad"].
Proof.
  destruct (proj1 (proj1 (ReorderOutputs_order matmul_builder)
                     ltac:(intros o Ho; vm_compute in Ho;
                           repeat (apply elem_of_cons in Ho as [->|Ho];
                                   [by eexists|]);
                           by apply elem_of_nil in Ho))
                  ltac:(intros i Hi; vm_compute in Hi;
                        apply list_elem_of_singleton in Hi as ->;
                        vm_compute; right; right; left))
    as [b' Hb'].
  rewrite Hb'. simpl.
  rewrite (proj2 (proj2 (ReorderOutputs_order matmul_builder))
             ltac:(intros u Hu; vm_compute in Hu;
                   apply list_elem_of_singleton in Hu as ->;
                   by vm_compute) b' Hb').
  vm_compute. reflexivity.
Defined.

(** C1.  The order that the comment heading ReorderOutputs announces (user
    outputs, gradients of the user inputs, gradients of the trainable
    initializers) is not the order it leaves.  On the MatMul gradient graph,
    with user input x requiring a gradient and trainable initializer w,
    ReorderOutputs leaves the outputs y and x_grad; the announced order
    also lists w_grad. *)
Lemma ReorderOutputs_omits_initializer_gradients :
  outputs_after (ReorderOutputs matmul_builder) = Some [Some "y"; Some "x_grad"] ∧
  announced_outputs matmul_builder = [Some "y"; Some "x_grad"; Some "w_grad"] ∧
  outputs_after (ReorderOutputs matmul_builder)
  ≠ Some (announced_outputs matmul_builder).
Proof. split_and!; [vm_compute; reflexivity..|vm_compute; discriminate]. Qed.

(** ** Split *)

Lemma resolved_linked (g : Graph) : resolved g → linked g = nodes_ g.
Proof.
  unfold resolved, linked. intros ->. rewrite Nat.sub_0_r. apply firstn_all.
Qed.

(** On a resolved graph the topological order lists exactly its nodes. *)
Lemma resolved_order (g : Graph) (order : list NodeIndex) (i : NodeIndex) :
  resolved g → topologicalOrder g = Some order →
  i ∈ order ↔ is_Some (GetNode g i).
Proof.
  intros _ Htopo. apply (topologicalOrder_elem_of g order i Htopo).
Qed.

Lemma GetNode_RemoveNode (g : Graph) (j i : NodeIndex) :
  GetNode (RemoveNode g j) i = if decide (i = j) then None else GetNode g i.
Proof.
  unfold GetNode, RemoveNode. simpl. destruct (decide (i = j)) as [->|Hne].
  - destruct (decide (j < length (nodes_ g))).
    + by rewrite list_lookup_insert_eq.
    + rewrite list_insert_ge by lia. by rewrite lookup_ge_None_2 by lia.
  - by rewrite list_lookup_insert_ne.
Qed.

Lemma GetNode_without_nodes (g : Graph) (l : list NodeIndex) (i : NodeIndex) :
  GetNode (without_nodes g l) i = if decide (i ∈ l) then None else GetNode g i.
Proof.
  unfold without_nodes. revert g. induction l as [|j l IH]; intros g; cbn [foldl].
  - rewrite decide_False; [done|apply not_elem_of_nil].
  - rewrite IH, GetNode_RemoveNode.
    destruct (decide (i ∈ l)) as [Hi|Hi].
    + rewrite decide_True; [done|by right].
    + destruct (decide (i = j)) as [->|Hne].
      * rewrite decide_True; [done|by left].
      * rewrite decide_False; [done|].
        intros [?|?]%elem_of_cons; done.
Qed.

Lemma without_nodes_frame (g : Graph) (l : list NodeIndex) :
  node_args_ (without_nodes g l) = node_args_ g ∧
  graph_inputs_ (without_nodes g l) = graph_inputs_ g ∧
  graph_outputs_ (without_nodes g l) = graph_outputs_ g.
Proof.
  unfold without_nodes. revert g. induction l as [|j l IH]; intros g; simpl;
    [done|]. destruct (IH (RemoveNode g j)) as (-> & -> & ->). done.
Qed.

(** RemoveNodes returns exactly when the pointers are distinct and each
    points to a node of the graph; it has then emptied their slots. *)
Lemma RemoveNodes_Normal (g g' : Graph) (l : list NodeIndex) :
  RemoveNodes g l = Normal g' ↔
  (NoDup l ∧ ∀ i, i ∈ l → is_Some (GetNode g i)) ∧ g' = without_nodes g l.
Proof.
  unfold RemoveNodes, without_nodes. revert g.
  induction l as [|j l IH]; intros g; cbn [foldO foldl].
  - split.
    + intros [= <-]. split_and!; [constructor| |done].
      intros i Hi. by apply elem_of_nil in Hi.
    + by intros (_ & ->).
  - rewrite bind_Normal. split.
    + intros (g1 & Hstep & H). inv_bind in Hstep as n Hn.
      apply deref_Normal in Hn. inversion Hstep; subst g1. clear Hstep.
      apply IH in H as ((Hnd & Hall) & ->). split; [|done].
      assert (j ∉ l) as Hj.
      { intros Hj. destruct (Hall j Hj) as [m Hm].
        rewrite GetNode_RemoveNode, decide_True in Hm by done. done. }
      split; [by constructor|].
      intros i [->|Hi]%elem_of_cons; [by eexists|].
      specialize (Hall i Hi). rewrite GetNode_RemoveNode in Hall.
      by destruct (decide (i = j)); [destruct Hall|].
    + intros ((Hnd & Hall) & ->). apply NoDup_cons in Hnd as [Hj Hnd].
      destruct (Hall j) as [n Hn]; [by left|].
      exists (RemoveNode g j). rewrite Hn. split; [done|]. apply IH.
      split; [|done]. split; [done|]. intros i Hi.
      rewrite GetNode_RemoveNode, decide_False; [apply Hall; by right|].
      by intros ->.
Qed.

Lemma no_throw_RemoveNodes (g : Graph) (l : list NodeIndex) :
  no_throw (RemoveNodes g l).
Proof.
  unfold RemoveNodes. apply no_throw_foldO. intros g1 j.
  apply no_throw_bind; [apply no_throw_deref|]. intros n _.
  apply no_throw_Normal.
Qed.

Lemma FilterInitializers_frame (g : Graph) (names : gset string) :
  nodes_ (FilterInitializers g names) = nodes_ g ∧
  node_args_ (FilterInitializers g names) = node_args_ g ∧
  graph_inputs_ (FilterInitializers g names) = graph_inputs_ g ∧
  graph_outputs_ (FilterInitializers g names) = graph_outputs_ g.
Proof.
  unfold FilterInitializers. generalize (elements (filter (λ x, x ∉ names)
                                                     (initializers_ g))).
  intros l. revert g. induction l as [|x l IH]; intros g; simpl; [done|].
  destruct (IH (RemoveInitializedTensor g x)) as (-> & -> & -> & ->). done.
Qed.

Lemma GetNode_same_nodes (g g' : Graph) (i : NodeIndex) :
  nodes_ g' = nodes_ g → GetNode g' i = GetNode g i.
Proof. unfold GetNode. by intros ->. Qed.

Lemma GetNodeArg_same_args (g g' : Graph) (name : string) :
  node_args_ g' = node_args_ g → GetNodeArg g' name = GetNodeArg g name.
Proof. unfold GetNodeArg. by intros ->. Qed.

Lemma GetNodeArg_Some (g : Graph) (name a : string) :
  GetNodeArg g name = Some a ↔ a = name ∧ name ∈ dom (node_args_ g).
Proof.
  unfold GetNodeArg. destruct (decide _); split; try naive_solver.
Qed.

(** The first loop of Split. *)
Lemma split_scan_fold (g : Graph) (order : list NodeIndex) (sc0 sc : SplitScan) :
  foldO (split_scan_step g) sc0 order = Normal sc →
  forward_nodes_to_remove sc
  = forward_nodes_to_remove sc0 ++ filter (backward_at g) order ∧
  (∀ x, x ∈ (forward_names sc).2 ↔
        x ∈ (forward_names sc0).2 ∨
        ∃ i n, i ∈ order ∧ GetNode g i = Some n ∧ ¬ is_backward n ∧
               x ∈ OutputDefs n) ∧
  (∀ x, x ∈ (backward_names sc).1 ↔
        x ∈ (backward_names sc0).1 ∨
        ∃ i n, i ∈ order ∧ GetNode g i = Some n ∧ is_backward n ∧
               x ∈ InputDefs n).
Proof.
  revert sc0. induction order as [|i order IH]; intros sc0 H; simpl in H.
  - inversion H; subst. rewrite app_nil_r. split_and!; [done|..];
      intros x; split; [by left| |by left|];
      (intros [?|(i & n & Hi & _)]; [done|by apply elem_of_nil in Hi]).
  - inv_bind in H as sc1 Hstep. unfold split_scan_step in Hstep.
    inv_bind in Hstep as n Hn. apply deref_Normal in Hn.
    apply IH in H as (Hrm & Hfo & Hbi). rewrite filter_cons.
    assert (backward_at g i ↔ is_backward n) as Hback
      by (unfold backward_at; by rewrite Hn).
    destruct (decide (Description n = "Backward pass")) as [Hb|Hb];
      inversion Hstep; subst sc1; clear Hstep; simpl in *.
    + rewrite decide_True by (by apply Hback).
      rewrite Hrm, <- (assoc_L (++)). split_and!; [done|..].
      * intros x. rewrite Hfo. split.
        -- intros [?|(j & m & Hj & Hm & ?)]; [by left|].
           right. exists j, m. split; [by right|done].
        -- intros [?|(j & m & Hj & Hm & Hnb & ?)]; [by left|].
           apply elem_of_cons in Hj as [->|Hj]; [|right; eauto 10].
           rewrite Hn in Hm. inversion Hm; subst m. done.
      * intros x. rewrite Hbi, elem_of_union, elem_of_list_to_set. split.
        -- intros [[?|?]|(j & m & Hj & Hm & ?)]; [|by left|].
           ++ right. exists i, n. split; [by left|done].
           ++ right. exists j, m. split; [by right|done].
        -- intros [?|(j & m & Hj & Hm & Hnb & ?)]; [left; by right|].
           apply elem_of_cons in Hj as [->|Hj]; [|right; eauto 10].
           rewrite Hn in Hm. inversion Hm; subst m. left; by left.
    + rewrite decide_False by (by rewrite Hback).
      split_and!; [done|..].
      * intros x. rewrite Hfo, elem_of_union, elem_of_list_to_set. split.
        -- intros [[?|?]|(j & m & Hj & Hm & ?)]; [|by left|].
           ++ right. exists i, n. split; [by left|done].
           ++ right. exists j, m. split; [by right|done].
        -- intros [?|(j & m & Hj & Hm & Hnb & ?)]; [left; by right|].
           apply elem_of_cons in Hj as [->|Hj]; [|right; eauto 10].
           rewrite Hn in Hm. inversion Hm; subst m. left; by left.
      * intros x. rewrite Hbi. split.
        -- intros [?|(j & m & Hj & Hm & ?)]; [by left|].
           right. exists j, m. split; [by right|done].
        -- intros [?|(j & m & Hj & Hm & Hnb & ?)]; [by left|].
           apply elem_of_cons in Hj as [->|Hj]; [|right; eauto 10].
           rewrite Hn in Hm. inversion Hm; subst m. done.
Qed.

Lemma backward_remove_fold (g : Graph) (order acc r : list NodeIndex) :
  foldO (backward_remove_step g) acc order = Normal r →
  r = acc ++ filter (forward_at g) order.
Proof.
  revert acc. induction order as [|i order IH]; intros acc H; simpl in H.
  - inversion H. by rewrite app_nil_r.
  - inv_bind in H as acc1 Hstep. unfold backward_remove_step in Hstep.
    inv_bind in Hstep as n Hn. apply deref_Normal in Hn.
    apply IH in H as ->. rewrite filter_cons.
    assert (forward_at g i ↔ ¬ is_backward n) as Hfw
      by (unfold forward_at; by rewrite Hn).
    destruct (decide (Description n ≠ "Backward pass")) as [Hb|Hb];
      inversion Hstep; subst acc1.
    + rewrite decide_True by (by apply Hfw). by rewrite <- (assoc_L (++)).
    + rewrite decide_False; [done|]. by rewrite Hfw.
Qed.

Lemma backward_initializer_fold (names : gset string) (inits : list string)
    (st : Graph * list string * list (option string)) :
  nodes_ (foldl (backward_initializer_step names) st inits).1.1 = nodes_ st.1.1 ∧
  node_args_ (foldl (backward_initializer_step names) st inits).1.1
  = node_args_ st.1.1 ∧
  graph_outputs_ (foldl (backward_initializer_step names) st inits).1.1
  = graph_outputs_ st.1.1.
Proof.
  revert st. induction inits as [|x inits IH]; intros st; cbn [foldl]; [done|].
  destruct (IH (backward_initializer_step names st x)) as (-> & -> & ->).
  unfold backward_initializer_step. by destruct (decide _).
Qed.

Lemma backward_intermediate_fold (forward_graph : Graph) (inter : list string)
    (g g' : Graph) (args args' : list (option string)) :
  foldO (backward_intermediate_step forward_graph) (g, args) inter
  = Normal (g', args') →
  nodes_ g' = nodes_ g ∧ graph_outputs_ g' = graph_outputs_ g ∧
  args' = args ++ (Some <$> inter) ∧
  (∀ x, x ∈ inter → x ∈ dom (node_args_ forward_graph)).
Proof.
  revert g args. induction inter as [|x inter IH]; intros g args H; simpl in H.
  - inversion H; subst. rewrite app_nil_r. split_and!; try done.
    intros x Hx. by apply elem_of_nil in Hx.
  - inv_bind in H as st1 Hstep. unfold backward_intermediate_step in Hstep.
    inv_bind in Hstep as a Ha. inv_bind in Hstep as fa Hfa.
    apply deref_Normal in Ha, Hfa. simpl in Ha.
    apply GetNodeArg_Some in Ha as [-> _].
    apply GetNodeArg_Some in Hfa as [-> Hdom].
    inversion Hstep; subst st1. clear Hstep.
    apply IH in H as (-> & -> & -> & Hall). simpl.
    rewrite <- (assoc_L (++)). split_and!; try done.
    intros y [->|Hy]%elem_of_cons; auto.
Qed.

(** What a call of Split that returns has done to the two copies. *)
Lemma Split_inv (b b' : ModuleGradientGraphBuilder) (st : Status) :
  Split b = Normal (b', st) →
  ∃ order order_b sc,
    topologicalOrder (forward_model_ b) = Some order ∧
    topologicalOrder (backward_model_ b) = Some order_b ∧
    foldO (split_scan_step (forward_model_ b)) (mkScan [] (∅, ∅) (∅, ∅)) order
    = Normal sc ∧
    nodes_ (forward_model_ b')
    = nodes_ (without_nodes (forward_model_ b) (forward_nodes_to_remove sc)) ∧
    nodes_ (backward_model_ b')
    = nodes_ (without_nodes (backward_model_ b)
                            (filter (forward_at (backward_model_ b)) order_b)) ∧
    intermediate_tensor_names (split_graphs_info_ b')
    = filter (λ name, name ∉ user_output_names (split_graphs_info_ b))
        (elements (filter (λ name, name ∈ (backward_names sc).1)
                          (forward_names sc).2)) ∧
    (∃ pre, graph_outputs_ (forward_model_ b')
            = pre ++ (GetNodeArg (forward_model_ b) <$>
                        intermediate_tensor_names (split_graphs_info_ b'))) ∧
    (∃ pre post, graph_inputs_ (backward_model_ b')
                 = pre ++ (Some <$> intermediate_tensor_names
                                      (split_graphs_info_ b')) ++ post) ∧
    (∀ x, x ∈ intermediate_tensor_names (split_graphs_info_ b') →
          x ∈ dom (node_args_ (forward_model_ b))).
Proof.
  intros H. unfold Split in H. cbv zeta in H.
  inv_bind in H as order Horder. apply deref_Normal in Horder.
  inv_bind in H as sc Hsc.
  inv_bind in H as fg Hfg. apply RemoveNodes_Normal in Hfg as [_ ->].
  inv_bind in H as order_b Horder_b. apply deref_Normal in Horder_b.
  inv_bind in H as rm_b Hrm_b. apply backward_remove_fold in Hrm_b as ->.
  inv_bind in H as bg Hbg. apply RemoveNodes_Normal in Hbg as [_ ->].
  match type of H with
  | context [foldl (backward_initializer_step ?names) ?st0 ?inits] =>
    pose proof (backward_initializer_fold names inits st0) as (Hn1 & Ha1 & Ho1);
    destruct (foldl (backward_initializer_step names) st0 inits)
      as [[bg1 as_input] args1] eqn:Hinit
  end.
  simpl in Hn1, Ha1, Ho1.
  inv_bind in H as st2 Hinter. destruct st2 as [bg2 args2].
  inv_bind in H as outs Houts. inversion H; subst b' st. clear H. simpl.
  simpl in Hinter.
  apply backward_intermediate_fold in Hinter as (Hn2 & Ho2 & -> & Hdom).
  exists order, order_b, sc. split_and!; try done.
  - by rewrite (proj1 (FilterInitializers_frame _ _)).
  - rewrite Hn2, Hn1. by rewrite (proj1 (FilterInitializers_frame _ _)).
  - eexists. f_equal. apply list_fmap_ext. intros _ x _.
    apply GetNodeArg_same_args. simpl.
    rewrite (proj1 (proj2 (FilterInitializers_frame _ _))).
    by rewrite (proj1 (without_nodes_frame _ _)).
  - eexists _, _. by rewrite <- (assoc_L (++)).
  - intros x Hx. apply Hdom in Hx. simpl in Hx.
    rewrite (proj1 (proj2 (FilterInitializers_frame _ _))) in Hx.
    by rewrite (proj1 (without_nodes_frame _ _)) in Hx.
Qed.

Lemma backward_intermediate_fold_defined (forward_graph : Graph)
    (inter : list string) (g : Graph) (args : list (option string)) :
  (∀ x, x ∈ inter →
        x ∈ dom (node_args_ g) ∧ x ∈ dom (node_args_ forward_graph)) →
  is_Normal (foldO (backward_intermediate_step forward_graph) (g, args) inter).
Proof.
  revert g args. induction inter as [|x inter IH]; intros g args Hall;
    cbn [foldO].
  - by eexists.
  - destruct (Hall x) as [Hb Hf]; [by left|].
    assert (backward_intermediate_step forward_graph (g, args) x
            = Normal (UpdateTypeAndShape g x (TypeAsProto forward_graph x),
                      args ++ [Some x])) as ->.
    { unfold backward_intermediate_step, GetNodeArg. cbn [fst snd].
      by rewrite !decide_True by done. }
    cbn [mbind Outcome_bind]. apply IH. intros y Hy.
    destruct (Hall y) as [Hb' Hf']; [by right|]. split; [|done]. simpl.
    rewrite dom_insert. set_solver.
Qed.

Lemma split_scan_defined (g : Graph) (order : list NodeIndex) (sc0 : SplitScan) :
  topologicalOrder g = Some order →
  is_Normal (foldO (split_scan_step g) sc0 order).
Proof.
  intros Htopo. apply foldO_defined. intros sc i Hi.
  apply (topologicalOrder_elem_of g order i Htopo) in Hi as [n Hn].
  unfold split_scan_step. rewrite Hn. simpl. destruct (decide _); by eexists.
Qed.

Lemma backward_remove_defined (g : Graph) (order acc : list NodeIndex) :
  topologicalOrder g = Some order →
  is_Normal (foldO (backward_remove_step g) acc order).
Proof.
  intros Htopo. apply foldO_defined. intros a i Hi.
  apply (topologicalOrder_elem_of g order i Htopo) in Hi as [n Hn].
  unfold backward_remove_step. rewrite Hn. simpl. destruct (decide _); by eexists.
Qed.

(** Split returns on two copies of a graph that has a topological order,
    whose node arguments are all known and whose declared outputs are not
    null. *)
Lemma Split_defined (b : ModuleGradientGraphBuilder) (g : Graph) :
  forward_model_ b = g → backward_model_ b = g →
  is_Some (topologicalOrder g) → args_known g →
  (∀ o, o ∈ graph_outputs_ g → is_Some o) →
  ∃ b', Split b = Normal (b', OK).
Proof.
  intros Hf Hb [order Htopo] Hknown Houts.
  unfold Split. cbv zeta. rewrite Hf, Hb.
  unfold GetNodesInTopologicalOrder. rewrite Htopo. cbn [deref mbind Outcome_bind].
  destruct (split_scan_defined g order (mkScan [] (∅, ∅) (∅, ∅)) Htopo)
    as [sc Hsc].
  rewrite Hsc. cbn [mbind Outcome_bind].
  destruct (topologicalOrder_spec g order Htopo) as (_ & _ & Hnd).
  assert (∀ (P : NodeIndex → Prop) `{!∀ i, Decision (P i)},
            RemoveNodes g (filter P order)
            = Normal (without_nodes g (filter P order))) as Hremove.
  { intros P HP. apply RemoveNodes_Normal. split; [|done].
    split; [by apply NoDup_filter|].
    intros i [_ Hi]%list_elem_of_filter.
    by apply (topologicalOrder_elem_of g order i Htopo). }
  pose proof (proj1 (split_scan_fold g order _ sc Hsc)) as Hrm_f.
  simpl in Hrm_f. rewrite Hrm_f, Hremove. cbn [mbind Outcome_bind].
  destruct (backward_remove_defined g order [] Htopo) as [rm Hrm].
  rewrite Hrm. cbn [mbind Outcome_bind].
  apply backward_remove_fold in Hrm as ->. simpl.
  rewrite Hremove. cbn [mbind Outcome_bind].
  match goal with
  | |- context [foldl (backward_initializer_step ?names) ?st0 ?inits] =>
    pose proof (backward_initializer_fold names inits st0) as (Hn1 & Ha1 & Ho1);
    destruct (foldl (backward_initializer_step names) st0 inits)
      as [[bg1 as_input] args1] eqn:Hinit
  end.
  simpl in Hn1, Ha1, Ho1.
  match goal with
  | |- context [foldO (backward_intermediate_step ?fg) (?g0, ?args) ?inter] =>
    destruct (backward_intermediate_fold_defined fg inter g0 args)
      as [[bg2 args2] Hinter]
  end.
  { simpl. intros x [_ Hx]%list_elem_of_filter.
    apply elem_of_elements, elem_of_filter in Hx as [_ Hx].
    apply (proj1 (proj2 (split_scan_fold g order _ sc Hsc))) in Hx
      as [Hx|(i & n & _ & Hn & _ & Hx)]; [set_solver|].
    assert (x ∈ dom (node_args_ g)) as Hdom.
    { eapply Hknown; [exact Hn|]. apply elem_of_app. by right. }
    rewrite Ha1.
    rewrite !(proj1 (proj2 (FilterInitializers_frame _ _))).
    by rewrite !(proj1 (without_nodes_frame _ _)). }
  rewrite Hinter. cbn [mbind Outcome_bind].
  pose proof Hinter as Hinter'. simpl in Hinter'.
  apply backward_intermediate_fold in Hinter' as (_ & Ho2 & _ & _).
  match goal with
  | |- context [foldO ?f ?a (graph_outputs_ ?bg)] =>
    destruct (foldO_defined f (graph_outputs_ bg) a) as [outs Houts']
  end.
  { intros acc o Ho. simpl in Ho. rewrite Ho2, Ho1 in Ho.
    rewrite (proj2 (proj2 (proj2 (FilterInitializers_frame _ _)))) in Ho.
    rewrite (proj2 (proj2 (without_nodes_frame _ _))) in Ho.
    destruct (Houts o Ho) as [name ->]. by eexists. }
  rewrite Houts'. cbn [mbind Outcome_bind]. by eexists.
Qed.

Lemma resolved_GetNode_order (g : Graph) (order : list NodeIndex)
    (i : NodeIndex) (n : Node) :
  resolved g → topologicalOrder g = Some order → GetNode g i = Some n →
  i ∈ order.
Proof. intros Hres Htopo Hn. apply (resolved_order g order i Hres Htopo). eauto. Qed.

(** Every argument of the two-layer model is known to its graph. *)
Lemma mlp_graph_args_known : args_known mlp_graph.
Proof.
  intros i n x Hn Hx.
  assert (x ∈ ["x"; "w1"; "w2"; "h"; "r"; "y"; "y_grad"; "w2_grad";
               "r_grad"; "h_grad"; "w1_grad"]) as Hin.
  { unfold GetNode, mlp_graph in Hn. cbn [nodes_] in Hn.
    do 7 (destruct i as [|i];
          [injection Hn as <-; cbn [InputDefs OutputDefs app] in Hx;
           set_solver|]).
    done. }
  clear Hn Hx. apply elem_of_dom.
  repeat (apply elem_of_cons in Hin as [->|Hin];
          [vm_compute; by eexists|]).
  by apply elem_of_nil in Hin.
Qed.

Lemma mlp_graph_outputs_not_null (o : option string) :
  o ∈ graph_outputs_ mlp_graph → is_Some o.
Proof.
  intros Ho. cbn [graph_outputs_ mlp_graph] in Ho.
  repeat (apply elem_of_cons in Ho as [->|Ho]; [by eexists|]).
  by apply elem_of_nil in Ho.
Qed.

(** C2.  Split of two resolved copies of the combined graph returns (when
    the node arguments are known and no declared output is null); the
    forward graph then holds exactly the nodes of the combined graph whose
    description is not the backward-pass marker and the backward graph holds
    exactly those whose description is the marker, each at its index; so
    every node of the combined graph is in exactly one of the two. *)
Theorem Split_partitions_nodes (b : ModuleGradientGraphBuilder) (g : Graph) :
  forward_model_ b = g → backward_model_ b = g → resolved g →
  (is_Some (topologicalOrder g) → args_known g →
   (∀ o, o ∈ graph_outputs_ g → is_Some o) →
   ∃ b', Split b = Normal (b', OK)) ∧
  (∀ b' st,
     Split b = Normal (b', st) →
     (∀ i n, GetNode (forward_model_ b') i = Some n ↔
             GetNode g i = Some n ∧ Description n ≠ "Backward pass") ∧
     (∀ i n, GetNode (backward_model_ b') i = Some n ↔
             GetNode g i = Some n ∧ Description n = "Backward pass") ∧
     (∀ i n, GetNode g i = Some n →
             (GetNode (forward_model_ b') i = Some n ∧
              GetNode (backward_model_ b') i = None) ∨
             (GetNode (forward_model_ b') i = None ∧
              GetNode (backward_model_ b') i = Some n))).
Proof.
  intros Hf Hb Hres. split.
  { intros Htopo Hknown Houts. by apply (Split_defined b g). }
  intros b' st H.
  apply Split_inv in H
    as (order & order_b & sc & Ho & Hob & Hsc & Hfn & Hbn & _).
  rewrite Hf in *. rewrite Hb in *.
  apply split_scan_fold in Hsc as (Hrm & _). simpl in Hrm. rewrite Hrm in Hfn.
  assert (∀ i, GetNode (forward_model_ b') i
               = if decide (backward_at g i) then None else GetNode g i) as Hfw.
  { intros i. rewrite (GetNode_same_nodes _ _ i Hfn), GetNode_without_nodes.
    destruct (decide (backward_at g i)) as [Hba|Hba].
    - rewrite decide_True; [done|]. apply list_elem_of_filter. split; [done|].
      unfold backward_at in Hba. destruct (GetNode g i) eqn:E; [|done].
      by eapply resolved_GetNode_order.
    - rewrite decide_False; [done|]. by intros [? _]%list_elem_of_filter. }
  assert (∀ i, GetNode (backward_model_ b') i
               = if decide (forward_at g i) then None else GetNode g i) as Hbw.
  { intros i. rewrite (GetNode_same_nodes _ _ i Hbn), GetNode_without_nodes.
    destruct (decide (forward_at g i)) as [Hfa|Hfa].
    - rewrite decide_True; [done|]. apply list_elem_of_filter. split; [done|].
      unfold forward_at in Hfa. destruct (GetNode g i) eqn:E; [|done].
      by eapply resolved_GetNode_order.
    - rewrite decide_False; [done|]. by intros [? _]%list_elem_of_filter. }
  assert (∀ i n, GetNode g i = Some n →
                 (backward_at g i ↔ is_backward n) ∧
                 (forward_at g i ↔ ¬ is_backward n)) as Hat.
  { intros i n Hn. unfold backward_at, forward_at. by rewrite Hn. }
  split_and!.
  - intros i n. rewrite Hfw. destruct (decide (backward_at g i)) as [Hba|Hba].
    + split; [done|]. intros [Hn Hnb]. by apply (Hat i n Hn) in Hba.
    + split; [|by intros [? _]]. intros Hn. split; [done|].
      intros Hd. apply Hba. by apply (Hat i n Hn).
  - intros i n. rewrite Hbw. destruct (decide (forward_at g i)) as [Hfa|Hfa].
    + split; [done|]. intros [Hn Hnb]. by apply (Hat i n Hn) in Hfa.
    + split; [|by intros [? _]]. intros Hn. split; [done|].
      destruct (decide (is_backward n)) as [?|Hnb]; [done|].
      destruct Hfa. by apply (Hat i n Hn).
  - intros i n Hn. rewrite Hfw, Hbw. destruct (Hat i n Hn) as [Hba Hfa].
    destruct (decide (is_backward n)) as [Hd|Hd].
    + right. rewrite decide_True by (by apply Hba).
      rewrite decide_False; [done|]. rewrite Hfa. by intros ?.
    + left. rewrite decide_False by (by rewrite Hba).
      rewrite decide_True; [done|]. by apply Hfa.
Qed.

(** Witness for C2: the two-layer model. *)
Lemma Split_partitions_nodes_witness :
  (∃ b', Split mlp_builder = Normal (b', OK)) ∧
  Split mlp_builder = Normal (after_split mlp_builder, OK) ∧
  ∀ i n, GetNode (forward_model_ (after_split mlp_builder)) i = Some n ↔
         GetNode mlp_graph i = Some n ∧ Description n ≠ "Backward pass".
Proof.
  assert (Split mlp_builder = Normal (after_split mlp_builder, OK)) as H
    by (vm_compute; reflexivity).
  split; [|split; [exact H|]].
  - apply (proj1 (Split_partitions_nodes mlp_builder mlp_graph
                    eq_refl eq_refl eq_refl)).
    + vm_compute. by eexists.
    + exact mlp_graph_args_known.
    + exact mlp_graph_outputs_not_null.
  - exact (proj1 (proj2 (Split_partitions_nodes mlp_builder mlp_graph
                           eq_refl eq_refl eq_refl) _ _ H)).
Defined.

(** C3.  Split of two resolved copies of the combined graph returns (when
    the node arguments are known and no declared output is null); the
    intermediate-tensor list then holds, without repetition, exactly the
    names that are an output of a forward node and an input of a
    backward-tagged node and are not user outputs; each of them is among the
    declared outputs of the forward graph and among the declared inputs of
    the backward graph. *)
Theorem Split_intermediates (b : ModuleGradientGraphBuilder) (g : Graph) :
  forward_model_ b = g → backward_model_ b = g → resolved g →
  (is_Some (topologicalOrder g) → args_known g →
   (∀ o, o ∈ graph_outputs_ g → is_Some o) →
   ∃ b', Split b = Normal (b', OK)) ∧
  (∀ b' st,
     Split b = Normal (b', st) →
     (∀ x, x ∈ intermediate_tensor_names (split_graphs_info_ b') ↔
           forward_output g x ∧ backward_input g x ∧
           x ∉ user_output_names (split_graphs_info_ b)) ∧
     NoDup (intermediate_tensor_names (split_graphs_info_ b')) ∧
     (∀ x, x ∈ intermediate_tensor_names (split_graphs_info_ b') →
           Some x ∈ graph_outputs_ (forward_model_ b') ∧
           Some x ∈ graph_inputs_ (backward_model_ b'))).
Proof.
  intros Hf Hb Hres. split.
  { intros Htopo Hknown Houts. by apply (Split_defined b g). }
  intros b' st H.
  apply Split_inv in H
    as (order & order_b & sc & Ho & Hob & Hsc & _ & _ & Hint & (pre & Hfo)
        & (pre' & post & Hbi) & Hdom).
  rewrite Hf in *.
  apply split_scan_fold in Hsc as (_ & Hout & Hin). simpl in Hout, Hin.
  split_and!.
  - intros x. rewrite Hint, list_elem_of_filter, elem_of_elements, elem_of_filter.
    rewrite Hout, Hin. unfold forward_output, backward_input. split.
    + intros (Hnu & [Hempty|(j & m & _ & Hm & Hmb & Hx)]
                & [Hempty'|(i & n & _ & Hn & Hnb & Hx')]);
        [by apply not_elem_of_empty in Hempty..|
         by apply not_elem_of_empty in Hempty'|].
      split_and!; [by exists i, n|by exists j, m|done].
    + intros ((i & n & Hn & Hnb & Hx) & (j & m & Hm & Hmb & Hx') & Hnu).
      split_and!; [done|right|right].
      * exists j, m. split_and!; try done. by eapply resolved_GetNode_order.
      * exists i, n. split_and!; try done. by eapply resolved_GetNode_order.
  - rewrite Hint. apply NoDup_filter, NoDup_elements.
  - intros x Hx. split.
    + rewrite Hfo. apply elem_of_app. right. apply list_elem_of_fmap.
      exists x. split; [|done]. symmetry. apply GetNodeArg_Some.
      split; [done|]. by apply Hdom.
    + rewrite Hbi. apply elem_of_app. right. apply elem_of_app. left.
      by apply list_elem_of_fmap_2.
Qed.

(** Witness for C3: the two-layer model; its intermediate tensors are the
    activations h and r. *)
Lemma Split_intermediates_witness :
  (∃ b', Split mlp_builder = Normal (b', OK)) ∧
  Split mlp_builder = Normal (after_split mlp_builder, OK) ∧
  (∀ x, x ∈ intermediate_tensor_names
              (split_graphs_info_ (after_split mlp_builder)) ↔
        forward_output mlp_graph x ∧ backward_input mlp_graph x ∧
        x ∉ user_output_names (split_graphs_info_ mlp_builder)) ∧
  list_to_set (intermediate_tensor_names
                 (split_graphs_info_ (after_split mlp_builder)))
  = ({[ "h"; "r" ]} : gset string).
Proof.
  assert (Split mlp_builder = Normal (after_split mlp_builder, OK)) as H
    by (vm_compute; reflexivity).
  split; [|split; [exact H|split]].
  - apply (proj1 (Split_intermediates mlp_builder mlp_graph
                    eq_refl eq_refl eq_refl)).
    + vm_compute. by eexists.
    + exact mlp_graph_args_known.
    + exact mlp_graph_outputs_not_null.
  - exact (proj1 (proj2 (Split_intermediates mlp_builder mlp_graph
                           eq_refl eq_refl eq_refl) _ _ H)).
  - vm_compute. reflexivity.
Defined.

(** ** AddYieldOp *)

Lemma string_length_app (a b : string) :
  String.length (a +:+ b) = String.length a + String.length b.
Proof. induction a as [|c a IH]; simpl; [done|]. by rewrite IH. Qed.

Lemma string_app_inj_r (t a b : string) : a +:+ t = b +:+ t → a = b.
Proof.
  revert b. induction a as [|c a IH]; intros [|d b] H.
  - done.
  - apply (f_equal String.length) in H.
    rewrite !string_length_app in H. cbn [String.length] in H. lia.
  - apply (f_equal String.length) in H.
    rewrite !string_length_app in H. cbn [String.length] in H. lia.
  - simpl in H. injection H as -> H. f_equal. by apply IH.
Qed.

Lemma grad_of_inj : Inj (=) (=) grad_of.
Proof. intros a b. apply string_app_inj_r. Qed.

(** The map built by the loop of lines 379-383. *)
Lemma grad_name_map_lookup (inits : list string) (m0 : gmap string string)
    (w : string) :
  w ∈ inits →
  foldl (λ m initializer_name, <[grad_of initializer_name := initializer_name]> m)
        m0 inits !! grad_of w = Some w.
Proof.
  revert m0. induction inits as [|v inits IH] using rev_ind; intros m0 Hw.
  - by apply elem_of_nil in Hw.
  - rewrite foldl_app. simpl. destruct (decide (v = w)) as [->|Hne].
    + by rewrite lookup_insert_eq.
    + rewrite lookup_insert_ne by (intros ?%grad_of_inj; done).
      apply IH. apply elem_of_app in Hw as [?|Hw]; [done|].
      by apply list_elem_of_singleton in Hw.
Qed.

Lemma add_grad_yield_inv (grad_names : list string) (m : gmap string string)
    (g g' : Graph) (ord ord' : list string) (name : string) :
  add_grad_yield grad_names m (g, ord) name = Normal (g', ord') →
  if decide (name ∈ grad_names)
  then nodes_appended g g' [grad_yield_node name] ∧
       ord' = ord ++ [default "" (m !! name)]
  else g' = g ∧ ord' = ord.
Proof.
  unfold add_grad_yield. destruct (decide (name ∈ grad_names)); [|by intros [= <- <-]].
  intros H. inv_bind in H as st Hadd. destruct st as [g1 r]. simpl in Hadd.
  unfold AddNode in Hadd. inv_bind in Hadd as ins Hins.
  apply deref_Normal in Hins. unfold GetNodeArg in Hins. simpl in Hins.
  destruct (decide (name ∈ dom (node_args_ g))); [|done].
  simpl in Hins. inversion Hins; subst ins. clear Hins.
  simpl in Hadd. inversion Hadd; subst g1 r. clear Hadd.
  inversion H; subst g' ord'. clear H. split; [|done].
  unfold nodes_appended, AddAttribute, update_node. simpl.
  rewrite alter_app_r_alt by done. rewrite Nat.sub_diag. simpl.
  split_and!; try done. lia.
Qed.

Lemma add_grad_yield_fold (grad_names : list string) (m : gmap string string)
    (outs : list string) (g g' : Graph) (ord ord' : list string) :
  foldO (add_grad_yield grad_names m) (g, ord) outs = Normal (g', ord') →
  nodes_appended g g' (grad_yield_node <$> filter (λ x, x ∈ grad_names) outs) ∧
  ord' = ord ++ ((λ x, default "" (m !! x)) <$> filter (λ x, x ∈ grad_names) outs).
Proof.
  revert g ord. induction outs as [|x outs IH]; intros g ord H; simpl in H.
  - inversion H; subst. rewrite app_nil_r. split; [apply nodes_appended_refl|done].
  - inv_bind in H as st Hstep. destruct st as [g1 ord1].
    apply add_grad_yield_inv in Hstep. apply IH in H as [Happ ->].
    rewrite filter_cons. destruct (decide (x ∈ grad_names)).
    + destruct Hstep as [Happ1 ->]. rewrite !fmap_cons, <- (assoc_L (++)).
      split; [|done].
      apply (nodes_appended_trans _ _ _ [grad_yield_node x] _ Happ1 Happ).
    + by destruct Hstep as [-> ->].
Qed.

Lemma nodes_appended_outputs_at (g g' : Graph) (new : list Node) (i : NodeIndex) :
  nodes_appended g g' new → is_Some (GetNode g i) →
  GetNode g' i = GetNode g i.
Proof.
  intros Happ [n Hn]. rewrite Hn. by eapply nodes_appended_GetNode.
Qed.

Lemma add_grad_yields_fold (grad_names : list string) (m : gmap string string)
    (g0 : Graph) (order : list NodeIndex) (new0 : list Node)
    (g g' : Graph) (ord ord' : list string) :
  (∀ i, i ∈ order → is_Some (GetNode g0 i)) →
  nodes_appended g0 g new0 →
  foldO (add_grad_yields grad_names m) (g, ord) order = Normal (g', ord') →
  nodes_appended g g'
    (grad_yield_node <$> filter (λ x, x ∈ grad_names) (produced_outputs g0 order)) ∧
  ord' = ord ++ ((λ x, default "" (m !! x)) <$>
                   filter (λ x, x ∈ grad_names) (produced_outputs g0 order)).
Proof.
  revert new0 g ord. induction order as [|i order IH]; intros new0 g ord Hlive Hg H;
    simpl in H.
  - inversion H; subst. rewrite app_nil_r. split; [apply nodes_appended_refl|done].
  - inv_bind in H as st Hstep. destruct st as [g1 ord1].
    unfold add_grad_yields in Hstep. inv_bind in Hstep as n Hn.
    apply deref_Normal in Hn. simpl in Hn, Hstep.
    rewrite (nodes_appended_outputs_at g0 g new0 i Hg) in Hn
      by (apply Hlive; by left).
    apply add_grad_yield_fold in Hstep as [Happ1 ->].
    eapply IH in H as [Happ ->].
    + unfold produced_outputs. rewrite bind_cons. fold (produced_outputs g0 order).
      assert (outputs_at g0 i = OutputDefs n) as ->
        by (unfold outputs_at; by rewrite Hn).
      rewrite !filter_app, !fmap_app, <- (assoc_L (++)). split; [|done].
      apply (nodes_appended_trans _ _ _ _ _ Happ1 Happ).
    + intros j Hj. apply Hlive. by right.
    + apply (nodes_appended_trans _ _ _ _ _ Hg Happ1).
Qed.

Lemma bind_ext_in {A B} (f f' : A → list B) (l : list A) :
  (∀ x, x ∈ l → f x = f' x) → l ≫= f = l ≫= f'.
Proof.
  induction l as [|x l IH]; intros Hf; [done|]. rewrite !bind_cons.
  rewrite (Hf x) by (by left). f_equal. apply IH. intros y Hy. apply Hf. by right.
Qed.

Lemma bind_filter_nil {A B} (P : A → Prop) `{!∀ x, Decision (P x)}
    (f : A → list B) (l : list A) :
  (∀ x, ¬ P x → f x = []) → filter P l ≫= f = l ≫= f.
Proof.
  intros Hf. induction l as [|x l IH]; [done|]. rewrite filter_cons, bind_cons.
  destruct (decide (P x)) as [Hx|Hx].
  - by rewrite bind_cons, IH.
  - by rewrite IH, (Hf x Hx).
Qed.

Lemma bind_seq_lookup {A B} (F : option A → list B) (l : list A) (k : nat) :
  F None = [] →
  (Some <$> l) ≫= F = seq k (length l) ≫= (λ i, F (l !! (i - k))).
Proof.
  intros HF. revert k. induction l as [|x l IH]; intros k; [done|].
  simpl length. rewrite fmap_cons. cbn [seq]. rewrite !bind_cons.
  rewrite Nat.sub_diag. simpl. f_equal. rewrite (IH (S k)).
  apply bind_ext_in. intros i [Hi _]%elem_of_seq.
  replace (i - k) with (S (i - S k)) by lia. done.
Qed.

(** The outputs of all nodes, listed by node index. *)
Lemma all_outputs_nodes (g : Graph) :
  all_outputs (nodes_ g)
  = all_nodes g ≫= (λ i, from_option OutputDefs [] (GetNode g i)).
Proof.
  unfold all_nodes. rewrite bind_filter_nil.
  - unfold all_outputs, GetNode.
    transitivity ((Some <$> nodes_ g) ≫=
                    (λ o, from_option OutputDefs [] (mjoin o))).
    + generalize (nodes_ g). intros l. induction l as [|[n|] l IH]; [done|..];
        rewrite fmap_cons, !bind_cons, IH; done.
    + rewrite (bind_seq_lookup _ (nodes_ g) 0) by done.
      apply bind_ext_in. intros i _. by rewrite Nat.sub_0_r.
  - intros i Hi. destruct (GetNode g i); [|done]. destruct Hi. by eexists.
Qed.

Lemma produced_outputs_NoDup (g : Graph) (order : list NodeIndex) :
  topologicalOrder g = Some order →
  NoDup (all_outputs (nodes_ g)) → NoDup (produced_outputs g order).
Proof.
  intros Htopo. rewrite all_outputs_nodes.
  destruct (topologicalOrder_spec g order Htopo) as (_ & Hperm & _).
  rewrite <- Hperm. unfold produced_outputs.
  rewrite (bind_ext_in (λ i, outputs_at g i)
             (λ i, from_option OutputDefs [] (GetNode g i)) order); [done|].
  intros i Hi. apply (topologicalOrder_elem_of g order i Htopo) in Hi as [n Hn].
  unfold outputs_at. by rewrite Hn.
Qed.

Lemma elem_of_produced_outputs (g : Graph) (order : list NodeIndex) (x : string) :
  topologicalOrder g = Some order →
  x ∈ produced_outputs g order ↔
  ∃ i n, GetNode g i = Some n ∧ x ∈ OutputDefs n.
Proof.
  intros Htopo. unfold produced_outputs. rewrite list_elem_of_bind. split.
  - intros (i & Hx & Hi).
    apply (topologicalOrder_elem_of g order i Htopo) in Hi as [n Hn].
    exists i, n. split; [done|]. unfold outputs_at in Hx.
    by rewrite Hn in Hx.
  - intros (i & n & Hn & Hx). exists i. split.
    + unfold outputs_at. by rewrite Hn.
    + apply (topologicalOrder_elem_of g order i Htopo). by eexists.
Qed.

Lemma AddNode_inv (g g' : Graph) (name op description domain : string)
    (ins outs : list (option string)) (attrs : gmap string Z) (r : NodeIndex) :
  AddNode g name op description ins outs attrs domain = Normal (g', r) →
  ∃ n, nodes_appended g g' [n] ∧ Name n = name ∧ OpType n = op.
Proof.
  unfold AddNode. intros H. inv_bind in H as i Hi. inv_bind in H as o Ho.
  inversion H; subst g' r. clear H. eexists. split.
  - unfold nodes_appended. simpl. split_and!; try done. lia.
  - done.
Qed.
Lemma foldO_defined_inv {A B} (I : A → Prop) (f : A → B → Outcome A)
    (l : list B) (a : A) :
  I a →
  (∀ a b, I a → b ∈ l → ∃ a', f a b = Normal a' ∧ I a') →
  ∃ r, foldO f a l = Normal r ∧ I r.
Proof.
  revert a. induction l as [|b l IH]; intros a Ha Hf; simpl; [by eauto|].
  destruct (Hf a b Ha) as (a' & -> & Ha'); [by left|]. simpl.
  apply IH; [done|]. intros ?? ??. apply Hf; [done|by right].
Qed.

Lemma mapM_GetNodeArg (g : Graph) (l : list string) :
  (∀ x, x ∈ l → x ∈ dom (node_args_ g)) →
  mapM id (GetNodeArg g <$> l) = Some l.
Proof.
  intros H. rewrite <- (mapM_id_Some l). f_equal.
  apply list_fmap_ext. intros k x Hx. unfold GetNodeArg.
  rewrite decide_True; [done|]. apply H. by eapply list_elem_of_lookup_2.
Qed.

Lemma collect_output_grads_defined (g : Graph) (s : gset string)
    (order : list NodeIndex) :
  (∀ i, i ∈ order → ∃ n, GetNode g i = Some n) →
  is_Normal (collect_output_grads g s order).
Proof.
  intros Hlive. unfold collect_output_grads. apply foldO_defined.
  intros acc i Hi. destruct (Hlive i Hi) as [n ->]. by eexists.
Qed.

Lemma add_grad_yield_defined (grad_names : list string)
    (m : gmap string string) (g : Graph) (ord : list string) (name : string) :
  name ∈ dom (node_args_ g) →
  is_Normal (add_grad_yield grad_names m (g, ord) name).
Proof.
  intros Hdom. unfold add_grad_yield. destruct (decide _); [|by eexists].
  unfold AddNode, GetNodeArg. cbn [fst snd]. rewrite decide_True by done.
  simpl. by eexists.
Qed.

(** AddYieldOp returns on a graph that has a topological order, whose node
    arguments are all known, when the user outputs and their gradients are
    node arguments of the graph. *)
Lemma AddYieldOp_defined (b : ModuleGradientGraphBuilder) :
  is_Some (topologicalOrder (gradient_model_ b)) →
  args_known (gradient_model_ b) →
  (∀ u, u ∈ user_output_names (split_graphs_info_ b) →
        u ∈ dom (node_args_ (gradient_model_ b)) ∧
        grad_of u ∈ dom (node_args_ (gradient_model_ b))) →
  is_Normal (AddYieldOp b).
Proof.
  intros [order Htopo] Hknown Huser. unfold AddYieldOp. cbv zeta.
  unfold GetNodesInTopologicalOrder. rewrite Htopo.
  cbn [deref mbind Outcome_bind].
  assert (∀ i, i ∈ order → ∃ n, GetNode (gradient_model_ b) i = Some n) as Hlive.
  { intros i Hi.
    by apply (topologicalOrder_elem_of _ order i Htopo) in Hi as [n Hn];
      exists n. }
  match goal with
  | |- context [collect_output_grads ?g ?s ?o] =>
    destruct (collect_output_grads_defined g s o Hlive) as [nb Hnb]
  end.
  rewrite Hnb. cbn [mbind Outcome_bind]. simpl.
  unfold AddNode at 1.
  rewrite mapM_GetNodeArg.
  2:{ intros x (u & -> & Hu)%list_elem_of_fmap.
      apply list_elem_of_filter in Hu as [_ Hu]. by apply Huser. }
  rewrite mapM_GetNodeArg.
  2:{ intros x [Hx|Hx]%elem_of_app;
        apply list_elem_of_filter in Hx as [_ Hx]; by apply Huser. }
  cbn [deref mbind Outcome_bind].
  match goal with
  | |- context [foldO (add_grad_yields ?gn ?m) (?g1, ?ord) order] =>
    destruct (foldO_defined_inv
                (λ st, ∃ new, nodes_appended (gradient_model_ b) st.1 new)
                (add_grad_yields gn m) order (g1, ord)) as ([g2 ord2] & -> & _)
  end.
  - eexists [_]. unfold nodes_appended. simpl. split_and!; try done. lia.
  - intros [cur ord] i [new Hcur] Hi. destruct (Hlive i Hi) as [n Hn].
    unfold add_grad_yields. simpl in Hcur. cbn [fst snd].
    rewrite (nodes_appended_GetNode _ _ _ _ _ Hcur Hn).
    cbn [deref mbind Outcome_bind].
    apply foldO_defined_inv; [by eexists|].
    intros [cur' ord'] x [new' Hcur'] Hx. simpl in Hcur'.
    match goal with
    | |- ∃ _, add_grad_yield ?gn ?m _ _ = _ ∧ _ =>
      destruct (add_grad_yield_defined gn m cur' ord' x) as [[g3 ord3] Hst]
    end.
    { destruct Hcur' as (_ & _ & _ & _ & _ & Hsub).
      eapply (subseteq_dom _ _ Hsub), Hknown; [exact Hn|].
      apply elem_of_app. by right. }
    exists (g3, ord3). split; [done|]. simpl.
    apply add_grad_yield_inv in Hst. destruct (decide _).
    + destruct Hst as [Happ _]. eexists.
      eapply nodes_appended_trans; [exact Hcur'|exact Happ].
    + destruct Hst as [-> _]. by eexists.
  - by eexists.
Qed.

(** X19.  The hand-off nodes of the initializer gradients.  AddYieldOp
    returns on a graph with a topological order whose node arguments are
    known.  After the hand-off node YieldOp_fw_op, one hand-off node is
    appended per trainable-initializer gradient met among the outputs of
    the nodes visited in topological order; it is a Yield node whose sole
    input is that gradient and whose push_input attribute is 1.  The
    initializer names recorded during the visit are appended to the
    ordered-initializer list, which is not cleared, and the list is then
    reversed: only for a builder whose list was empty is the recorded list,
    read as gradient names, the reverse of the order in which the gradients
    were met.  The gradients met are those of the trainable initializers
    that some node of the graph produces, each once when no two outputs
    share a name. *)
Theorem AddYieldOp_initializer_yields
    (b : ModuleGradientGraphBuilder) (order : list NodeIndex) :
  topologicalOrder (gradient_model_ b) = Some order →
  (args_known (gradient_model_ b) →
   (∀ u, u ∈ user_output_names (split_graphs_info_ b) →
         u ∈ dom (node_args_ (gradient_model_ b)) ∧
         grad_of u ∈ dom (node_args_ (gradient_model_ b))) →
   is_Normal (AddYieldOp b)) ∧
  (∀ b',
     AddYieldOp b = Normal b' →
     (∃ fw, nodes_ (gradient_model_ b')
            = nodes_ (gradient_model_ b) ++
              Some fw ::
              (Some <$> (grad_yield_node <$> encountered_grads b order)) ∧
            Name fw = "YieldOp_fw_op" ∧ OpType fw = "Yield") ∧
     (∃ ws, grad_of <$> ws = encountered_grads b order ∧
            ordered_initializer_names (split_graphs_info_ b')
            = reverse (ordered_initializer_names (split_graphs_info_ b) ++ ws)) ∧
     (ordered_initializer_names (split_graphs_info_ b) = [] →
      grad_of <$> ordered_initializer_names (split_graphs_info_ b')
      = reverse (encountered_grads b order))) ∧
  (∀ x, x ∈ encountered_grads b order ↔
        x ∈ grad_of <$> initializer_names_to_train (split_graphs_info_ b) ∧
        ∃ i n, GetNode (gradient_model_ b) i = Some n ∧ x ∈ OutputDefs n) ∧
  (NoDup (all_outputs (nodes_ (gradient_model_ b))) →
   NoDup (encountered_grads b order)).
Proof.
  intros Htopo. split; [|split; [|split]].
  - intros Hknown Huser. by apply AddYieldOp_defined.
  - intros b' H. unfold AddYieldOp in H. cbv zeta in H.
    unfold GetNodesInTopologicalOrder in H. rewrite Htopo in H.
    cbn [deref mbind Outcome_bind] in H.
    inv_bind in H as nb Hnb. inv_bind in H as st1 Hadd. destruct st1 as [g1 r1].
    inv_bind in H as st2 Hfold. destruct st2 as [g2 ord2].
    inversion H; subst b'. clear H. simpl in *.
    apply AddNode_inv in Hadd as (fw & Happ1 & Hname & Hop).
    eapply (add_grad_yields_fold _ _ (gradient_model_ b)) in Hfold
      as [Happ2 ->]; [|
      intros i Hi;
      apply (topologicalOrder_elem_of _ order i Htopo) in Hi as [n ->];
      by eexists |
      exact Happ1].
    fold (encountered_grads b order) in *.
    set (e := encountered_grads b order) in *.
    set (m := foldl (λ m initializer_name,
                       <[grad_of initializer_name := initializer_name]> m) ∅
                    (initializer_names_to_train (split_graphs_info_ b))) in *.
    assert (grad_of <$> ((λ x, default "" (m !! x)) <$> e) = e) as Hws.
    { apply list_eq. intros k. rewrite !list_lookup_fmap.
      destruct (e !! k) as [x|] eqn:E; [|done]. simpl. f_equal.
      apply list_elem_of_lookup_2 in E. unfold e, encountered_grads in E.
      apply list_elem_of_filter in E as [Hx _].
      apply list_elem_of_fmap in Hx as (w & -> & Hw).
      unfold m. by rewrite (grad_name_map_lookup _ ∅ w Hw). }
    split_and!.
    + exists fw. split; [|done].
      destruct Happ2 as (-> & _). destruct Happ1 as (-> & _).
      by rewrite <- (assoc_L (++)).
    + eexists. split; [exact Hws|done].
    + intros ->. simpl. by rewrite fmap_reverse, Hws.
  - intros x. unfold encountered_grads. rewrite list_elem_of_filter.
    by rewrite (elem_of_produced_outputs _ order x Htopo).
  - intros Hnd. unfold encountered_grads. apply NoDup_filter.
    by apply produced_outputs_NoDup.
Qed.

(** Witness for X19: the two-layer model.  The gradient of w2 is met before
    the gradient of w1; the recorded list is w1, w2. *)
Lemma AddYieldOp_initializer_yields_witness :
  is_Normal (AddYieldOp mlp_builder) ∧
  AddYieldOp mlp_builder = Normal (after_yield mlp_builder) ∧
  encountered_grads mlp_builder [0; 1; 2; 3; 4; 5; 6] = ["w2_grad"; "w1_grad"] ∧
  ordered_initializer_names (split_graphs_info_ (after_yield mlp_builder))
  = ["w1"; "w2"] ∧
  grad_of <$> ordered_initializer_names
                (split_graphs_info_ (after_yield mlp_builder))
  = reverse (encountered_grads mlp_builder [0; 1; 2; 3; 4; 5; 6]).
Proof.
  assert (topologicalOrder (gradient_model_ mlp_builder)
          = Some [0; 1; 2; 3; 4; 5; 6]) as Htopo by (vm_compute; reflexivity).
  assert (AddYieldOp mlp_builder = Normal (after_yield mlp_builder)) as Hyield
    by (vm_compute; reflexivity).
  split.
  { apply (proj1 (AddYieldOp_initializer_yields mlp_builder _ Htopo)).
    - exact mlp_graph_args_known.
    - intros u Hu. cbn in Hu. apply list_elem_of_singleton in Hu as ->.
      split; apply elem_of_dom; vm_compute; by eexists. }
  split; [exact Hyield|]. split; [vm_compute; reflexivity|].
  split; [vm_compute; reflexivity|].
  exact (proj2 (proj2 (proj1 (proj2 (AddYieldOp_initializer_yields
                                       mlp_builder _ Htopo))
                              _ Hyield)) eq_refl).
Defined.

(** C8.  AddYieldOp clears the other lists it fills, but not the
    ordered-initializer list.  When Build is called a second time on the
    builder of the two-layer model, the list still holds w1, w2; the names
    met, w2 then w1, are appended to it and the reversed list is w1, w2,
    w2, w1, which is not the reverse of the order in which the gradients
    were met. *)
Lemma AddYieldOp_keeps_recorded_names :
  ordered_initializer_names (split_graphs_info_ rebuilt_mlp_builder)
  = ["w1"; "w2"] ∧
  topologicalOrder (gradient_model_ rebuilt_mlp_builder)
  = Some [0; 1; 2; 3; 4; 5; 6] ∧
  encountered_grads rebuilt_mlp_builder [0; 1; 2; 3; 4; 5; 6]
  = ["w2_grad"; "w1_grad"] ∧
  AddYieldOp rebuilt_mlp_builder = Normal (after_yield rebuilt_mlp_builder) ∧
  ordered_initializer_names
    (split_graphs_info_ (after_yield rebuilt_mlp_builder))
  = ["w1"; "w2"; "w2"; "w1"] ∧
  grad_of <$> ordered_initializer_names
                (split_graphs_info_ (after_yield rebuilt_mlp_builder))
  ≠ reverse (encountered_grads rebuilt_mlp_builder [0; 1; 2; 3; 4; 5; 6]).
Proof. split_and!; [vm_compute; reflexivity..|vm_compute; discriminate]. Qed.

(** * Further properties of the code *)

(** ** Span extraction: paths, boundaries, missing references *)

Lemma tc_Edge_flip (g : Graph) (x y : NodeIndex) :
  tc (Edge g) y x → tc (λ a b, Edge g b a) x y.
Proof.
  induction 1 as [y x He|y w x He _ IH]; [by apply tc_once|].
  eapply tc_r; [exact IH|exact He].
Qed.

(** Membership in a span that was returned, on any graph. *)
Lemma NodesBetweenEdges_elem (g : Graph) (start end_ : string)
    (end_node : NodeIndex) (l : list NodeIndex) (x : NodeIndex) :
  GetProducerNode g end_ = Some end_node →
  NodesBetweenEdges g start end_ = Normal l →
  x ∈ l ↔ forward_reachable g start x ∧ tc (Edge g) x end_node.
Proof.
  intros Hend Hl.
  destruct (NodesBetweenEdges_defined g start end_ end_node Hend)
    as (fw & bw & Hfw & Hbw & Heq).
  rewrite Heq in Hl. inversion Hl; subst l. clear Hl.
  rewrite list_elem_of_filter, elem_of_NodeSet_iter.
  rewrite (forward_bfs g start _ fw Hfw), (backward_bfs g end_node _ bw Hbw).
  split.
  - intros [Hb Hf]. split; [done|]. by apply tc_flip_Edge.
  - intros [Hf Hb]. split; [|done]. by apply tc_Edge_flip.
Qed.

Lemma NodesBetweenEdges_producer (g : Graph) (start end_ : string)
    (l : list NodeIndex) :
  NodesBetweenEdges g start end_ = Normal l → is_Some (GetProducerNode g end_).
Proof.
  unfold NodesBetweenEdges. intros H. inv_bind in H as fw Hfw.
  inv_bind in H as e He. apply deref_Normal in He. by eexists.
Qed.

(** The producer of a reference feeds each of its consumers. *)
Lemma producer_consumer_Edge (g : Graph) (a : string) (s c : NodeIndex) :
  GetProducerNode g a = Some s → c ∈ GetConsumerNodes g a → Edge g s c.
Proof.
  intros Hs Hc. unfold GetConsumerNodes in Hc.
  apply list_elem_of_filter in Hc as [Hc _].
  unfold Edge, edge_count. destruct (linked_node g c) as [n|]; [|done].
  simpl in Hc. intros Hlen. apply length_zero_iff_nil in Hlen.
  assert (a ∈ filter (λ a, GetProducerNode g a = Some s) (InputDefs n)) as Hin
    by (by apply list_elem_of_filter).
  rewrite Hlen in Hin. by apply elem_of_nil in Hin.
Qed.

(** X1.  A span is convex: a node that lies on a path from one node of the
    span to another node of the span is in the span. *)
Theorem NodesBetweenEdges_convex (g : Graph) (start end_ : string)
    (l : list NodeIndex) (x y z : NodeIndex) :
  NodesBetweenEdges g start end_ = Normal l →
  x ∈ l → z ∈ l → rtc (Edge g) x y → rtc (Edge g) y z → y ∈ l.
Proof.
  intros Hl Hx Hz Hxy Hyz.
  destruct (NodesBetweenEdges_producer g start end_ l Hl) as [e He].
  apply (NodesBetweenEdges_elem g start end_ e l _ He Hl) in Hx as [Hfx _].
  apply (NodesBetweenEdges_elem g start end_ e l _ He Hl) in Hz as [_ Hze].
  apply (NodesBetweenEdges_elem g start end_ e l _ He Hl). split.
  - destruct Hfx as (c & Hc & Hcx). exists c. split; [done|]. by etrans.
  - by eapply tc_rtc_l.
Qed.

(** Witness for X1: the span of the layer template graph. *)
Lemma NodesBetweenEdges_convex_witness :
  NodesBetweenEdges layer_graph "b" "e" = Normal [1; 2; 3] ∧ 2 ∈ [1; 2; 3].
Proof.
  assert (NodesBetweenEdges layer_graph "b" "e" = Normal [1; 2; 3]) as H
    by (vm_compute; reflexivity).
  split; [exact H|].
  apply (NodesBetweenEdges_convex layer_graph "b" "e" [1; 2; 3] 1 2 3 H).
  - repeat constructor.
  - repeat constructor.
  - apply rtc_once. vm_compute. discriminate.
  - apply rtc_once. vm_compute. discriminate.
Defined.

(** X2.  On a graph that has a topological order a span lies strictly
    between its two boundaries: it holds neither the producer of the end
    reference nor anything downstream of it, and neither the producer of
    the start reference nor anything upstream of it. *)
Theorem NodesBetweenEdges_between_boundaries (g : Graph) (start end_ : string)
    (l : list NodeIndex) :
  is_Some (topologicalOrder g) →
  NodesBetweenEdges g start end_ = Normal l →
  (∀ e x, GetProducerNode g end_ = Some e → x ∈ l → ¬ rtc (Edge g) e x) ∧
  (∀ s x, GetProducerNode g start = Some s → x ∈ l → ¬ rtc (Edge g) x s) ∧
  (∀ e, GetProducerNode g end_ = Some e → e ∉ l) ∧
  (∀ s, GetProducerNode g start = Some s → s ∉ l).
Proof.
  intros Htopo Hl.
  assert (∀ e x, GetProducerNode g end_ = Some e → x ∈ l → ¬ rtc (Edge g) e x)
    as Hend.
  { intros e x He Hx Hex.
    apply (NodesBetweenEdges_elem g start end_ e l _ He Hl) in Hx as [_ Hxe].
    apply (topologicalOrder_acyclic g e Htopo). by eapply tc_rtc_l. }
  assert (∀ s x, GetProducerNode g start = Some s → x ∈ l → ¬ rtc (Edge g) x s)
    as Hstart.
  { intros s x Hs Hx Hxs.
    destruct (NodesBetweenEdges_producer g start end_ l Hl) as [e He].
    apply (NodesBetweenEdges_elem g start end_ e l _ He Hl) in Hx
      as [(c & Hc & Hcx) _].
    apply (topologicalOrder_acyclic g s Htopo).
    eapply tc_rtc_r; [|exact Hxs]. eapply tc_rtc_r; [|exact Hcx].
    apply tc_once. by eapply producer_consumer_Edge. }
  split_and!; [done|done| |].
  - intros e He Hin. by apply (Hend e e He Hin).
  - intros s Hs Hin. by apply (Hstart s s Hs Hin).
Qed.

(** Witness for X2: the span of the layer template graph holds neither
    ln0 (node 0) nor ln1 (node 5). *)
Lemma NodesBetweenEdges_between_boundaries_witness :
  NodesBetweenEdges layer_graph "b" "e" = Normal [1; 2; 3] ∧
  (5 ∉ [1; 2; 3]) ∧ (0 ∉ [1; 2; 3]).
Proof.
  assert (NodesBetweenEdges layer_graph "b" "e" = Normal [1; 2; 3]) as H
    by (vm_compute; reflexivity).
  assert (is_Some (topologicalOrder layer_graph)) as Htopo
    by (vm_compute; by eexists).
  destruct (NodesBetweenEdges_between_boundaries layer_graph "b" "e" [1; 2; 3]
              Htopo H) as (_ & _ & He & Hs).
  split; [exact H|]. split.
  - apply He. vm_compute. reflexivity.
  - apply Hs. vm_compute. reflexivity.
Defined.

(** X3.  Missing references.  When the end reference has no producer the
    reverse traversal starts from a null node: span extraction has no
    defined result.  When nothing consumes the start reference (and the end
    reference has a producer) the span is empty. *)
Theorem NodesBetweenEdges_missing_reference (g : Graph) (start end_ : string) :
  (GetProducerNode g end_ = None →
   NodesBetweenEdges g start end_ = Undefined) ∧
  (GetConsumerNodes g start = [] → is_Some (GetProducerNode g end_) →
   NodesBetweenEdges g start end_ = Normal []).
Proof.
  split.
  - intros Hend. unfold NodesBetweenEdges.
    destruct (bfs_defined (OutputNodes g) (list_to_set (NodeIndices g))
                (bfs_fuel g (GetConsumerNodes g start)) (GetConsumerNodes g start)
                (list_to_set (GetConsumerNodes g start))) as [fw Hfw].
    { intros n m Hm%elem_of_OutputNodes. by apply Edge_in_range in Hm as [_ ?]. }
    { unfold bfs_fuel. rewrite <- size_NodeIndices.
      apply Nat.add_le_mono_l, subseteq_size. set_solver. }
    rewrite Hfw, Hend. done.
  - intros Hnone [e He].
    destruct (NodesBetweenEdges_defined g start end_ e He)
      as (fw & bw & Hfw & Hbw & ->).
    rewrite Hnone in Hfw. destruct (bfs_fuel g []); simpl in Hfw;
      inversion Hfw; subst fw; done.
Qed.

(** Witness for X3: on the chain graph, "zzz" names no reference and
    nothing consumes "d". *)
Lemma NodesBetweenEdges_missing_reference_witness :
  NodesBetweenEdges chain_graph "a" "zzz" = Undefined ∧
  NodesBetweenEdges chain_graph "d" "d" = Normal [].
Proof.
  split.
  - apply (proj1 (NodesBetweenEdges_missing_reference chain_graph "a" "zzz")).
    vm_compute. reflexivity.
  - apply (proj2 (NodesBetweenEdges_missing_reference chain_graph "d" "d")).
    + vm_compute. reflexivity.
    + vm_compute. by eexists.
Defined.

(** ** Node duplication: the duplicates *)

Lemma keeps_original_linked (g h : Graph) (initializers : gset string)
    (span : list NodeIndex) (a : string) :
  linked h = linked g →
  keeps_original h initializers span a = keeps_original g initializers span a.
Proof.
  intros Hl. unfold keeps_original.
  by rewrite (proj1 (linked_eq_queries g h Hl)).
Qed.

Lemma keeps_original_rewired (g : Graph) (span : list NodeIndex) (a : string) :
  (if keeps_original g (initializers_ g) span a then a else twin a)
  = rewired g span a.
Proof.
  unfold rewired, keeps_original.
  destruct (decide (produced_in_span g span a)) as [[Hi Hp]|Hn].
  - rewrite bool_decide_false by done. simpl.
    destruct (GetProducerNode g a) as [p|]; [|done].
    by rewrite bool_decide_false by (intros Hx; by apply Hx).
  - destruct (decide (a ∈ initializers_ g)); [by rewrite bool_decide_true|].
    rewrite bool_decide_false by done. simpl.
    destruct (GetProducerNode g a) as [p|] eqn:E; [|done].
    rewrite bool_decide_true; [done|].
    intros Hp. apply Hn. split; [done|]. by rewrite E.
Qed.

Lemma recomputed_arg_name (g : Graph) (a : string) :
  (recomputed_arg g a).2 = twin a.
Proof.
  unfold recomputed_arg, GetOrCreateNodeArg. by destruct (decide _).
Qed.

Lemma recomputed_input_exact (g : Graph) (span : list NodeIndex)
    (st : Graph * list (option string)) (a : string) :
  linked st.1 = linked g →
  (recomputed_input (initializers_ g) span st a).2
  = st.2 ++ [Some (rewired g span a)] ∧
  nodes_appended st.1 (recomputed_input (initializers_ g) span st a).1 [].
Proof.
  intros Hl. unfold recomputed_input.
  rewrite (keeps_original_linked g st.1) by done.
  rewrite <- keeps_original_rewired.
  destruct (keeps_original g (initializers_ g) span a); simpl.
  - split; [done|apply nodes_appended_refl].
  - rewrite recomputed_arg_name. split; [done|apply GetOrCreateNodeArg_appended].
Qed.

Lemma recomputed_inputs_exact (g : Graph) (span : list NodeIndex)
    (l : list string) (st : Graph * list (option string)) :
  linked st.1 = linked g →
  (foldl (recomputed_input (initializers_ g) span) st l).2
  = st.2 ++ (Some <$> (rewired g span <$> l)) ∧
  nodes_appended st.1 (foldl (recomputed_input (initializers_ g) span) st l).1 [].
Proof.
  revert st. induction l as [|a l IH]; intros st Hl; simpl.
  - rewrite app_nil_r. split; [done|apply nodes_appended_refl].
  - destruct (recomputed_input_exact g span st a Hl) as [Ha Happ].
    destruct (IH (recomputed_input (initializers_ g) span st a)) as [Hn Happ'].
    { by rewrite (nodes_appended_linked _ _ _ Happ). }
    rewrite Hn, Ha, <- (assoc_L (++)). split; [done|].
    apply (nodes_appended_trans _ _ _ [] [] Happ Happ').
Qed.

Lemma recomputed_outputs_exact (l : list string)
    (st : Graph * list (option string)) :
  (foldl recomputed_output st l).2 = st.2 ++ (Some <$> (twin <$> l)) ∧
  nodes_appended st.1 (foldl recomputed_output st l).1 [].
Proof.
  revert st. induction l as [|a l IH]; intros st; simpl.
  - rewrite app_nil_r. split; [done|apply nodes_appended_refl].
  - destruct (IH (recomputed_output st a)) as [Hn Happ'].
    rewrite Hn. unfold recomputed_output at 2. simpl.
    rewrite recomputed_arg_name, <- (assoc_L (++)). split; [done|].
    refine (nodes_appended_trans _ _ _ [] [] _ Happ').
    apply GetOrCreateNodeArg_appended.
Qed.

(** One iteration of the loop appends the duplicate of the node it visits. *)
Lemma insert_recompute_node_exact (g : Graph) (span : list NodeIndex)
    (h h1 : Graph) (i : NodeIndex) :
  linked h = linked g →
  insert_recompute_node (initializers_ g) span h i = Normal h1 →
  ∃ n r, GetNode h i = Some n ∧ duplicate_of g span n = Some r ∧
         nodes_appended h h1 [r].
Proof.
  intros Hl. unfold insert_recompute_node. intros H.
  inv_bind in H as n Hn. apply deref_Normal in Hn. exists n.
  unfold duplicate_of.
  destruct (decide (OpType n = "TrainableDropout" ∨ OpType n = "Dropout")).
  - inv_bind in H as input Hinput. inv_bind in H as mask Hmask.
    inv_bind in H as ratio Hratio. inv_bind in H as output Houtput.
    apply deref_Normal in Hinput, Hmask, Hratio, Houtput.
    rewrite Hinput, Hmask, Hratio, Houtput. simpl.
    destruct (recomputed_input_exact g span (h, []) input Hl) as [Hin Happ].
    simpl in Hin, Happ. rewrite Hin in H.
    change ([Some (rewired g span input)] ++ [Some mask; Some ratio])
      with (Some <$> [rewired g span input; mask; ratio]) in H.
    rewrite recomputed_arg_name in H.
    change [Some (twin output)] with (Some <$> [twin output]) in H.
    rewrite AddNode_SetPriority in H. inversion H; subst h1. clear H.
    eexists. split; [done|]. split; [done|].
    apply appended_one.
    apply (nodes_appended_trans _ _ _ [] [] Happ).
    apply GetOrCreateNodeArg_appended.
  - destruct (recomputed_inputs_exact g span (InputDefs n) (h, []) Hl)
      as [Hins Happ].
    set (st := foldl (recomputed_input (initializers_ g) span) (h, [])
                     (InputDefs n)) in *.
    destruct (recomputed_outputs_exact (OutputDefs n) (st.1, []))
      as [Houts Happ'].
    simpl in Hins, Houts, Happ, Happ'. rewrite Hins, Houts in H.
    rewrite AddNode_SetPriority in H. inversion H; subst h1. clear H.
    eexists. split; [done|]. split; [done|].
    apply appended_one. apply (nodes_appended_trans _ _ _ [] [] Happ Happ').
Qed.

Lemma InsertRecomputeNodes_fold_exact (g : Graph) (span nodes : list NodeIndex)
    (h h' : Graph) (old : list Node) :
  nodes_appended g h old →
  (∀ i, i ∈ nodes → is_Some (GetNode g i)) →
  foldO (insert_recompute_node (initializers_ g) span) h nodes = Normal h' →
  ∃ new, nodes_appended h h' new ∧
         Forall2 (λ i r, ∃ n, GetNode g i = Some n ∧
                              duplicate_of g span n = Some r) nodes new.
Proof.
  revert h old. induction nodes as [|i nodes IH]; intros h old Hh Hall H;
    simpl in H.
  - inversion H; subst. exists []. split; [apply nodes_appended_refl|constructor].
  - inv_bind in H as h1 Hh1.
    apply insert_recompute_node_exact in Hh1 as (n & r & Hn & Hr & Happ);
      [|by eapply nodes_appended_linked].
    destruct (IH h1 (old ++ [r])) as (new & Happ' & Hall'); [| |done|].
    { by eapply nodes_appended_trans. }
    { intros j Hj. apply Hall. by right. }
    exists ([r] ++ new). split; [by eapply nodes_appended_trans|].
    constructor; [|done]. exists n. split; [|done].
    destruct (Hall i) as [n' Hn']; [by left|].
    pose proof (nodes_appended_GetNode _ _ _ _ _ Hh Hn') as Hn''. congruence.
Qed.

(** X4.  What InsertRecomputeNodes appends.  For a span of nodes of the
    graph, the nodes appended are, in span order, the duplicates of the
    span nodes as they were when the call started: each is named after its
    original with the suffix _recompute, has priority -10 and writes the
    twins of the outputs; an input is replaced by its twin exactly when it
    is not an initializer and is produced by a node of the span; a Dropout
    or TrainableDropout node is duplicated as a TrainableDropoutGrad node
    reading the data input, the mask output and the ratio input. *)
Theorem InsertRecomputeNodes_duplicates (g : Graph) (nodes : list NodeIndex)
    (g' : Graph) :
  (∀ i, i ∈ nodes → is_Some (GetNode g i)) →
  InsertRecomputeNodes g nodes = Normal g' →
  ∃ new, nodes_ g' = nodes_ g ++ (Some <$> new) ∧
         Forall2 (λ i r, ∃ n, GetNode g i = Some n ∧
                              duplicate_of g nodes n = Some r) nodes new.
Proof.
  intros Hall H. unfold InsertRecomputeNodes in H.
  destruct (InsertRecomputeNodes_fold_exact g nodes nodes g g' []
              (nodes_appended_refl g) Hall H) as (new & Happ & Hdup).
  exists new. split; [|done]. by destruct Happ as (? & _).
Qed.

(** Witness for X4: the span Add, Gelu, Dropout of the layer template
    graph.  The duplicate of Add reads b (produced outside the span) and x;
    the duplicate of Gelu reads the twin of c; the duplicate of Dropout is a
    TrainableDropoutGrad node reading the twin of g, mask and ratio. *)
Lemma InsertRecomputeNodes_duplicates_witness :
  InsertRecomputeNodes layer_graph [1; 2; 3]
  = Normal (after_insert layer_graph [1; 2; 3]) ∧
  (∃ new, nodes_ (after_insert layer_graph [1; 2; 3])
          = nodes_ layer_graph ++ (Some <$> new) ∧
          Forall2 (λ i r, ∃ n, GetNode layer_graph i = Some n ∧
                               duplicate_of layer_graph [1; 2; 3] n = Some r)
                  [1; 2; 3] new) ∧
  drop 6 (nodes_ (after_insert layer_graph [1; 2; 3]))
  = [ Some (mkNode "add_recompute" "Add" "Recompute of add"
                   ["b"; "x"] ["c_recompute"] ∅ "" (-10));
      Some (mkNode "gelu_recompute" "Gelu" "Recompute of gelu"
                   ["c_recompute"] ["g_recompute"] ∅ "" (-10));
      Some (mkNode "drop_recompute" "TrainableDropoutGrad" "Recompute of drop"
                   ["g_recompute"; "mask"; "ratio"] ["d_recompute"]
                   ∅ kMSDomain (-10)) ].
Proof.
  assert (InsertRecomputeNodes layer_graph [1; 2; 3]
          = Normal (after_insert layer_graph [1; 2; 3])) as H
    by (vm_compute; reflexivity).
  split; [exact H|]. split; [|vm_compute; reflexivity].
  apply (InsertRecomputeNodes_duplicates layer_graph [1; 2; 3] _); [|exact H].
  intros i Hi.
  repeat (apply elem_of_cons in Hi as [->|Hi]; [vm_compute; by eexists|]).
  apply elem_of_nil in Hi. destruct Hi.
Defined.

(** ** Calls without a defined result *)

(** X5.  Boundary detection takes the first consumer of every GELU-family
    node without testing that there is one.  On a graph that has a
    topological order and whose nodes all have an output, it returns
    exactly when every GELU-family node has a consumer; otherwise an end
    iterator is dereferenced and the pass has no defined result. *)
Theorem scan_layers_defined_iff (g : Graph) :
  is_Some (topologicalOrder g) →
  (∀ j n, linked_node g j = Some n → OutputDefs n ≠ []) →
  (is_Normal (scan_layers g) ↔
   ∀ j n, GetNode g j = Some n → OpType n ∈ gelu_ops →
          OutputNodes g j ≠ []) ∧
  (¬ is_Normal (scan_layers g) → ∀ modified, ApplyImpl g modified = Undefined).
Proof.
  intros Htopo Houts. split; [split|].
  - intros [[s e] Hscan] j n Hn Hop.
    destruct Htopo as [order Htopo].
    unfold scan_layers, GetNodesInTopologicalOrder in Hscan.
    rewrite Htopo in Hscan. simpl in Hscan.
    apply scan_fold in Hscan as (_ & cs & _ & _ & _ & Hends).
    assert (j ∈ filter (is_gelu_node g) order) as Hj.
    { apply list_elem_of_filter. split.
      - by apply (is_gelu_node_iff g j n Hn).
      - apply (topologicalOrder_elem_of g order j Htopo). by eexists. }
    apply list_elem_of_lookup in Hj as [k Hk].
    destruct (Forall2_lookup_l _ _ _ _ _ Hends Hk) as (c & _ & Hc).
    unfold find_layer_end in Hc. inv_bind in Hc as first Hfirst.
    apply deref_Normal in Hfirst. unfold OutputNodesBegin in Hfirst.
    intros Hnil. by rewrite Hnil in Hfirst.
  - by apply scan_layers_defined.
  - intros Hn modified.
    pose proof (no_throw_Undefined_iff _ (no_throw_scan_layers g) Hn) as Hu.
    unfold ApplyImpl, IdentifyTransformerLayerEdges. by rewrite Hu.
Qed.

(** Witness for X5: a GELU node that nothing consumes. *)
Lemma scan_layers_defined_iff_witness :
  ¬ is_Normal (scan_layers dangling_gelu_graph) ∧
  ApplyImpl dangling_gelu_graph false = Undefined.
Proof.
  assert (is_Some (topologicalOrder dangling_gelu_graph)) as Htopo
    by (vm_compute; by eexists).
  assert (∀ j n, linked_node dangling_gelu_graph j = Some n → OutputDefs n ≠ [])
    as Houts.
  { intros j n Hn.
    do 2 (destruct j as [|j]; [vm_compute in Hn; by inversion Hn; subst n|]).
    vm_compute in Hn. discriminate. }
  pose proof (scan_layers_defined_iff dangling_gelu_graph Htopo Houts)
    as [Hiff Hundef].
  assert (¬ is_Normal (scan_layers dangling_gelu_graph)) as Hn.
  { intros Hnormal. apply (proj1 Hiff Hnormal 1 _ eq_refl).
    - vm_compute. set_solver.
    - vm_compute. reflexivity. }
  split; [exact Hn|]. by apply Hundef.
Defined.

Lemma no_throw_insert_recompute_node (initializers : gset string)
    (span : list NodeIndex) (g : Graph) (i : NodeIndex) :
  no_throw (insert_recompute_node initializers span g i).
Proof.
  unfold insert_recompute_node.
  apply no_throw_bind; [apply no_throw_deref|]. intros n _.
  destruct (decide _).
  - apply no_throw_bind; [apply no_throw_deref|]. intros input _.
    apply no_throw_bind; [apply no_throw_deref|]. intros mask _.
    apply no_throw_bind; [apply no_throw_deref|]. intros ratio _.
    apply no_throw_bind; [apply no_throw_deref|]. intros output _.
    destruct (recomputed_input_spec initializers span (g, []) input)
      as (a & Hin & _). simpl in Hin. rewrite Hin.
    change ([Some a] ++ [Some mask; Some ratio])
      with (Some <$> [a; mask; ratio]).
    match goal with |- context [AddNode ?g ?a ?b ?c _ [Some ?o] ?d ?e] =>
      change [Some o] with (Some <$> [o]) end.
    rewrite AddNode_SetPriority. apply no_throw_Normal.
  - destruct (push_args_fold (recomputed_input initializers span)
                (InputDefs n) (g, []) (recomputed_input_spec _ _))
      as (ins & Hins & _).
    set (st := foldl (recomputed_input initializers span) (g, []) (InputDefs n))
      in *.
    destruct (push_args_fold recomputed_output (OutputDefs n) (st.1, [])
                recomputed_output_spec) as (outs & Houts & _).
    simpl in Hins, Houts. rewrite Hins, Houts.
    rewrite AddNode_SetPriority. apply no_throw_Normal.
Qed.

(** X6.  InsertRecomputeNodes indexes the first two inputs and the first
    two outputs of a Dropout or TrainableDropout node without testing that
    they are there.  For a span of nodes of the graph it returns exactly
    when every such node of the span has at least two inputs and two
    outputs; otherwise an index is out of range and the call has no defined
    result. *)
Theorem InsertRecomputeNodes_defined_iff (g : Graph) (nodes : list NodeIndex) :
  (∀ i, i ∈ nodes → is_Some (GetNode g i)) →
  (is_Normal (InsertRecomputeNodes g nodes) ↔
   ∀ i n, i ∈ nodes → GetNode g i = Some n → arity_ok n) ∧
  (¬ is_Normal (InsertRecomputeNodes g nodes) →
   InsertRecomputeNodes g nodes = Undefined).
Proof.
  intros Hall. unfold InsertRecomputeNodes. split; [split|].
  - intros [g' Hg'] i n Hi Hn. by eapply InsertRecomputeNodes_arity.
  - intros Har. apply InsertRecomputeNodes_fold_defined. intros i Hi.
    destruct (Hall i Hi) as [n Hn]. exists n. split; [done|]. by eapply Har.
  - apply no_throw_Undefined_iff, no_throw_foldO. intros h i.
    apply no_throw_insert_recompute_node.
Qed.

(** Witness for X6: a Dropout node with one input and one output. *)
Lemma InsertRecomputeNodes_defined_iff_witness :
  InsertRecomputeNodes short_dropout_graph [1] = Undefined.
Proof.
  assert (∀ i, i ∈ [1] → is_Some (GetNode short_dropout_graph i)) as Hall.
  { intros i Hi. apply list_elem_of_singleton in Hi as ->.
    vm_compute. by eexists. }
  apply (proj2 (InsertRecomputeNodes_defined_iff short_dropout_graph [1] Hall)).
  intros Hnormal.
  pose proof (proj1 (proj1 (InsertRecomputeNodes_defined_iff
                              short_dropout_graph [1] Hall))
                Hnormal 1 _ ltac:(set_solver) eq_refl) as Har.
  destruct Har as [Hin _]; [by right|]. vm_compute in Hin. lia.
Defined.

(** ** The pass as a whole *)

Lemma same_view_duplicate_of (g h : Graph) (span : list NodeIndex) (n : Node) :
  same_view g h → duplicate_of h span n = duplicate_of g span n.
Proof.
  intros (Hl & Hi & _).
  assert (∀ a, rewired h span a = rewired g span a) as Hrw.
  { intros a.
    assert (produced_in_span h span a ↔ produced_in_span g span a) as Hiff.
    { unfold produced_in_span.
      by rewrite Hi, (proj1 (linked_eq_queries g h Hl)). }
    unfold rewired. destruct (decide _) as [Hp|Hp], (decide _) as [Hq|Hq];
      try done; [by apply Hiff in Hp|by apply Hiff in Hq]. }
  assert (rewired h span <$> InputDefs n = rewired g span <$> InputDefs n)
    as Hmap by (apply list_fmap_ext; intros ???; apply Hrw).
  unfold duplicate_of. destruct (decide _); [|by rewrite Hmap].
  destruct (InputDefs n !! 0) as [input|]; [|done]. simpl. by rewrite Hrw.
Qed.

Lemma Forall2_impl_elem {A B} (P Q : A → B → Prop) (l : list A) (k : list B) :
  Forall2 P l k → (∀ x y, x ∈ l → P x y → Q x y) → Forall2 Q l k.
Proof.
  induction 1 as [|x y l k Hxy _ IH]; intros HPQ; constructor.
  - apply HPQ; [by left|done].
  - apply IH. intros ?? Hin. apply HPQ. by right.
Qed.

(** One layer: the span is the one of the graph the pass started from, and
    the nodes appended are its duplicates. *)
Lemma recompute_layer_exact (g h h1 : Graph) (se : string * string) :
  same_view g h →
  recompute_layer h se = Normal h1 →
  ∃ span new, NodesBetweenEdges g se.1 se.2 = Normal span ∧
              span_duplicates g span = Some new ∧
              nodes_appended h h1 new.
Proof.
  intros Hv H. unfold recompute_layer in H. inv_bind in H as span Hspan.
  rewrite (same_view_NodesBetweenEdges g h) in Hspan by done.
  exists span. unfold InsertRecomputeNodes in H.
  assert (∀ i, i ∈ span → ∃ n, GetNode g i = Some n ∧ GetNode h i = Some n)
    as Hlive.
  { intros i Hi.
    destruct (NodesBetweenEdges_live g se.1 se.2 span i Hspan Hi) as [n Hn].
    exists n. split; [done|]. by apply Hv. }
  destruct (InsertRecomputeNodes_fold_exact h span span h h1 []
              (nodes_appended_refl h)) as (new & Happ & Hdup); [|done|].
  { intros i Hi. destruct (Hlive i Hi) as (n & _ & Hn). by eexists. }
  exists new. split; [done|]. split; [|done].
  unfold span_duplicates. apply mapM_Some.
  eapply Forall2_impl_elem; [exact Hdup|].
  intros i r Hi (n & Hn & Hr). destruct (Hlive i Hi) as (n' & Hg & Hh).
  rewrite Hg. simpl. rewrite <- (same_view_duplicate_of g h) by done.
  congruence.
Qed.

Lemma recompute_layers_exact (g : Graph) (pairs : list (string * string))
    (h h1 : Graph) :
  same_view g h →
  foldO recompute_layer h pairs = Normal h1 →
  ∃ spans news,
    Forall2 (λ se span, NodesBetweenEdges g se.1 se.2 = Normal span)
            pairs spans ∧
    Forall2 (λ span new, span_duplicates g span = Some new) spans news ∧
    nodes_appended h h1 (concat news).
Proof.
  revert h. induction pairs as [|se pairs IH]; intros h Hv H; simpl in H.
  - inversion H; subst h1. exists [], []. split_and!; [constructor..|].
    apply nodes_appended_refl.
  - inv_bind in H as h2 Hh2.
    destruct (recompute_layer_exact g h h2 se Hv Hh2)
      as (span & new & Hspan & Hnew & Happ).
    destruct (IH h2) as (spans & news & Hspans & Hnews & Happ'); [|done|].
    { eapply same_view_trans; [exact Hv|]. by eapply nodes_appended_same_view. }
    exists (span :: spans), (new :: news).
    split_and!; [by constructor|by constructor|].
    simpl. by eapply nodes_appended_trans.
Qed.

(** X7.  A successful application of the pass, as a whole.  Every span is
    extracted as on the graph the pass was given (the nodes appended for
    earlier layers are not traversed), and the returned graph is that graph
    with the duplicates of the span nodes appended, layer after layer.
    Nothing else changes: the nodes present before, the linked part of the
    graph, the initializers and the declared inputs and outputs are those
    of the graph given; the number of nodes grows by the total size of the
    spans. *)
Theorem ApplyImpl_appends_duplicates
    (g g' : Graph) (modified m' : bool) :
  ApplyImpl g modified = Normal (g', m', OK) →
  ∃ pairs spans news,
    IdentifyTransformerLayerEdges g [] = Normal (OK, pairs) ∧
    Forall2 (λ se span, NodesBetweenEdges g se.1 se.2 = Normal span)
            pairs spans ∧
    Forall2 (λ span new, span_duplicates g span = Some new) spans news ∧
    nodes_ g' = nodes_ g ++ (Some <$> concat news) ∧
    length (nodes_ g') = length (nodes_ g) + sum_list (length <$> spans) ∧
    linked g' = linked g ∧
    initializers_ g' = initializers_ g ∧
    graph_inputs_ g' = graph_inputs_ g ∧
    graph_outputs_ g' = graph_outputs_ g.
Proof.
  intros H. unfold ApplyImpl in H. inv_bind in H as sp Hid.
  destruct sp as [[|msg] pairs]; [|by inversion H].
  inv_bind in H as g1 Hfold. inversion H; subst g1 m'. clear H.
  destruct (recompute_layers_exact g pairs g g' (same_view_refl g) Hfold)
    as (spans & news & Hspans & Hnews & Happ).
  exists pairs, spans, news.
  pose proof (nodes_appended_linked _ _ _ Happ) as Hl.
  destruct Happ as (Hn & _ & Hi & Hin & Hout & _).
  split_and!; try done.
  rewrite Hn, length_app, length_fmap. f_equal.
  clear -Hnews. induction Hnews as [|span new spans news Hd _ IH]; [done|].
  simpl. rewrite length_app, IH. f_equal.
  unfold span_duplicates in Hd. apply length_mapM in Hd. done.
Qed.

(** Witness for X7: the layer template graph; its one span has three
    nodes. *)
Lemma ApplyImpl_appends_duplicates_witness :
  ApplyImpl layer_graph false = Normal (after_pass layer_graph, true, OK) ∧
  length (nodes_ (after_pass layer_graph)) = 9 ∧
  ∃ pairs spans news,
    IdentifyTransformerLayerEdges layer_graph [] = Normal (OK, pairs) ∧
    Forall2 (λ se span, NodesBetweenEdges layer_graph se.1 se.2 = Normal span)
            pairs spans ∧
    Forall2 (λ span new, span_duplicates layer_graph span = Some new)
            spans news ∧
    nodes_ (after_pass layer_graph)
    = nodes_ layer_graph ++ (Some <$> concat news).
Proof.
  assert (ApplyImpl layer_graph false
          = Normal (after_pass layer_graph, true, OK)) as H
    by (vm_compute; reflexivity).
  split; [exact H|]. split; [vm_compute; reflexivity|].
  destruct (ApplyImpl_appends_duplicates layer_graph _ false true H)
    as (pairs & spans & news & H1 & H2 & H3 & H4 & _).
  exists pairs, spans, news. split_and!; assumption.
Defined.

(** ** The helpers of Split: RemoveNodes and FilterInitializers *)

Lemma without_nodes_fields (g : Graph) (l : list NodeIndex) :
  length (nodes_ (without_nodes g l)) = length (nodes_ g) ∧
  unlinked_ (without_nodes g l) = unlinked_ g ∧
  initializers_ (without_nodes g l) = initializers_ g.
Proof.
  unfold without_nodes. revert g. induction l as [|j l IH]; intros g; simpl;
    [done|].
  destruct (IH (RemoveNode g j)) as (-> & -> & ->). simpl.
  by rewrite length_insert.
Qed.

Lemma RemoveNode_commute (g : Graph) (i j : NodeIndex) :
  RemoveNode (RemoveNode g i) j = RemoveNode (RemoveNode g j) i.
Proof.
  unfold RemoveNode. simpl. f_equal.
  destruct (decide (i = j)) as [->|Hne]; [done|].
  by apply list_insert_insert_ne.
Qed.

Lemma without_nodes_Permutation (g : Graph) (l l' : list NodeIndex) :
  l ≡ₚ l' → without_nodes g l = without_nodes g l'.
Proof.
  unfold without_nodes. intros Hperm. revert g.
  induction Hperm as [|x l l' _ IH|x y l|l l1 l2 _ IH1 _ IH2]; intros g; simpl.
  - done.
  - apply IH.
  - by rewrite RemoveNode_commute.
  - by rewrite IH1.
Qed.

(** X8.  RemoveNodes dereferences every pointer of its list before it
    removes the node.  It returns exactly when the pointers are pairwise
    distinct and each points to a node of the graph; otherwise a null
    pointer or a pointer to a node already removed is dereferenced and the
    call has no defined result.  When it returns it has emptied exactly the
    slots it was given: every other node stays at its index (no node is
    renumbered), the node arguments, initializers and declared inputs and
    outputs are untouched, and the same list in any other order gives the
    same graph. *)
Theorem RemoveNodes_removes_exactly (g : Graph) (l : list NodeIndex) :
  (is_Normal (RemoveNodes g l) ↔
   NoDup l ∧ ∀ i, i ∈ l → is_Some (GetNode g i)) ∧
  (¬ is_Normal (RemoveNodes g l) → RemoveNodes g l = Undefined) ∧
  (∀ g', RemoveNodes g l = Normal g' →
     (∀ i, GetNode g' i = if decide (i ∈ l) then None else GetNode g i) ∧
     length (nodes_ g') = length (nodes_ g) ∧
     node_args_ g' = node_args_ g ∧
     initializers_ g' = initializers_ g ∧
     graph_inputs_ g' = graph_inputs_ g ∧
     graph_outputs_ g' = graph_outputs_ g ∧
     (∀ l', l' ≡ₚ l → RemoveNodes g l' = Normal g')).
Proof.
  split_and!.
  - split.
    + intros [g' H]. by apply RemoveNodes_Normal in H as [? _].
    + intros H. exists (without_nodes g l). by apply RemoveNodes_Normal.
  - apply no_throw_Undefined_iff, no_throw_RemoveNodes.
  - intros g' H. apply RemoveNodes_Normal in H as [[Hnd Hall] ->].
    destruct (without_nodes_fields g l) as (Hlen & _ & Hinit).
    destruct (without_nodes_frame g l) as (Hargs & Hin & Hout).
    split_and!; try done.
    + apply GetNode_without_nodes.
    + intros l' Hperm. apply RemoveNodes_Normal. split.
      * split; [by rewrite Hperm|]. intros i Hi. apply Hall.
        by rewrite <- Hperm.
      * by apply without_nodes_Permutation.
Qed.

(** The first removal of a node returns; a second pointer to the same node
    has no defined target. *)
Example RemoveNodes_repeated :
  is_Normal (RemoveNodes chain_graph [1; 2]) ∧
  RemoveNodes chain_graph [1; 2; 1] = Undefined.
Proof. split; [by eexists|]. vm_compute. reflexivity. Qed.

Lemma RemoveInitializedTensors_fold (g : Graph) (l : list string) :
  foldl RemoveInitializedTensor g l
  = mkGraph (nodes_ g) (unlinked_ g) (node_args_ g)
            (initializers_ g ∖ list_to_set l) (graph_inputs_ g)
            (graph_outputs_ g).
Proof.
  revert g. induction l as [|x l IH]; intros g; simpl.
  - destruct g. simpl. f_equal. set_solver.
  - rewrite IH. simpl. f_equal. set_solver.
Qed.

Lemma FilterInitializers_eq (g : Graph) (input_names : gset string) :
  FilterInitializers g input_names
  = mkGraph (nodes_ g) (unlinked_ g) (node_args_ g)
            (initializers_ g ∩ input_names) (graph_inputs_ g)
            (graph_outputs_ g).
Proof.
  unfold FilterInitializers. rewrite RemoveInitializedTensors_fold.
  f_equal. apply set_eq. intros x.
  rewrite elem_of_difference, elem_of_list_to_set, elem_of_elements,
    elem_of_filter, elem_of_intersection.
  destruct (decide (x ∈ input_names)); naive_solver.
Qed.

(** X9.  FilterInitializers keeps exactly the initializers whose name is in
    the set it is given and changes nothing else of the graph.  Filtering a
    second time by the same set changes nothing, and so does filtering
    afterwards by a larger set. *)
Theorem FilterInitializers_keeps_named (g : Graph) (input_names : gset string) :
  (∀ x, x ∈ initializers_ (FilterInitializers g input_names) ↔
        x ∈ initializers_ g ∧ x ∈ input_names) ∧
  nodes_ (FilterInitializers g input_names) = nodes_ g ∧
  node_args_ (FilterInitializers g input_names) = node_args_ g ∧
  graph_inputs_ (FilterInitializers g input_names) = graph_inputs_ g ∧
  graph_outputs_ (FilterInitializers g input_names) = graph_outputs_ g ∧
  (∀ larger, input_names ⊆ larger →
     FilterInitializers (FilterInitializers g input_names) larger
     = FilterInitializers g input_names).
Proof.
  split_and!.
  - intros x. rewrite FilterInitializers_eq. simpl.
    by rewrite elem_of_intersection.
  - by rewrite FilterInitializers_eq.
  - by rewrite FilterInitializers_eq.
  - by rewrite FilterInitializers_eq.
  - by rewrite FilterInitializers_eq.
  - intros larger Hsub. rewrite !FilterInitializers_eq. simpl. f_equal.
    set_solver.
Qed.

(** ** ReorderOutputs: the gradient-name map, and applying it again *)

Lemma grad_map_lookup (l : list string) (m0 : gmap string string) (i : string) :
  foldl (λ m i, <[i := grad_of i]> m) m0 l !! i
  = if decide (i ∈ l) then Some (grad_of i) else m0 !! i.
Proof.
  revert m0. induction l as [|j l IH]; intros m0; cbn [foldl].
  - rewrite decide_False; [done|apply not_elem_of_nil].
  - rewrite IH. destruct (decide (i ∈ l)) as [Hi|Hi].
    + rewrite decide_True; [done|by right].
    + destruct (decide (i = j)) as [->|Hne].
      * rewrite lookup_insert_eq. rewrite decide_True; [done|by left].
      * rewrite lookup_insert_ne by done. rewrite decide_False; [done|].
        intros [?|?]%elem_of_cons; done.
Qed.

Lemma reorder_fold_names (require_grad : gset string)
    (outputs : list (option string)) (m : gmap string (option string))
    (inputs : list string) (names names' : gmap string string)
    (acc acc' : list (option string)) :
  (∀ name, m !! name = (if decide (Some name ∈ outputs) then Some (Some name)
                        else None)) →
  foldO (reorder_step require_grad m) (names, acc) inputs = Normal (names', acc') →
  names' = foldl (λ m i, <[i := grad_of i]> m) names
                 (filter (λ i, i ∈ require_grad) inputs).
Proof.
  intros Hm. revert names acc.
  induction inputs as [|i inputs IH]; intros names acc H; cbn [foldO] in H.
  - by inversion H.
  - rewrite (reorder_step_cases _ outputs) in H by done. rewrite filter_cons.
    destruct (decide (i ∈ require_grad)) as [Hreq|Hreq].
    + destruct (decide (Some (grad_of i) ∈ outputs)); [|done].
      cbn [mbind Outcome_bind] in H. by apply IH in H as ->.
    + cbn [mbind Outcome_bind] in H. by apply IH in H.
Qed.

(** What a call of ReorderOutputs that returned has built. *)
Lemma ReorderOutputs_inv (b b1 : ModuleGradientGraphBuilder) :
  ReorderOutputs b = Normal b1 →
  (∀ i, i ∈ inputs_requiring_grad b →
        Some (grad_of i) ∈ graph_outputs_ (gradient_model_ b)) ∧
  b1 = set_gradient_model
         (set_info b
            (set_user_input_grad_names (split_graphs_info_ b)
               (foldl (λ m i, <[i := grad_of i]> m) ∅
                      (inputs_requiring_grad b))))
         (SetOutputs (gradient_model_ b)
            ((GetNodeArg (gradient_model_ b) <$>
                user_output_names (split_graphs_info_ b)) ++
             (Some <$> (grad_of <$> inputs_requiring_grad b)))).
Proof.
  intros H. unfold ReorderOutputs in H.
  inv_bind in H as m Hm. unfold output_arg_map in Hm.
  pose proof (output_arg_map_fold _ _ _ Hm) as Hlook.
  assert (∀ name, m !! name
            = (if decide (Some name ∈ graph_outputs_ (gradient_model_ b))
               then Some (Some name) else None)) as Hlook'.
  { intros name. rewrite Hlook. by rewrite lookup_empty. }
  inv_bind in H as st Hst. destruct st as [names acc].
  inversion H; subst b1. clear H.
  pose proof (reorder_fold_names _ _ _ _ _ _ _ _ Hlook' Hst) as ->.
  apply (reorder_fold _ (graph_outputs_ (gradient_model_ b))) in Hst
    as [-> Hall]; [|done].
  split; [|done].
  intros i [Hreq Hi]%list_elem_of_filter. by apply Hall.
Qed.

(** X10.  ReorderOutputs records, for exactly the user inputs that require
    a gradient, the name of that gradient, and touches nothing of the
    builder but this map and the declared outputs of the gradient graph.
    When the user outputs are node arguments of the graph, a second call
    returns and changes nothing. *)
Theorem ReorderOutputs_idempotent (b b1 : ModuleGradientGraphBuilder) :
  ReorderOutputs b = Normal b1 →
  (∀ i, user_input_grad_names (split_graphs_info_ b1) !! i
        = if decide (i ∈ inputs_requiring_grad b) then Some (grad_of i)
          else None) ∧
  (∃ names outs,
     b1 = set_gradient_model
            (set_info b (set_user_input_grad_names (split_graphs_info_ b) names))
            (SetOutputs (gradient_model_ b) outs)) ∧
  ((∀ u, u ∈ user_output_names (split_graphs_info_ b) →
         u ∈ dom (node_args_ (gradient_model_ b))) →
   ReorderOutputs b1 = Normal b1).
Proof.
  intros H. apply ReorderOutputs_inv in H as [Hall ->]. split_and!.
  - intros i. simpl. rewrite grad_map_lookup. by rewrite lookup_empty.
  - by eexists _, _.
  - intros Hknown.
    set (outs := (GetNodeArg (gradient_model_ b) <$>
                    user_output_names (split_graphs_info_ b)) ++
                 (Some <$> (grad_of <$> inputs_requiring_grad b))).
    set (b1 := set_gradient_model _ _).
    assert (∀ o, o ∈ outs → is_Some o) as Hsome.
    { intros o [Ho|Ho]%elem_of_app.
      - apply list_elem_of_fmap in Ho as (u & -> & Hu).
        unfold GetNodeArg. rewrite decide_True by (by apply Hknown).
        by eexists.
      - apply list_elem_of_fmap in Ho as (x & -> & _). by eexists. }
    destruct (output_arg_map_defined outs ∅ Hsome) as [m Hm].
    pose proof (output_arg_map_fold _ _ _ Hm) as Hlook.
    assert (∀ name, m !! name
              = (if decide (Some name ∈ outs) then Some (Some name) else None))
      as Hlook'.
    { intros name. rewrite Hlook. by rewrite lookup_empty. }
    assert (∀ i, i ∈ user_input_names (split_graphs_info_ b) →
                 i ∈ input_names_require_grad (config_ b) →
                 Some (grad_of i) ∈ outs) as Hin.
    { intros i Hi Hreq. apply elem_of_app. right.
      apply list_elem_of_fmap_2, list_elem_of_fmap_2.
      by apply list_elem_of_filter. }
    unfold ReorderOutputs, output_arg_map.
    change (graph_outputs_ (gradient_model_ b1)) with outs.
    rewrite Hm. cbn [mbind Outcome_bind].
    change (user_input_names (split_graphs_info_ b1))
      with (user_input_names (split_graphs_info_ b)).
    change (user_output_names (split_graphs_info_ b1))
      with (user_output_names (split_graphs_info_ b)).
    change (input_names_require_grad (config_ b1))
      with (input_names_require_grad (config_ b)).
    destruct (reorder_fold_defined (input_names_require_grad (config_ b))
                outs m (user_input_names (split_graphs_info_ b))
                (∅, GetNodeArg (gradient_model_ b1) <$>
                      user_output_names (split_graphs_info_ b)) Hlook' Hin)
      as [[names acc] Hst].
    rewrite Hst. cbn [mbind Outcome_bind].
    pose proof (reorder_fold_names _ _ _ _ _ _ _ _ Hlook' Hst) as ->.
    apply (reorder_fold _ outs) in Hst as [-> _]; [|done].
    f_equal.
Qed.

(** Witness for X10: the MatMul gradient graph. *)
Lemma ReorderOutputs_idempotent_witness :
  ReorderOutputs matmul_builder = Normal (after_reorder matmul_builder) ∧
  ReorderOutputs (after_reorder matmul_builder)
  = Normal (after_reorder matmul_builder) ∧
  user_input_grad_names (split_graphs_info_ (after_reorder matmul_builder))
    !! "x" = Some "x_grad".
Proof.
  assert (ReorderOutputs matmul_builder = Normal (after_reorder matmul_builder))
    as H by (vm_compute; reflexivity).
  destruct (ReorderOutputs_idempotent _ _ H) as (Hmap & _ & Hagain).
  split; [exact H|]. split.
  - apply Hagain. intros u Hu. cbn in Hu.
    apply list_elem_of_singleton in Hu as ->.
    apply elem_of_dom. vm_compute. by eexists.
  - rewrite Hmap. vm_compute. reflexivity.
Defined.

(** ** AddYieldOp: the forward hand-off node *)

Lemma collect_outputs_step (s acc : gset string) (outs : list string) (x : string) :
  x ∈ foldl (λ s' a, if decide (a ∈ s) then {[a]} ∪ s' else s') acc outs ↔
  x ∈ acc ∨ (x ∈ s ∧ x ∈ outs).
Proof.
  revert acc. induction outs as [|a outs IH]; intros acc; cbn [foldl].
  - set_solver.
  - rewrite IH. destruct (decide (a ∈ s)); set_solver.
Qed.

Lemma collect_output_grads_fold (g : Graph) (s acc nb : gset string)
    (order : list NodeIndex) :
  foldO (λ acc node_index,
           node ← deref (GetNode g node_index);
           Normal (foldl (λ s' a, if decide (a ∈ s) then {[a]} ∪ s' else s')
                         acc (OutputDefs node)))
        acc order = Normal nb →
  ∀ x, x ∈ nb ↔ x ∈ acc ∨ (x ∈ s ∧ x ∈ produced_outputs g order).
Proof.
  revert acc. induction order as [|i order IH]; intros acc H x; simpl in H.
  - inversion H; subst. unfold produced_outputs. set_solver.
  - inv_bind in H as acc1 Hstep. inv_bind in Hstep as n Hn.
    apply deref_Normal in Hn. inversion Hstep; subst acc1. clear Hstep.
    rewrite (IH _ H x), collect_outputs_step.
    unfold produced_outputs. rewrite bind_cons, elem_of_app.
    fold (produced_outputs g order).
    assert (outputs_at g i = OutputDefs n) as ->
      by (unfold outputs_at; by rewrite Hn).
    tauto.
Qed.

Lemma mapM_GetNodeArg_inv (g : Graph) (l l' : list string) :
  mapM id (GetNodeArg g <$> l) = Some l' →
  l' = l ∧ ∀ x, x ∈ l → x ∈ dom (node_args_ g).
Proof.
  revert l'. induction l as [|x l IH]; intros l' H.
  - simpl in H. inversion H. split; [done|]. intros x Hx.
    by apply elem_of_nil in Hx.
  - rewrite fmap_cons in H. apply mapM_Some_1 in H.
    apply Forall2_cons_inv_l in H as (y & k & Hy & Hk & ->).
    simpl in Hy. apply GetNodeArg_Some in Hy as [-> Hdom].
    apply mapM_Some_2, IH in Hk as [-> Hall]. split; [done|].
    intros z [->|Hz]%elem_of_cons; auto.
Qed.

(** X11.  The forward hand-off node.  AddYieldOp appends, right after the
    nodes of the graph, a Yield node named YieldOp_fw_op.  Its inputs are
    the user outputs, those whose gradient no node produces first and the
    others after them, each group in user-output order; its outputs are the
    gradients of the first group, which are also what is recorded as the
    gradients the caller supplies.  The gradient names of all user outputs
    and of all trainable initializers are recorded as well, and the
    declared inputs and outputs, initializers and configuration stay as
    they were. *)
Theorem AddYieldOp_forward_yield
    (b b' : ModuleGradientGraphBuilder) (order : list NodeIndex) :
  topologicalOrder (gradient_model_ b) = Some order →
  AddYieldOp b = Normal b' →
  nodes_ (gradient_model_ b') !! length (nodes_ (gradient_model_ b))
  = Some (Some (forward_yield_node b order)) ∧
  pending_outputs b order ++ computed_outputs b order
  ≡ₚ user_output_names (split_graphs_info_ b) ∧
  user_output_grad_names (split_graphs_info_ b')
  = grad_of <$> user_output_names (split_graphs_info_ b) ∧
  backward_output_grad_names (split_graphs_info_ b')
  = grad_of <$> pending_outputs b order ∧
  initializer_grad_names_to_train (split_graphs_info_ b')
  = grad_of <$> initializer_names_to_train (split_graphs_info_ b) ∧
  user_output_names (split_graphs_info_ b')
  = user_output_names (split_graphs_info_ b) ∧
  graph_inputs_ (gradient_model_ b') = graph_inputs_ (gradient_model_ b) ∧
  graph_outputs_ (gradient_model_ b') = graph_outputs_ (gradient_model_ b) ∧
  initializers_ (gradient_model_ b') = initializers_ (gradient_model_ b) ∧
  config_ b' = config_ b.
Proof.
  intros Htopo H. unfold AddYieldOp in H. cbv zeta in H.
  unfold GetNodesInTopologicalOrder in H. rewrite Htopo in H.
  cbn [deref mbind Outcome_bind] in H.
  inv_bind in H as nb Hnb. unfold collect_output_grads in Hnb.
  pose proof (collect_output_grads_fold _ _ _ _ _ Hnb) as Hnb'. clear Hnb.
  simpl in H.
  assert (∀ u, u ∈ user_output_names (split_graphs_info_ b) →
               grad_of u ∈ nb ↔
               grad_of u ∈ produced_outputs (gradient_model_ b) order) as Hiff.
  { intros u Hu. rewrite Hnb'. split; [by intros [?%elem_of_empty|[_ ?]]|].
    intros Hp. right. split; [|done].
    apply elem_of_list_to_set. by apply list_elem_of_fmap_2. }
  assert (filter (λ name, grad_of name ∉ nb)
                 (user_output_names (split_graphs_info_ b))
          = pending_outputs b order) as Hpend.
  { apply filter_ext_elem. intros u Hu. by rewrite (Hiff u Hu). }
  assert (filter (λ name, grad_of name ∈ nb)
                 (user_output_names (split_graphs_info_ b))
          = computed_outputs b order) as Hcomp.
  { apply filter_ext_elem. intros u Hu. by rewrite (Hiff u Hu). }
  rewrite Hpend, Hcomp in H.
  inv_bind in H as st1 Hadd. destruct st1 as [g1 r1].
  inv_bind in H as st2 Hfold. destruct st2 as [g2 ord2].
  inversion H; subst b'. clear H. simpl.
  unfold AddNode in Hadd. inv_bind in Hadd as ins Hins.
  inv_bind in Hadd as outs Houts. apply deref_Normal in Hins, Houts.
  apply mapM_GetNodeArg_inv in Hins as [-> _].
  apply mapM_GetNodeArg_inv in Houts as [-> _].
  inversion Hadd; subst g1 r1. clear Hadd.
  eapply (add_grad_yields_fold _ _ (gradient_model_ b) order
            [forward_yield_node b order]) in Hfold as [Happ _].
  2:{ intros i Hi.
      apply (topologicalOrder_elem_of _ order i Htopo) in Hi as [n ->].
      by eexists. }
  2:{ unfold nodes_appended, forward_yield_node. simpl.
      split_and!; try done. lia. }
  destruct Happ as (Hn & _ & Hi & Hin & Hout & _). simpl in *.
  split_and!; try done.
  - rewrite Hn. rewrite lookup_app_l by (rewrite length_app; simpl; lia).
    by rewrite lookup_app_r, Nat.sub_diag by lia.
  - unfold pending_outputs, computed_outputs. rewrite (comm (++)).
    apply (filter_app_complement
             (λ u, grad_of u ∈ produced_outputs (gradient_model_ b) order)).
Qed.

(** Witness for X11: the two-layer model; the gradient of its output y is
    produced by no node. *)
Lemma AddYieldOp_forward_yield_witness :
  AddYieldOp mlp_builder = Normal (after_yield mlp_builder) ∧
  nodes_ (gradient_model_ (after_yield mlp_builder)) !! 7
  = Some (Some (forward_yield_node mlp_builder [0; 1; 2; 3; 4; 5; 6])) ∧
  forward_yield_node mlp_builder [0; 1; 2; 3; 4; 5; 6]
  = mkNode "YieldOp_fw_op" "Yield" "Yield Op" ["y"] ["y_grad"] ∅ kMSDomain 0.
Proof.
  assert (topologicalOrder (gradient_model_ mlp_builder)
          = Some [0; 1; 2; 3; 4; 5; 6]) as Htopo by (vm_compute; reflexivity).
  assert (AddYieldOp mlp_builder = Normal (after_yield mlp_builder)) as Hyield
    by (vm_compute; reflexivity).
  split; [exact Hyield|]. split; [|vm_compute; reflexivity].
  exact (proj1 (AddYieldOp_forward_yield mlp_builder _ _ Htopo Hyield)).
Defined.

(** ** Split: interfaces, initializers and types of the two graphs *)

Lemma split_scan_names (g : Graph) (order : list NodeIndex) (sc0 sc : SplitScan) :
  foldO (split_scan_step g) sc0 order = Normal sc →
  (∀ x, x ∈ (forward_names sc).1 ↔
        x ∈ (forward_names sc0).1 ∨
        ∃ i n, i ∈ order ∧ GetNode g i = Some n ∧ ¬ is_backward n ∧
               x ∈ InputDefs n) ∧
  (∀ x, x ∈ (backward_names sc).2 ↔
        x ∈ (backward_names sc0).2 ∨
        ∃ i n, i ∈ order ∧ GetNode g i = Some n ∧ is_backward n ∧
               x ∈ OutputDefs n).
Proof.
  revert sc0. induction order as [|i order IH]; intros sc0 H; simpl in H.
  - inversion H; subst. split; intros x; (split; [by left|]);
      (intros [?|(i & n & Hi & _)]; [done|by apply elem_of_nil in Hi]).
  - inv_bind in H as sc1 Hstep. unfold split_scan_step in Hstep.
    inv_bind in Hstep as n Hn. apply deref_Normal in Hn.
    apply IH in H as (Hfi & Hbo).
    destruct (decide (Description n = "Backward pass")) as [Hb|Hb];
      inversion Hstep; subst sc1; clear Hstep; simpl in *.
    + split.
      * intros x. rewrite Hfi. split.
        -- intros [?|(j & m & Hj & Hm & ?)]; [by left|].
           right. exists j, m. split; [by right|done].
        -- intros [?|(j & m & Hj & Hm & Hnb & ?)]; [by left|].
           apply elem_of_cons in Hj as [->|Hj]; [|right; eauto 10].
           rewrite Hn in Hm. inversion Hm; subst m. done.
      * intros x. rewrite Hbo, elem_of_union, elem_of_list_to_set. split.
        -- intros [[?|?]|(j & m & Hj & Hm & ?)]; [|by left|].
           ++ right. exists i, n. split; [by left|done].
           ++ right. exists j, m. split; [by right|done].
        -- intros [?|(j & m & Hj & Hm & Hnb & ?)]; [left; by right|].
           apply elem_of_cons in Hj as [->|Hj]; [|right; eauto 10].
           rewrite Hn in Hm. inversion Hm; subst m. left; by left.
    + split.
      * intros x. rewrite Hfi, elem_of_union, elem_of_list_to_set. split.
        -- intros [[?|?]|(j & m & Hj & Hm & ?)]; [|by left|].
           ++ right. exists i, n. split; [by left|done].
           ++ right. exists j, m. split; [by right|done].
        -- intros [?|(j & m & Hj & Hm & Hnb & ?)]; [left; by right|].
           apply elem_of_cons in Hj as [->|Hj]; [|right; eauto 10].
           rewrite Hn in Hm. inversion Hm; subst m. left; by left.
      * intros x. rewrite Hbo. split.
        -- intros [?|(j & m & Hj & Hm & ?)]; [by left|].
           right. exists j, m. split; [by right|done].
        -- intros [?|(j & m & Hj & Hm & Hnb & ?)]; [by left|].
           apply elem_of_cons in Hj as [->|Hj]; [|right; eauto 10].
           rewrite Hn in Hm. inversion Hm; subst m. done.
Qed.

Lemma backward_initializer_fold_full (names : gset string) (inits : list string)
    (st : Graph * list string * list (option string)) :
  (foldl (backward_initializer_step names) st inits).1.2
  = st.1.2 ++ filter (λ x, x ∈ names) inits ∧
  (foldl (backward_initializer_step names) st inits).2
  = st.2 ++ (GetNodeArg st.1.1 <$> filter (λ x, x ∈ names) inits) ∧
  initializers_ (foldl (backward_initializer_step names) st inits).1.1
  = initializers_ st.1.1 ∖ list_to_set (filter (λ x, x ∈ names) inits).
Proof.
  revert st. induction inits as [|x inits IH]; intros st; cbn [foldl].
  - rewrite filter_nil. simpl. rewrite !app_nil_r. split_and!; [done..|].
    set_solver.
  - destruct (IH (backward_initializer_step names st x)) as (-> & -> & ->).
    rewrite filter_cons. unfold backward_initializer_step.
    destruct (decide (x ∈ names)); [|done]. simpl.
    rewrite <- !(assoc_L (++)). split_and!; [done|done|]. set_solver.
Qed.

Lemma TypeAsProto_UpdateTypeAndShape (g : Graph) (y : string)
    (ty : option string) (x : string) :
  TypeAsProto (UpdateTypeAndShape g y ty) x
  = if decide (x = y) then ty else TypeAsProto g x.
Proof.
  unfold TypeAsProto, UpdateTypeAndShape. simpl.
  destruct (decide (x = y)) as [->|Hne].
  - by rewrite lookup_insert_eq.
  - by rewrite lookup_insert_ne.
Qed.

Lemma backward_intermediate_fold_types (forward_graph : Graph)
    (inter : list string) (g g' : Graph) (args args' : list (option string)) :
  foldO (backward_intermediate_step forward_graph) (g, args) inter
  = Normal (g', args') →
  initializers_ g' = initializers_ g ∧
  dom (node_args_ g') = dom (node_args_ g) ∧
  (∀ x, TypeAsProto g' x = if decide (x ∈ inter)
                           then TypeAsProto forward_graph x
                           else TypeAsProto g x).
Proof.
  revert g args. induction inter as [|y inter IH]; intros g args H; simpl in H.
  - inversion H; subst. split_and!; [done..|]. intros x.
    rewrite decide_False; [done|apply not_elem_of_nil].
  - inv_bind in H as st1 Hstep. unfold backward_intermediate_step in Hstep.
    inv_bind in Hstep as a Ha. inv_bind in Hstep as fa Hfa.
    apply deref_Normal in Ha, Hfa. simpl in Ha.
    apply GetNodeArg_Some in Ha as [-> Hdom].
    apply GetNodeArg_Some in Hfa as [-> _].
    inversion Hstep; subst st1. clear Hstep.
    apply IH in H as (-> & -> & Hty). simpl. split_and!; [done| |].
    + rewrite dom_insert_L. set_solver.
    + intros x. rewrite Hty, TypeAsProto_UpdateTypeAndShape.
      destruct (decide (x ∈ inter)) as [Hx|Hx].
      * rewrite decide_True; [done|by right].
      * destruct (decide (x = y)) as [->|Hne].
        -- rewrite decide_True; [done|by left].
        -- rewrite decide_False; [done|].
           intros [?|?]%elem_of_cons; done.
Qed.

Lemma backward_outputs_fold (names : gset string) (outs : list (option string))
    (acc r : list (option string)) :
  foldO (λ acc node_arg,
           name ← deref node_arg;
           Normal (if decide (name ∈ names) then acc ++ [node_arg] else acc))
        acc outs = Normal r →
  r = acc ++ filter (named_in names) outs.
Proof.
  revert acc. induction outs as [|o outs IH]; intros acc H; simpl in H.
  - inversion H. by rewrite filter_nil, app_nil_r.
  - inv_bind in H as acc1 Hstep. inv_bind in Hstep as name Hname.
    apply deref_Normal in Hname as ->. inversion Hstep; subst acc1. clear Hstep.
    apply IH in H as ->. rewrite filter_cons. simpl.
    destruct (decide (name ∈ names)); [|done].
    by rewrite <- (assoc_L (++)).
Qed.

Lemma filtered_fields (g : Graph) (l : list NodeIndex) (names : gset string) :
  node_args_ (FilterInitializers (without_nodes g l) names) = node_args_ g ∧
  initializers_ (FilterInitializers (without_nodes g l) names)
  = initializers_ g ∩ names ∧
  graph_outputs_ (FilterInitializers (without_nodes g l) names)
  = graph_outputs_ g.
Proof.
  rewrite FilterInitializers_eq. simpl.
  destruct (without_nodes_frame g l) as (-> & _ & ->).
  by destruct (without_nodes_fields g l) as (_ & _ & ->).
Qed.

(** What a call of Split that returned has left, field by field. *)
Lemma Split_result (b b' : ModuleGradientGraphBuilder) (st : Status) :
  Split b = Normal (b', st) →
  ∃ order sc,
    topologicalOrder (forward_model_ b) = Some order ∧
    foldO (split_scan_step (forward_model_ b)) (mkScan [] (∅, ∅) (∅, ∅)) order
    = Normal sc ∧
    st = OK ∧
    gradient_model_ b' = gradient_model_ b ∧
    config_ b' = config_ b ∧
    initializers_ (forward_model_ b')
    = initializers_ (forward_model_ b) ∩ (forward_names sc).1 ∧
    node_args_ (forward_model_ b') = node_args_ (forward_model_ b) ∧
    graph_inputs_ (forward_model_ b')
    = GetNodeArg (forward_model_ b) <$>
        (user_input_names (split_graphs_info_ b) ++
         initializer_names_to_train (split_graphs_info_ b)) ∧
    graph_outputs_ (forward_model_ b')
    = GetNodeArg (forward_model_ b) <$>
        (user_output_names (split_graphs_info_ b) ++
         intermediate_tensor_names (split_graphs_info_ b')) ∧
    initializers_ (backward_model_ b')
    = (initializers_ (backward_model_ b) ∩ (backward_names sc).1) ∖
      list_to_set (filter (λ x, x ∈ (backward_names sc).1)
                          (initializer_names_to_train (split_graphs_info_ b))) ∧
    graph_inputs_ (backward_model_ b')
    = (GetNodeArg (backward_model_ b) <$>
         (filter (λ x, x ∈ (backward_names sc).1)
                 (user_input_names (split_graphs_info_ b)) ++
          filter (λ x, x ∈ (backward_names sc).1)
                 (initializer_names_to_train (split_graphs_info_ b)))) ++
      (Some <$> intermediate_tensor_names (split_graphs_info_ b')) ++
      (GetNodeArg (backward_model_ b) <$>
         backward_output_grad_names (split_graphs_info_ b)) ∧
    graph_outputs_ (backward_model_ b')
    = filter (named_in (backward_names sc).2)
             (graph_outputs_ (backward_model_ b)) ∧
    dom (node_args_ (backward_model_ b')) = dom (node_args_ (backward_model_ b)) ∧
    (∀ x, TypeAsProto (backward_model_ b') x
          = if decide (x ∈ intermediate_tensor_names (split_graphs_info_ b'))
            then TypeAsProto (forward_model_ b) x
            else TypeAsProto (backward_model_ b) x) ∧
    split_graphs_info_ b'
    = set_backward_intializer_names_as_input
        (set_backward_user_input_names
           (set_intermediate_tensor_names (split_graphs_info_ b)
              (intermediate_tensor_names (split_graphs_info_ b')))
           (filter (λ x, x ∈ (backward_names sc).1)
                   (user_input_names (split_graphs_info_ b))))
        (filter (λ x, x ∈ (backward_names sc).1)
                (initializer_names_to_train (split_graphs_info_ b))).
Proof.
  intros H. unfold Split in H. cbv zeta in H.
  inv_bind in H as order Horder. apply deref_Normal in Horder.
  inv_bind in H as sc Hsc.
  inv_bind in H as fg Hfg. apply RemoveNodes_Normal in Hfg as [_ ->].
  inv_bind in H as order_b Horder_b. apply deref_Normal in Horder_b.
  inv_bind in H as rm_b Hrm_b. apply backward_remove_fold in Hrm_b as ->.
  inv_bind in H as bg Hbg. apply RemoveNodes_Normal in Hbg as [_ ->].
  destruct (filtered_fields (forward_model_ b) (forward_nodes_to_remove sc)
              (forward_names sc).1) as (Haf & Hif & _).
  destruct (filtered_fields (backward_model_ b)
              ([] ++ filter (forward_at (backward_model_ b)) order_b)
              (backward_names sc).1) as (Hab & Hib & Hob).
  remember (FilterInitializers
              (without_nodes (forward_model_ b) (forward_nodes_to_remove sc))
              (forward_names sc).1) as fg1 eqn:Hfg1.
  remember (FilterInitializers
              (without_nodes (backward_model_ b)
                 ([] ++ filter (forward_at (backward_model_ b)) order_b))
              (backward_names sc).1) as bg0 eqn:Hbg0.
  clear Hfg1 Hbg0.
  match type of H with
  | context [foldl (backward_initializer_step ?names) ?st0 ?inits] =>
    pose proof (backward_initializer_fold names inits st0) as (Hn1 & Ha1 & Ho1);
    pose proof (backward_initializer_fold_full names inits st0)
      as (Hl1 & Hr1 & Hi1);
    destruct (foldl (backward_initializer_step names) st0 inits)
      as [[bg1 as_input] args1] eqn:Hinit
  end.
  simpl in Hn1, Ha1, Ho1, Hl1, Hr1, Hi1.
  inv_bind in H as st2 Hinter. destruct st2 as [bg2 args2].
  inv_bind in H as outs Houts. inversion H; subst b' st. clear H.
  simpl in Hinter.
  pose proof (backward_intermediate_fold_types _ _ _ _ _ _ Hinter)
    as (Hi2 & Hd2 & Hty2).
  apply backward_intermediate_fold in Hinter as (Hn2 & Ho2 & -> & Hdom).
  simpl in Houts.
  apply backward_outputs_fold in Houts as ->.
  exists order, sc.
  assert (∀ name, GetNodeArg fg1 name = GetNodeArg (forward_model_ b) name)
    as Hgf by (intros; by apply GetNodeArg_same_args).
  assert (∀ name, GetNodeArg bg0 name = GetNodeArg (backward_model_ b) name)
    as Hgb by (intros; by apply GetNodeArg_same_args).
  assert (∀ name, GetNodeArg bg2 name = GetNodeArg (backward_model_ b) name)
    as Hgb2.
  { intros name. unfold GetNodeArg. by rewrite Hd2, Ha1, Hab. }
  subst as_input args1. simpl in *.
  split_and!; try done.
  - cbn. by rewrite fmap_app, !(list_fmap_ext _ _ _ (λ _ x _, Hgf x)).
  - cbn. by rewrite fmap_app, !(list_fmap_ext _ _ _ (λ _ x _, Hgf x)).
  - cbn. by rewrite Hi2, Hi1, Hib.
  - cbn. rewrite fmap_app, <- !(assoc_L (++)).
    by rewrite !(list_fmap_ext _ _ _ (λ _ x _, Hgb x)),
      (list_fmap_ext _ _ _ (λ _ x _, Hgb2 x)).
  - cbn. by rewrite Ho2, Ho1, Hob.
  - cbn. by rewrite Hd2, Ha1, Hab.
  - intros x. specialize (Hty2 x). unfold TypeAsProto in *. simpl in *.
    rewrite Hty2. destruct (decide _); [by rewrite Haf|by rewrite Ha1, Hab].
Qed.

(** The four name sets of the first loop of Split, on a resolved graph. *)
Lemma split_scan_sets (g : Graph) (order : list NodeIndex) (sc : SplitScan) :
  resolved g → topologicalOrder g = Some order →
  foldO (split_scan_step g) (mkScan [] (∅, ∅) (∅, ∅)) order = Normal sc →
  (∀ x, x ∈ (forward_names sc).1 ↔ forward_input g x) ∧
  (∀ x, x ∈ (forward_names sc).2 ↔ forward_output g x) ∧
  (∀ x, x ∈ (backward_names sc).1 ↔ backward_input g x) ∧
  (∀ x, x ∈ (backward_names sc).2 ↔ backward_output g x).
Proof.
  intros Hres Htopo Hsc.
  destruct (split_scan_fold g order _ sc Hsc) as (_ & Hfo & Hbi).
  destruct (split_scan_names g order _ sc Hsc) as (Hfi & Hbo).
  simpl in *.
  assert (∀ i n, GetNode g i = Some n → i ∈ order) as Hin.
  { intros i n Hn. apply (resolved_order g order i Hres Htopo). by eexists. }
  unfold forward_input, forward_output, backward_input, backward_output.
  split_and!; intros x.
  - rewrite Hfi. split.
    + intros [?%elem_of_empty|(i & n & _ & ?)]; [done|eauto].
    + intros (i & n & Hn & ?). right. exists i, n. eauto.
  - rewrite Hfo. split.
    + intros [?%elem_of_empty|(i & n & _ & ?)]; [done|eauto].
    + intros (i & n & Hn & ?). right. exists i, n. eauto.
  - rewrite Hbi. split.
    + intros [?%elem_of_empty|(i & n & _ & ?)]; [done|eauto].
    + intros (i & n & Hn & ?). right. exists i, n. eauto.
  - rewrite Hbo. split.
    + intros [?%elem_of_empty|(i & n & _ & ?)]; [done|eauto].
    + intros (i & n & Hn & ?). right. exists i, n. eauto.
Qed.

(** X12.  The interfaces that Split declares.  With the names read and
    written by the backward-tagged nodes taken from the (resolved) forward
    copy: the forward graph's inputs are the user inputs followed by the
    trainable initializers, its outputs the user outputs followed by the
    intermediate tensors; the backward graph's inputs are the user inputs
    that a backward node reads, the trainable initializers that a backward
    node reads, the intermediate tensors and the recorded output gradients,
    in this order; its outputs are those of its declared outputs that a
    backward node writes.  The two lists of names read by backward nodes
    are recorded in the metadata.  The status returned is always OK: the
    outcome of the two resolve calls is not looked at. *)
Theorem Split_interfaces (b b' : ModuleGradientGraphBuilder) (st : Status) :
  resolved (forward_model_ b) →
  Split b = Normal (b', st) →
  ∃ bin bout : gset string,
    (∀ x, x ∈ bin ↔ backward_input (forward_model_ b) x) ∧
    (∀ x, x ∈ bout ↔ backward_output (forward_model_ b) x) ∧
    graph_inputs_ (forward_model_ b')
    = GetNodeArg (forward_model_ b) <$>
        (user_input_names (split_graphs_info_ b) ++
         initializer_names_to_train (split_graphs_info_ b)) ∧
    graph_outputs_ (forward_model_ b')
    = GetNodeArg (forward_model_ b) <$>
        (user_output_names (split_graphs_info_ b) ++
         intermediate_tensor_names (split_graphs_info_ b')) ∧
    graph_inputs_ (backward_model_ b')
    = (GetNodeArg (backward_model_ b) <$>
         (filter (λ x, x ∈ bin) (user_input_names (split_graphs_info_ b)) ++
          filter (λ x, x ∈ bin)
                 (initializer_names_to_train (split_graphs_info_ b)))) ++
      (Some <$> intermediate_tensor_names (split_graphs_info_ b')) ++
      (GetNodeArg (backward_model_ b) <$>
         backward_output_grad_names (split_graphs_info_ b)) ∧
    graph_outputs_ (backward_model_ b')
    = filter (named_in bout) (graph_outputs_ (backward_model_ b)) ∧
    backward_user_input_names (split_graphs_info_ b')
    = filter (λ x, x ∈ bin) (user_input_names (split_graphs_info_ b)) ∧
    backward_intializer_names_as_input (split_graphs_info_ b')
    = filter (λ x, x ∈ bin) (initializer_names_to_train (split_graphs_info_ b)) ∧
    st = OK.
Proof.
  intros Hres H.
  apply Split_result in H
    as (order & sc & Htopo & Hsc & -> & _ & _ & _ & _ & Hfi & Hfo & _ & Hbi
        & Hbo & _ & _ & Hinfo).
  destruct (split_scan_sets _ order sc Hres Htopo Hsc) as (_ & _ & Hin & Hout).
  exists (backward_names sc).1, (backward_names sc).2.
  rewrite Hinfo at 3 4. by split_and!.
Qed.

(** Witness for X12: the two-layer model.  The backward graph reads the
    user input x, the initializer w2, the activations h and r and the
    gradient of y. *)
Lemma Split_interfaces_witness :
  Split mlp_builder = Normal (after_split mlp_builder, OK) ∧
  (∃ bin bout : gset string,
     (∀ x, x ∈ bin ↔ backward_input mlp_graph x) ∧
     (∀ x, x ∈ bout ↔ backward_output mlp_graph x) ∧
     graph_outputs_ (backward_model_ (after_split mlp_builder))
     = filter (named_in bout) (graph_outputs_ mlp_graph)) ∧
  graph_inputs_ (forward_model_ (after_split mlp_builder))
  = [Some "x"; Some "w1"; Some "w2"] ∧
  graph_outputs_ (backward_model_ (after_split mlp_builder))
  = [Some "w1_grad"; Some "w2_grad"].
Proof.
  assert (Split mlp_builder = Normal (after_split mlp_builder, OK)) as H
    by (vm_compute; reflexivity).
  split; [exact H|]. split; [|split; vm_compute; reflexivity].
  destruct (Split_interfaces mlp_builder _ OK eq_refl H)
    as (bin & bout & Hin & Hout & _ & _ & _ & Ho & _).
  exists bin, bout. split_and!; assumption.
Defined.

(** X13.  The initializers that Split leaves.  The forward graph keeps
    exactly the initializers of the forward copy that a forward node reads.
    The backward graph keeps exactly the initializers of the backward copy
    that a backward node reads and that are not trainable: a trainable
    initializer read by a backward node is an input of the backward graph
    instead. *)
Theorem Split_initializers (b b' : ModuleGradientGraphBuilder) (st : Status) :
  resolved (forward_model_ b) →
  Split b = Normal (b', st) →
  (∀ x, x ∈ initializers_ (forward_model_ b') ↔
        x ∈ initializers_ (forward_model_ b) ∧
        forward_input (forward_model_ b) x) ∧
  (∀ x, x ∈ initializers_ (backward_model_ b') ↔
        x ∈ initializers_ (backward_model_ b) ∧
        backward_input (forward_model_ b) x ∧
        x ∉ initializer_names_to_train (split_graphs_info_ b)) ∧
  (∀ w, w ∈ initializer_names_to_train (split_graphs_info_ b) →
        backward_input (forward_model_ b) w →
        GetNodeArg (backward_model_ b) w ∈ graph_inputs_ (backward_model_ b')).
Proof.
  intros Hres H.
  apply Split_result in H
    as (order & sc & Htopo & Hsc & _ & _ & _ & Hif & _ & _ & _ & Hib & Hbi & _).
  destruct (split_scan_sets _ order sc Hres Htopo Hsc) as (Hfin & _ & Hbin & _).
  split_and!.
  - intros x. by rewrite Hif, elem_of_intersection, Hfin.
  - intros x. rewrite Hib, elem_of_difference, elem_of_intersection,
      elem_of_list_to_set, list_elem_of_filter, Hbin. tauto.
  - intros w Hw Hread. rewrite Hbi. apply elem_of_app. left.
    apply list_elem_of_fmap_2, elem_of_app. right.
    apply list_elem_of_filter. split; [by apply Hbin|done].
Qed.

(** X14.  Types across the split.  Split adds no node argument to either
    graph and removes none.  In the backward graph an intermediate tensor
    takes the type it has in the forward graph; every other argument keeps
    the type it had in the backward copy. *)
Theorem Split_types (b b' : ModuleGradientGraphBuilder) (st : Status) :
  Split b = Normal (b', st) →
  node_args_ (forward_model_ b') = node_args_ (forward_model_ b) ∧
  dom (node_args_ (backward_model_ b')) = dom (node_args_ (backward_model_ b)) ∧
  (∀ x, x ∈ intermediate_tensor_names (split_graphs_info_ b') →
        TypeAsProto (backward_model_ b') x = TypeAsProto (forward_model_ b') x) ∧
  (∀ x, x ∉ intermediate_tensor_names (split_graphs_info_ b') →
        TypeAsProto (backward_model_ b') x = TypeAsProto (backward_model_ b) x).
Proof.
  intros H.
  apply Split_result in H
    as (order & sc & _ & _ & _ & _ & _ & _ & Haf & _ & _ & _ & _ & _ & Hd & Hty
        & _).
  split_and!; [done|done| |].
  - intros x Hx. rewrite Hty, decide_True by done.
    unfold TypeAsProto. by rewrite Haf.
  - intros x Hx. by rewrite Hty, decide_False.
Qed.

(** Witness for X13: of the initializers c, w and k, the forward graph
    keeps c and w, the backward graph keeps c only. *)
Lemma Split_initializers_witness :
  Split const_builder = Normal (after_split const_builder, OK) ∧
  (∀ x, x ∈ initializers_ (backward_model_ (after_split const_builder)) ↔
        x ∈ initializers_ (backward_model_ const_builder) ∧
        backward_input (forward_model_ const_builder) x ∧
        x ∉ initializer_names_to_train (split_graphs_info_ const_builder)) ∧
  initializers_ (forward_model_ (after_split const_builder))
  = ({[ "c"; "w" ]} : gset string) ∧
  initializers_ (backward_model_ (after_split const_builder))
  = ({[ "c" ]} : gset string).
Proof.
  assert (Split const_builder = Normal (after_split const_builder, OK)) as H
    by (vm_compute; reflexivity).
  split; [exact H|]. split; [|split; vm_compute; reflexivity].
  exact (proj1 (proj2 (Split_initializers const_builder _ OK eq_refl H))).
Defined.

(** Witness for X14: the activation s is the one intermediate tensor; in
    the backward graph it has the type of the forward copy. *)
Lemma Split_types_witness :
  Split const_builder = Normal (after_split const_builder, OK) ∧
  intermediate_tensor_names (split_graphs_info_ (after_split const_builder))
  = ["s"] ∧
  TypeAsProto (backward_model_ const_builder) "s" = None ∧
  TypeAsProto (backward_model_ (after_split const_builder)) "s"
  = Some "tensor(float)".
Proof.
  assert (Split const_builder = Normal (after_split const_builder, OK)) as H
    by (vm_compute; reflexivity).
  split; [exact H|]. split; [vm_compute; reflexivity|].
  split; [vm_compute; reflexivity|].
  rewrite (proj1 (proj2 (proj2 (Split_types const_builder _ OK H))) "s").
  - vm_compute. reflexivity.
  - vm_compute. repeat constructor.
Defined.

(** ** Initialize *)

Lemma push_names_fold (names : list string) (args : list (option string))
    (r : list string) :
  push_names names args = Normal r →
  ∃ new, args = Some <$> new ∧ r = names ++ new.
Proof.
  unfold push_names. revert names.
  induction args as [|o args IH]; intros names H; simpl in H.
  - inversion H. exists []. by rewrite app_nil_r.
  - inv_bind in H as acc Hacc. inv_bind in Hacc as name Hname.
    apply deref_Normal in Hname as ->. inversion Hacc; subst acc. clear Hacc.
    apply IH in H as (new & -> & ->). exists (name :: new).
    by rewrite <- (assoc_L (++)).
Qed.

Lemma push_names_defined (names new : list string) :
  push_names names (Some <$> new) = Normal (names ++ new).
Proof.
  unfold push_names. revert names. induction new as [|x new IH]; intros names.
  - by rewrite app_nil_r.
  - simpl. rewrite IH. by rewrite <- (assoc_L (++)).
Qed.

Lemma push_names_null (names : list string) (args : list (option string)) :
  None ∈ args → push_names names args = Undefined.
Proof.
  unfold push_names. revert names.
  induction args as [|o args IH]; intros names Hin.
  - by apply elem_of_nil in Hin.
  - simpl. destruct o as [name|]; [|done]. simpl. apply IH.
    by apply elem_of_cons in Hin as [?|?].
Qed.

Lemma push_names_cases (names : list string) (args : list (option string)) :
  is_Normal (push_names names args) ∨ push_names names args = Undefined.
Proof.
  destruct (decide (None ∈ args)) as [Hnull|Hsome].
  - right. by apply push_names_null.
  - left. assert (∃ new, args = Some <$> new) as [new ->].
    { induction args as [|o args IH]; [by exists []|].
      destruct o as [x|]; [|destruct Hsome; by left].
      destruct IH as [new ->]; [intros ?; apply Hsome; by right|].
      by exists (x :: new). }
    rewrite push_names_defined. by eexists.
Qed.

Lemma promote_initializers_fold (l : list string)
    (st : Graph * list (option string)) :
  foldl promote_initializer st l
  = (mkGraph (nodes_ st.1) (unlinked_ st.1) (node_args_ st.1)
             (initializers_ st.1 ∖ list_to_set l) (graph_inputs_ st.1)
             (graph_outputs_ st.1),
     st.2 ++ (GetNodeArg st.1 <$> l)).
Proof.
  revert st. induction l as [|x l IH]; intros [g args]; simpl.
  - rewrite app_nil_r. destruct g. simpl. do 2 f_equal. set_solver.
  - rewrite IH. simpl. rewrite <- (assoc_L (++)). do 2 f_equal. set_solver.
Qed.

(** X15.  Initialize promotes the trainable initializers to inputs.  It
    returns when no declared input or output of the loaded graph is null
    (a null one is dereferenced).  The names of the declared inputs and
    outputs are appended to the user input and output names (they are not
    cleared first); the trainable names are those of the configuration.
    In the graph that is kept, the declared inputs are the user inputs
    followed by the trainable initializers, no trainable name is an
    initializer any more, and the other initializers, the nodes, the node
    arguments and the declared outputs are as loaded.  For a builder whose
    name lists were empty and a graph whose inputs are node arguments, the
    loaded inputs are kept in front of the trainable initializers. *)
Theorem Initialize_promotes_initializers (graph : Graph)
    (config : ModuleGradientGraphBuilderConfiguration)
    (b : ModuleGradientGraphBuilder) :
  ((∀ o, o ∈ graph_inputs_ graph ++ graph_outputs_ graph → is_Some o) ↔
   is_Normal (Initialize graph config b)) ∧
  (None ∈ graph_inputs_ graph ++ graph_outputs_ graph →
   Initialize graph config b = Undefined) ∧
  (∀ g' b' st,
     Initialize graph config b = Normal (g', b', st) →
     st = OK ∧ config_ b' = config ∧
     (Some <$> user_input_names (split_graphs_info_ b')
      = (Some <$> user_input_names (split_graphs_info_ b)) ++
        graph_inputs_ graph) ∧
     (Some <$> user_output_names (split_graphs_info_ b')
      = (Some <$> user_output_names (split_graphs_info_ b)) ++
        graph_outputs_ graph) ∧
     initializer_names_to_train (split_graphs_info_ b')
     = elements (config_initializer_names_to_train config) ∧
     graph_inputs_ g'
     = GetNodeArg graph <$>
         (user_input_names (split_graphs_info_ b') ++
          initializer_names_to_train (split_graphs_info_ b')) ∧
     (∀ x, x ∈ initializers_ g' ↔
           x ∈ initializers_ graph ∧
           x ∉ config_initializer_names_to_train config) ∧
     nodes_ g' = nodes_ graph ∧ node_args_ g' = node_args_ graph ∧
     graph_outputs_ g' = graph_outputs_ graph ∧
     (user_input_names (split_graphs_info_ b) = [] →
      (∀ x, Some x ∈ graph_inputs_ graph → x ∈ dom (node_args_ graph)) →
      graph_inputs_ g'
      = graph_inputs_ graph ++
        (GetNodeArg graph <$>
           elements (config_initializer_names_to_train config)))).
Proof.
  assert (∀ g' b' st,
     Initialize graph config b = Normal (g', b', st) →
     ∃ ins outs,
       graph_inputs_ graph = Some <$> ins ∧
       graph_outputs_ graph = Some <$> outs ∧
       st = OK ∧
       b' = set_config
              (set_info b
                 (set_initializer_names_to_train
                    (set_user_output_names
                       (set_user_input_names (split_graphs_info_ b)
                          (user_input_names (split_graphs_info_ b) ++ ins))
                       (user_output_names (split_graphs_info_ b) ++ outs))
                    (elements (config_initializer_names_to_train config))))
              config ∧
       g' = mkGraph (nodes_ graph) (unlinked_ graph) (node_args_ graph)
              (initializers_ graph ∖
               list_to_set (elements (config_initializer_names_to_train config)))
              ((GetNodeArg graph <$>
                  (user_input_names (split_graphs_info_ b) ++ ins)) ++
               (GetNodeArg graph <$>
                  elements (config_initializer_names_to_train config)))
              (graph_outputs_ graph)) as Hinv.
  { intros g' b' st H. unfold Initialize in H. cbv zeta in H.
    inv_bind in H as input_names Hin. inv_bind in H as output_names Hout.
    apply push_names_fold in Hin as (ins & Hins & ->).
    simpl in Hout. apply push_names_fold in Hout as (outs & Houts & ->).
    simpl in H. rewrite promote_initializers_fold in H. simpl in H.
    inversion H; subst g' b' st. by exists ins, outs. }
  split_and!.
  - split.
    + intros Hsome.
      assert (∃ ins, graph_inputs_ graph = Some <$> ins) as [ins Hins].
      { assert (∀ o, o ∈ graph_inputs_ graph → is_Some o) as Hi
          by (intros o Ho; apply Hsome, elem_of_app; by left).
        clear -Hi. induction (graph_inputs_ graph) as [|o l IH];
          [by exists []|].
        destruct (Hi o) as [x ->]; [by left|].
        destruct IH as [ins ->]; [intros ??; apply Hi; by right|].
        by exists (x :: ins). }
      assert (∃ outs, graph_outputs_ graph = Some <$> outs) as [outs Houts].
      { assert (∀ o, o ∈ graph_outputs_ graph → is_Some o) as Hi
          by (intros o Ho; apply Hsome, elem_of_app; by right).
        clear -Hi. induction (graph_outputs_ graph) as [|o l IH];
          [by exists []|].
        destruct (Hi o) as [x ->]; [by left|].
        destruct IH as [outs ->]; [intros ??; apply Hi; by right|].
        by exists (x :: outs). }
      unfold Initialize. cbv zeta. rewrite Hins, push_names_defined.
      cbn [mbind Outcome_bind]. simpl. rewrite Houts, push_names_defined.
      cbn [mbind Outcome_bind]. simpl. rewrite promote_initializers_fold.
      by eexists.
    + intros [[[g' b'] st] H].
      destruct (Hinv g' b' st H) as (ins & outs & Hins & Houts & _).
      intros o. rewrite Hins, Houts, elem_of_app, !list_elem_of_fmap.
      intros [(x & -> & _)|(x & -> & _)]; by eexists.
  - intros [Hnull|Hnull]%elem_of_app; unfold Initialize; cbv zeta.
    + by rewrite push_names_null.
    + destruct (push_names_cases (user_input_names (split_graphs_info_ b))
                  (graph_inputs_ graph)) as [[names ->]| ->]; [|done].
      cbn [mbind Outcome_bind]. simpl. by rewrite push_names_null.
  - intros g' b' st H.
    destruct (Hinv g' b' st H) as (ins & outs & Hins & Houts & -> & -> & ->).
    simpl. rewrite Hins, Houts, !fmap_app.
    split_and!; try done.
    + intros x. rewrite elem_of_difference, elem_of_list_to_set,
        elem_of_elements. done.
    + intros Hempty Hknown. rewrite Hempty. simpl. f_equal.
      apply list_eq. intros k. rewrite !list_lookup_fmap.
      destruct (ins !! k) as [x|] eqn:E; [|done]. simpl. f_equal.
      unfold GetNodeArg. rewrite decide_True; [done|]. apply Hknown.
      apply list_elem_of_fmap_2. by eapply list_elem_of_lookup_2.
Qed.

(** Witness for X15: the loaded model, with w trainable, and a builder as
    constructed. *)
Lemma Initialize_promotes_initializers_witness :
  ∃ g' b',
    Initialize loaded_graph (mkConfig {["w"]} ∅ false) fresh_builder
    = Normal (g', b', OK) ∧
    graph_inputs_ g' = [Some "x"; Some "w"] ∧
    initializers_ g' = ({[ "c"; "k" ]} : gset string) ∧
    user_input_names (split_graphs_info_ b') = ["x"] ∧
    initializer_names_to_train (split_graphs_info_ b') = ["w"].
Proof.
  destruct (proj1 (proj1 (Initialize_promotes_initializers loaded_graph
                            (mkConfig {["w"]} ∅ false) fresh_builder)))
    as [[[g' b'] st] H].
  { intros o Ho. cbn in Ho.
    repeat (apply elem_of_cons in Ho as [->|Ho]; [by eexists|]).
    apply elem_of_nil in Ho. destruct Ho. }
  exists g', b'.
  destruct (proj2 (proj2 (Initialize_promotes_initializers loaded_graph
                            (mkConfig {["w"]} ∅ false) fresh_builder))
              g' b' st H) as (-> & _).
  split; [exact H|].
  vm_compute in H. inversion H; subst g' b'.
  split_and!; vm_compute; reflexivity.
Defined.

(** ** Boundary detection: where the two loops stop *)

Lemma walks_walk_while (g : Graph) (l : list NodeIndex)
    (stop : string → Prop) (cond : string → bool) (fuel : nat)
    (i r p : NodeIndex) :
  (∀ op, cond op = false ↔ stop op) →
  linked_order g = Some l → l !! p = Some i → length l ≤ fuel + p →
  walks g stop i r →
  walk_while g cond fuel i = Normal r ∧ ∃ q, l !! q = Some r.
Proof.
  intros Hcond Htopo Hp Hlen Hw. revert fuel p Hp Hlen.
  induction Hw as [i n Hn Hstop|i n k r Hn Hstop Hk Hw IH]; intros fuel p Hp Hlen.
  - destruct fuel as [|fuel]; [apply lookup_lt_Some in Hp; lia|].
    split; [|by eauto]. simpl. rewrite Hn. simpl.
    destruct Hstop as [Hstop| ->]; [|done].
    apply Hcond in Hstop. rewrite Hstop. by destruct (OutputNodesBegin g i).
  - destruct fuel as [|fuel]; [apply lookup_lt_Some in Hp; lia|].
    simpl. rewrite Hn. simpl. rewrite Hk.
    destruct (cond (OpType n)) eqn:Hc; [|by apply Hcond in Hc].
    destruct (OutputNodesBegin_position g l i k p Htopo Hp Hk) as (p' & ? & Hp').
    apply (IH fuel p'); [done|lia].
Qed.

(** X16.  What a GELU-family node contributes, exactly.  On a graph that
    has a topological order, start at the first consumer of the node; walk
    along first consumers to the first node that is a dropout-family node
    or has no consumer; from there walk on to the first node that is a
    LayerNormalization node or has no consumer.  If the node reached is a
    LayerNormalization node, its first output is contributed; otherwise
    nothing is.  So a chain without any dropout still contributes when it
    ends in a LayerNormalization node that nothing consumes. *)
Theorem find_layer_end_walks (g : Graph) (i : NodeIndex) (c : option string) :
  is_Some (topologicalOrder g) →
  find_layer_end g i = Normal c ↔
  ∃ first d e n,
    OutputNodesBegin g i = Some first ∧
    walks g is_dropout first d ∧
    walks g is_layernorm d e ∧
    GetNode g e = Some n ∧
    ((OpType n = "LayerNormalization" ∧
      ∃ o, OutputDefs n !! 0 = Some o ∧ c = Some o) ∨
     (OpType n ≠ "LayerNormalization" ∧ c = None)).
Proof.
  intros [l Htopo]%topologicalOrder_is_Some. split.
  - unfold find_layer_end. intros H.
    inv_bind in H as first Hfirst. apply deref_Normal in Hfirst.
    inv_bind in H as d Hd. inv_bind in H as e He.
    inv_bind in H as n Hn. apply deref_Normal in Hn.
    apply (walk_while_walks g is_dropout) in Hd; [|apply not_dropout_false].
    apply (walk_while_walks g is_layernorm) in He; [|apply not_layernorm_false].
    exists first, d, e, n. split_and!; try done.
    destruct (decide (OpType n = "LayerNormalization")) as [Hln|Hln].
    + inv_bind in H as o Ho. apply deref_Normal in Ho. inversion H; subst c.
      left. eauto.
    + inversion H; subst c. by right.
  - intros (first & d & e & n & Hfirst & Hd & He & Hn & Hc).
    pose proof (length_linked_order g l Htopo) as Hlen.
    destruct (Edge_live g i first (OutputNodesBegin_Edge g i first Hfirst))
      as [_ Hlive].
    apply (linked_order_elem_of g l first Htopo) in Hlive.
    apply list_elem_of_lookup in Hlive as [p Hp].
    destruct (walks_walk_while g l is_dropout not_dropout (length (linked g))
                first d p not_dropout_false Htopo Hp) as [Hwd [q Hq]];
      [lia|done|].
    destruct (walks_walk_while g l is_layernorm not_layernorm
                (length (linked g)) d e q not_layernorm_false Htopo Hq)
      as [Hwe _]; [lia|done|].
    unfold find_layer_end. rewrite Hfirst. simpl. rewrite Hwd. simpl.
    rewrite Hwe. simpl. rewrite Hn. simpl.
    destruct Hc as [(Hln & o & Ho & ->)|(Hln & ->)].
    + rewrite decide_True by done. by rewrite Ho.
    + by rewrite decide_False.
Qed.

(** Witness for X16: Gelu, Add, LayerNormalization with no dropout; the
    LayerNormalization node has no consumer and its output is contributed. *)
Lemma find_layer_end_walks_witness :
  find_layer_end no_dropout_graph 0 = Normal (Some "e").
Proof.
  apply (find_layer_end_walks no_dropout_graph 0 (Some "e")).
  { vm_compute. by eexists. }
  exists 1, 2, 2, (mkNode "ln" "LayerNormalization" "" ["b"] ["e"] ∅ "" 0).
  split_and!.
  - vm_compute. reflexivity.
  - eapply (walks_next _ _ 1 _ 2 2); [vm_compute; reflexivity| |
      vm_compute; reflexivity|].
    + unfold is_dropout, dropout_ops. simpl. set_solver.
    + eapply walks_here; [vm_compute; reflexivity|]. right.
      vm_compute. reflexivity.
  - eapply walks_here; [vm_compute; reflexivity|]. by left.
  - vm_compute. reflexivity.
  - left. split; [done|]. by exists "e".
Defined.

(** ** BuildAndSplit: the inputs and outputs related to gradients *)

Lemma collect_names_fold (g : Graph) (order : list NodeIndex)
    (acc names : gset string * gset string) :
  foldO (λ acc node_index,
           node ← deref (GetNode g node_index);
           Normal (GetInputAndOutputNames node acc))
        acc order = Normal names →
  (∀ x, x ∈ names.1 ↔
        x ∈ acc.1 ∨ ∃ i n, i ∈ order ∧ GetNode g i = Some n ∧ x ∈ InputDefs n) ∧
  (∀ x, x ∈ names.2 ↔
        x ∈ acc.2 ∨ ∃ i n, i ∈ order ∧ GetNode g i = Some n ∧ x ∈ OutputDefs n).
Proof.
  revert acc. induction order as [|i order IH]; intros acc H; simpl in H.
  - inversion H; subst. split; intros x; (split; [by left|]);
      (intros [?|(i & n & Hi & _)]; [done|by apply elem_of_nil in Hi]).
  - inv_bind in H as acc1 Hstep. inv_bind in Hstep as n Hn.
    apply deref_Normal in Hn. inversion Hstep; subst acc1. clear Hstep.
    apply IH in H as [Hin Hout]. unfold GetInputAndOutputNames in *.
    simpl in *. split; intros x.
    + rewrite Hin, elem_of_union, elem_of_list_to_set. split.
      * intros [[?|?]|(j & m & Hj & Hm & ?)]; [|by left|].
        -- right. exists i, n. split; [by left|done].
        -- right. exists j, m. split; [by right|done].
      * intros [?|(j & m & Hj & Hm & ?)]; [left; by right|].
        apply elem_of_cons in Hj as [->|Hj]; [|right; eauto 10].
        rewrite Hn in Hm. inversion Hm; subst m. left; by left.
    + rewrite Hout, elem_of_union, elem_of_list_to_set. split.
      * intros [[?|?]|(j & m & Hj & Hm & ?)]; [|by left|].
        -- right. exists i, n. split; [by left|done].
        -- right. exists j, m. split; [by right|done].
      * intros [?|(j & m & Hj & Hm & ?)]; [left; by right|].
        apply elem_of_cons in Hj as [->|Hj]; [|right; eauto 10].
        rewrite Hn in Hm. inversion Hm; subst m. left; by left.
Qed.

(** The two name sets, on a graph that has a topological order. *)
Lemma collect_names_spec (g : Graph) (order : list NodeIndex)
    (names : gset string * gset string) :
  topologicalOrder g = Some order →
  collect_names g order = Normal names →
  (∀ x, x ∈ names.1 ↔ consumed_by_node g x) ∧
  (∀ x, x ∈ names.2 ↔ produced_by_node g x).
Proof.
  intros Htopo H. apply collect_names_fold in H as [Hin Hout]. simpl in *.
  assert (∀ i n, (i ∈ order ∧ GetNode g i = Some n) ↔ GetNode g i = Some n)
    as Hlive.
  { intros i n. split; [by intros [_ ?]|]. intros Hn. split; [|done].
    apply (topologicalOrder_elem_of g order i Htopo). by eexists. }
  unfold consumed_by_node, produced_by_node. split; intros x.
  - rewrite Hin. split.
    + intros [?%elem_of_empty|(i & n & Hi & Hn & ?)]; [done|].
      exists i, n. split; [by apply Hlive|done].
    + intros (i & n & Hn & ?). right. exists i, n.
      apply Hlive in Hn as [? ?]. done.
  - rewrite Hout. split.
    + intros [?%elem_of_empty|(i & n & Hi & Hn & ?)]; [done|].
      exists i, n. split; [by apply Hlive|done].
    + intros (i & n & Hn & ?). right. exists i, n.
      apply Hlive in Hn as [? ?]. done.
Qed.

Lemma collect_names_defined (g : Graph) (order : list NodeIndex) :
  topologicalOrder g = Some order → is_Normal (collect_names g order).
Proof.
  intros Htopo. unfold collect_names. apply foldO_defined. intros acc i Hi.
  apply (topologicalOrder_elem_of g order i Htopo) in Hi as [n ->].
  by eexists.
Qed.

Lemma output_grad_fold (ins outs : gset string) (l : list string)
    (g g' : Graph) (gr gr' bg bg' : list string)
    (args args' : list (option string)) :
  foldO (output_grad_step ins outs) (g, gr, bg, args) l
  = Normal (g', gr', bg', args') →
  gr' = gr ++ (grad_of <$> filter (λ u, grad_of u ∈ ins) l) ∧
  bg' = bg ++ (grad_of <$>
                 filter (λ u, grad_of u ∈ ins ∧ grad_of u ∉ outs) l) ∧
  args' = args ++ (Some <$> (grad_of <$>
                 filter (λ u, grad_of u ∈ ins ∧ grad_of u ∉ outs) l)) ∧
  nodes_ g' = nodes_ g ∧ unlinked_ g' = unlinked_ g ∧
  initializers_ g' = initializers_ g ∧
  dom (node_args_ g') = dom (node_args_ g) ∧
  (∀ x, x ∉ grad_of <$> filter (λ u, grad_of u ∈ ins ∧ grad_of u ∉ outs) l →
        TypeAsProto g' x = TypeAsProto g x) ∧
  (∀ u, u ∈ filter (λ u, grad_of u ∈ ins ∧ grad_of u ∉ outs) l →
        grad_of u ∈ dom (node_args_ g) ∧ u ∈ dom (node_args_ g)).
Proof.
  revert g gr bg args.
  induction l as [|u l IH]; intros g gr bg args H; simpl in H.
  - inversion H; subst. rewrite !filter_nil. simpl. rewrite !app_nil_r.
    split_and!; try done. intros u Hu. by apply elem_of_nil in Hu.
  - inv_bind in H as st Hstep. destruct st as [[[g1 gr1] bg1] args1].
    apply IH in H as (-> & -> & -> & Hn & Hu & Hi & Hd & Hty & Hknown).
    rewrite !filter_cons. unfold output_grad_step in Hstep.
    destruct (decide (grad_of u ∈ ins)) as [Hin|Hin].
    + destruct (decide (grad_of u ∉ outs)) as [Hout|Hout].
      * inv_bind in Hstep as a Ha. inv_bind in Hstep as oa Hoa.
        apply deref_Normal in Ha, Hoa.
        apply GetNodeArg_Some in Ha as [-> Hda].
        apply GetNodeArg_Some in Hoa as [-> Hdo].
        inversion Hstep; subst g1 gr1 bg1 args1. clear Hstep.
        rewrite decide_True by done. simpl in *.
        rewrite ?fmap_cons, <- !(assoc_L (++)).
        assert (dom (<[grad_of u := TypeAsProto g u]> (node_args_ g))
                = dom (node_args_ g)) as Hdom.
        { rewrite dom_insert_L. set_solver. }
        rewrite Hdom in Hd, Hknown.
        split_and!; try done.
        -- intros x Hx. rewrite Hty by (intros ?; apply Hx; by right).
           rewrite TypeAsProto_UpdateTypeAndShape.
           rewrite decide_False; [done|]. intros ->. apply Hx. by left.
        -- intros v [->|Hv]%elem_of_cons; [done|by apply Hknown].
      * inversion Hstep; subst g1 gr1 bg1 args1. clear Hstep.
        rewrite decide_False by (by intros [_ ?]).
        rewrite !fmap_cons, <- !(assoc_L (++)). by split_and!.
    + inversion Hstep; subst g1 gr1 bg1 args1. clear Hstep.
      rewrite decide_False by (by intros [? _]). by split_and!.
Qed.

Lemma output_grad_fold_defined (ins outs : gset string) (l : list string)
    (st : Graph * list string * list string * list (option string)) :
  (∀ u, u ∈ l → grad_of u ∈ ins → grad_of u ∉ outs →
        grad_of u ∈ dom (node_args_ st.1.1.1) ∧ u ∈ dom (node_args_ st.1.1.1)) →
  is_Normal (foldO (output_grad_step ins outs) st l).
Proof.
  revert st. induction l as [|u l IH]; intros [[[g gr] bg] args] Hall;
    cbn [foldO]; [by eexists|].
  assert (∃ g1 gr1 bg1 args1,
            output_grad_step ins outs (g, gr, bg, args) u
            = Normal (g1, gr1, bg1, args1) ∧
            dom (node_args_ g1) = dom (node_args_ g))
    as (g1 & gr1 & bg1 & args1 & -> & Hdom).
  { unfold output_grad_step.
    destruct (decide (grad_of u ∈ ins)) as [Hin|Hin]; [|by eexists _, _, _, _].
    destruct (decide (grad_of u ∉ outs)) as [Hout|Hout];
      [|by eexists _, _, _, _].
    destruct (Hall u) as [Hda Hdo]; [by left|done|done|]. simpl in Hda, Hdo.
    unfold GetNodeArg. rewrite !decide_True by done. simpl.
    eexists _, _, _, _. split; [done|]. simpl. rewrite dom_insert_L.
    set_solver. }
  cbn [mbind Outcome_bind]. apply IH. simpl. rewrite Hdom.
  intros v Hv. apply Hall. by right.
Qed.

Lemma initializer_grad_fold (outs : gset string) (g : Graph) (l : list string)
    (st : list string * list (option string)) :
  foldl (initializer_grad_step outs g) st l
  = (st.1 ++ (grad_of <$> filter (λ w, grad_of w ∈ outs) l),
     st.2 ++ (GetNodeArg g <$> (grad_of <$> filter (λ w, grad_of w ∈ outs) l))).
Proof.
  revert st. induction l as [|w l IH]; intros [names args]; cbn [foldl].
  - by rewrite filter_nil, !fmap_nil, !app_nil_r.
  - rewrite IH, filter_cons. unfold initializer_grad_step.
    destruct (decide (grad_of w ∈ outs)); [|done]. cbn [fst snd].
    by rewrite !fmap_cons, <- !(assoc_L (++)).
Qed.

Lemma input_grad_fold (outs : gset string) (g : Graph) (l : list string)
    (args : list (option string)) :
  foldl (input_grad_step outs g) args l
  = args ++ (GetNodeArg g <$> (grad_of <$> filter (λ i, grad_of i ∈ outs) l)).
Proof.
  revert args. induction l as [|i l IH]; intros args; cbn [foldl].
  - by rewrite filter_nil, !fmap_nil, app_nil_r.
  - rewrite IH, filter_cons. unfold input_grad_step.
    destruct (decide (grad_of i ∈ outs)); [|done].
    by rewrite !fmap_cons, <- (assoc_L (++)).
Qed.

Lemma output_grad_fold_types (ins outs : gset string) (l : list string)
    (g g' : Graph) (gr gr' bg bg' : list string)
    (args args' : list (option string)) (u : string) :
  foldO (output_grad_step ins outs) (g, gr, bg, args) l
  = Normal (g', gr', bg', args') →
  u ∈ filter (λ u, grad_of u ∈ ins ∧ grad_of u ∉ outs) l →
  (∀ v, v ∈ filter (λ u, grad_of u ∈ ins ∧ grad_of u ∉ outs) l →
        grad_of v ≠ u) →
  TypeAsProto g' (grad_of u) = TypeAsProto g u.
Proof.
  revert g gr bg args.
  induction l as [|w l IH]; intros g gr bg args H Hu Hfresh.
  - rewrite filter_nil in Hu. by apply elem_of_nil in Hu.
  - cbn [foldO] in H. inv_bind in H as st Hstep.
    destruct st as [[[g1 gr1] bg1] args1].
    rewrite filter_cons in Hu, Hfresh.
    destruct (decide (grad_of w ∈ ins ∧ grad_of w ∉ outs)) as [[Hin Hout]|Hn].
    + unfold output_grad_step in Hstep.
      rewrite !decide_True in Hstep by done.
      inv_bind in Hstep as a Ha. inv_bind in Hstep as oa Hoa.
      apply deref_Normal in Ha, Hoa.
      apply GetNodeArg_Some in Ha as [-> _].
      apply GetNodeArg_Some in Hoa as [-> _].
      inversion Hstep; subst g1 gr1 bg1 args1. clear Hstep.
      assert (TypeAsProto (UpdateTypeAndShape g (grad_of w) (TypeAsProto g w)) u
              = TypeAsProto g u) as Hsame.
      { rewrite TypeAsProto_UpdateTypeAndShape, decide_False; [done|].
        intros ->. by apply (Hfresh w); [left|]. }
      destruct (decide (u ∈ filter (λ u, grad_of u ∈ ins ∧ grad_of u ∉ outs) l))
        as [Hul|Hul].
      * rewrite (IH _ _ _ _ H Hul); [done|].
        intros v Hv. apply Hfresh. by right.
      * apply elem_of_cons in Hu as [->|Hu]; [|done].
        destruct (output_grad_fold _ _ _ _ _ _ _ _ _ _ _ H)
          as (_ & _ & _ & _ & _ & _ & _ & Hty & _).
        rewrite Hty.
        -- by rewrite TypeAsProto_UpdateTypeAndShape, decide_True.
        -- intros (v & Hv%grad_of_inj & Hvl)%list_elem_of_fmap. by subst v.
    + assert (g1 = g) as ->.
      { unfold output_grad_step in Hstep.
        destruct (decide (grad_of w ∈ ins)) as [Hin|Hin];
          [|by inversion Hstep].
        destruct (decide (grad_of w ∉ outs)) as [Hout|Hout];
          [by destruct Hn|by inversion Hstep]. }
      by eapply IH.
Qed.

Lemma GetNodeArg_same_dom (g g' : Graph) (name : string) :
  dom (node_args_ g') = dom (node_args_ g) →
  GetNodeArg g' name = GetNodeArg g name.
Proof. unfold GetNodeArg. by intros ->. Qed.

Lemma no_throw_fix_gradient_inputs_outputs
    (config : ModuleGradientGraphBuilderConfiguration)
    (graph : Graph) (info : SplitGraphsInfo) :
  no_throw (fix_gradient_inputs_outputs config graph info).
Proof.
  unfold fix_gradient_inputs_outputs.
  apply no_throw_bind; [apply no_throw_deref|]. intros order _.
  apply no_throw_bind.
  { apply no_throw_foldO. intros acc i.
    apply no_throw_bind; [apply no_throw_deref|]. intros n _.
    apply no_throw_Normal. }
  intros names _. apply no_throw_bind.
  { apply no_throw_foldO. intros [[[g gr] bg] args] u. unfold output_grad_step.
    destruct (decide _); [|apply no_throw_Normal].
    destruct (decide _); [|apply no_throw_Normal].
    apply no_throw_bind; [apply no_throw_deref|]. intros a _.
    apply no_throw_bind; [apply no_throw_deref|]. intros oa _.
    apply no_throw_Normal. }
  intros [[[g gr] bg] args] _. destruct (foldl _ _ _). apply no_throw_Normal.
Qed.

(** X17.  The gradient interface that BuildAndSplit declares.  On a graph
    that has a topological order: the gradient of a user output that some
    node reads is recorded; when no node writes it, it is also recorded as
    supplied by the caller and appended to the declared inputs, which are
    otherwise kept.  The declared outputs become the user outputs, then the
    gradients of the trainable initializers that some node writes (in
    initializer order), then the gradients of the inputs requiring one that
    some node writes: here initializer gradients come before input
    gradients, and a gradient that no node writes is left out without an
    error.  Nodes and initializers are unchanged, no node argument is added
    or removed, and only the gradients supplied by the caller change type:
    each takes the type of its output.  The call never throws. *)
Theorem fix_gradient_inputs_outputs_order
    (config : ModuleGradientGraphBuilderConfiguration)
    (graph : Graph) (info : SplitGraphsInfo) :
  is_Some (topologicalOrder graph) →
  ((∀ u, u ∈ user_output_names info →
         consumed_by_node graph (grad_of u) →
         ¬ produced_by_node graph (grad_of u) →
         grad_of u ∈ dom (node_args_ graph) ∧ u ∈ dom (node_args_ graph)) →
   is_Normal (fix_gradient_inputs_outputs config graph info)) ∧
  no_throw (fix_gradient_inputs_outputs config graph info) ∧
  (∀ g' info',
     fix_gradient_inputs_outputs config graph info = Normal (g', info') →
     ∃ consumed produced : gset string,
       (∀ x, x ∈ consumed ↔ consumed_by_node graph x) ∧
       (∀ x, x ∈ produced ↔ produced_by_node graph x) ∧
       user_output_grad_names info'
       = grad_of <$> filter (λ u, grad_of u ∈ consumed) (user_output_names info) ∧
       backward_output_grad_names info'
       = grad_of <$> filter (λ u, grad_of u ∈ consumed ∧ grad_of u ∉ produced)
                            (user_output_names info) ∧
       initializer_grad_names_to_train info'
       = grad_of <$> filter (λ w, grad_of w ∈ produced)
                            (initializer_names_to_train info) ∧
       graph_inputs_ g'
       = graph_inputs_ graph ++ (Some <$> backward_output_grad_names info') ∧
       graph_outputs_ g'
       = GetNodeArg graph <$>
           (user_output_names info ++
            initializer_grad_names_to_train info' ++
            (grad_of <$> filter (λ i, grad_of i ∈ produced)
                                (elements (input_names_require_grad config)))) ∧
       nodes_ g' = nodes_ graph ∧
       initializers_ g' = initializers_ graph ∧
       dom (node_args_ g') = dom (node_args_ graph) ∧
       (∀ x, x ∉ backward_output_grad_names info' →
             TypeAsProto g' x = TypeAsProto graph x) ∧
       (∀ u, grad_of u ∈ backward_output_grad_names info' →
             u ∉ backward_output_grad_names info' →
             TypeAsProto g' (grad_of u) = TypeAsProto graph u)).
Proof.
  intros [order Htopo]. split_and!.
  - intros Hknown. unfold fix_gradient_inputs_outputs, GetNodesInTopologicalOrder.
    rewrite Htopo. cbn [deref mbind Outcome_bind].
    destruct (collect_names_defined graph order Htopo) as [names Hnames].
    rewrite Hnames. cbn [mbind Outcome_bind].
    destruct (collect_names_spec graph order names Htopo Hnames) as [Hc Hp].
    destruct (output_grad_fold_defined names.1 names.2 (user_output_names info)
                (graph, [], [], graph_inputs_ graph))
      as [[[[g1 gr] bg] args] ->].
    { simpl. intros u Hu Hin Hout. apply Hknown; [done|by apply Hc|].
      by rewrite <- Hp. }
    cbn [mbind Outcome_bind]. destruct (foldl _ _ _). by eexists.
  - apply no_throw_fix_gradient_inputs_outputs.
  - intros g' info' H.
    unfold fix_gradient_inputs_outputs, GetNodesInTopologicalOrder in H.
    rewrite Htopo in H. cbn [deref mbind Outcome_bind] in H.
    inv_bind in H as names Hnames.
    destruct (collect_names_spec graph order names Htopo Hnames) as [Hc Hp].
    inv_bind in H as st Hst. destruct st as [[[g1 gr] bg] args].
    pose proof (output_grad_fold _ _ _ _ _ _ _ _ _ _ _ Hst)
      as (Hgr & Hbg & Hargs & Hn & _ & Hi & Hd & Hty & _).
    simpl in Hgr, Hbg, Hargs.
    rewrite initializer_grad_fold, input_grad_fold in H. simpl in H.
    inversion H; subst g' info'. clear H. simpl.
    exists names.1, names.2. subst gr bg args.
    split_and!; try done.
    + rewrite <- !(assoc_L (++)), !fmap_app.
      f_equal; [|f_equal]; apply list_fmap_ext; intros ???;
        by apply GetNodeArg_same_dom.
    + intros u Hu Hnu.
      apply list_elem_of_fmap in Hu as (v & Hv%grad_of_inj & Hvl). subst v.
      change (TypeAsProto g1 (grad_of u) = TypeAsProto graph u).
      eapply output_grad_fold_types; [exact Hst|done|].
      intros v Hv Heq. apply Hnu. rewrite <- Heq.
      by apply list_elem_of_fmap_2.
Qed.

Lemma fix_gradient_inputs_outputs_order_witness :
  is_Some (topologicalOrder matmul_gradient_graph) ∧
  is_Normal (fix_gradient_inputs_outputs (config_ matmul_builder)
               matmul_gradient_graph matmul_info) ∧
  no_throw (fix_gradient_inputs_outputs (config_ matmul_builder)
              matmul_gradient_graph matmul_info).
Proof.
  assert (is_Some (topologicalOrder matmul_gradient_graph)) as Htopo.
  { eexists. vm_compute. reflexivity. }
  destruct (fix_gradient_inputs_outputs_order (config_ matmul_builder)
              matmul_gradient_graph matmul_info Htopo) as (Hdef & Hnt & _).
  split; [exact Htopo|]. split; [|exact Hnt].
  apply Hdef. intros u Hu _ _.
  apply list_elem_of_singleton in Hu. subst u.
  split; apply elem_of_dom; eexists; vm_compute; reflexivity.
Defined.
